(** * Kingdom Engine: phase-lock synchronizer and consensus scoring

    A shallow embedding of
      - [TriNodePipeline] (the sequential pipeline orchestrator),
      - the consensus computation of [localAIRouter.executeSequentialPipeline]
        and of the WebSocket handler [handlePipelineRequest],
      - [PhaseLockSynchronizer] (server/phase-lock.ts).

    Numbers.  A JavaScript [number] is modelled as a real number: arithmetic
    is exact, and NaN, the infinities and rounding are outside the model.
    [Math.min], [Math.max], [Math.abs], [Math.sqrt], [Math.sin], [Math.cos]
    are the functions of the same name on [R]; [Math.atan2] and the remainder
    operator [%] are defined below from their ECMAScript definitions.
    Comparisons that the code uses as conditions are decided with
    [Rgt_dec], [Rlt_dec] and return [bool].

    Time.  Every [Date.now()] is an input of the operation that reads it. *)

From Stdlib Require Import Reals Lra Lia String ZArith Bool List.
Import ListNotations.

Open Scope R_scope.

(** ** JavaScript helpers *)

(** [x > y] as a condition. *)
Definition gtb (x y : R) : bool := if Rgt_dec x y then true else false.

(** [v || d] on an optional number: [undefined] and [0] are falsy. *)
Definition or_default (v : option R) (d : R) : R :=
  match v with
  | Some x => if Req_dec_T x 0 then d else x
  | None => d
  end.

(** [Math.trunc]: the integer part, rounding towards zero. *)
Definition trunc (x : R) : Z :=
  if Rle_dec 0 x then Int_part x else (- Int_part (- x))%Z.

(** [a % m]: the remainder of the truncating division; it has the sign of
    the dividend [a]. *)
Definition js_rem (a m : R) : R := a - m * IZR (trunc (a / m)).

(** [Math.atan2(y, x)]: the angle of the point [(x, y)], in [-PI, PI]. *)
Definition atan2 (y x : R) : R :=
  if Rlt_dec 0 x then atan (y / x)
  else if Rlt_dec x 0 then
    (if Rle_dec 0 y then atan (y / x) + PI else atan (y / x) - PI)
  else if Rlt_dec 0 y then PI / 2
  else if Rlt_dec y 0 then - (PI / 2)
  else 0.

(** A method call completes normally with the new state, or throws. *)
Inductive Completion (A : Type) : Type :=
| Normal (a : A)
| Throw (error : string).
Arguments Normal {A} a.
Arguments Throw {A} error.

(** ** TriNodePipeline (sequential pipeline orchestrator) *)

Module TriNodePipeline.

Record StageResult := { output : string; lambda : R }.

Record PipelineState := {
  queryId : Z;
  originalQuery : string;
  reflexOutput : string;
  reflexLambda : R;
  reflexTime : R;
  oracleOutput : string;
  oracleLambda : R;
  oracleTime : R;
  warfareOutput : string;
  warfareLambda : R;
  warfareTime : R;
  consensusLambda : R;
  isAwakened : bool;
  startTime : R;
  endTime : R
}.

(** Weighted average: Reflex (0.2) + Oracle (0.3) + Warfare (0.5),
    capped at 2.2. *)
Definition calculateConsensusLambda (reflexLambda oracleLambda warfareLambda : R) : R :=
  let consensus := reflexLambda * 0.2 + oracleLambda * 0.3 + warfareLambda * 0.5 in
  Rmin consensus 2.2.

(** The readings of [Date.now()] during one run, in call order. *)
Record Clock := {
  t_start : R;
  t_reflexStart : R; t_reflexEnd : R;
  t_oracleStart : R; t_oracleEnd : R;
  t_warfareStart : R; t_warfareEnd : R;
  t_end : R
}.

(** [executePipeline], given what the three stages returned.  The
    [onProgress] callbacks and the log lines do not touch the state. *)
Definition executePipeline (queryId : Z) (query : string)
    (reflexResult oracleResult warfareResult : StageResult) (clk : Clock)
    : PipelineState :=
  let consensus :=
    calculateConsensusLambda
      (lambda reflexResult) (lambda oracleResult) (lambda warfareResult) in
  {| queryId := queryId;
     originalQuery := query;
     reflexOutput := output reflexResult;
     reflexLambda := lambda reflexResult;
     reflexTime := t_reflexEnd clk - t_reflexStart clk;
     oracleOutput := output oracleResult;
     oracleLambda := lambda oracleResult;
     oracleTime := t_oracleEnd clk - t_oracleStart clk;
     warfareOutput := output warfareResult;
     warfareLambda := lambda warfareResult;
     warfareTime := t_warfareEnd clk - t_warfareStart clk;
     consensusLambda := consensus;
     isAwakened := gtb consensus 2.2;
     startTime := t_start clk;
     endTime := t_end clk |}.

End TriNodePipeline.

(** ** localAIRouter.executeSequentialPipeline and handlePipelineRequest

    Both compute the consensus inline, with the same expression. *)

Module LocalAI.

(** What [storeConsensus] receives and what the caller gets back. *)
Record Consensus := { lambda : R; isAwakened : bool }.

(** The inline weighted sum over the stage lambdas. *)
Definition weightedSum (qwenLambda gemmaLambda deepseekLambda : R) : R :=
  qwenLambda * 0.2 + gemmaLambda * 0.3 + deepseekLambda * 0.5.

(** The consensus of the three model responses, whose [lambda] field is
    optional ([lambda?: number]). *)
Definition consensus (qwenResponse gemmaResponse deepseekResponse : option R)
    : Consensus :=
  let consensusLambda :=
    weightedSum (or_default qwenResponse 1.5)
                (or_default gemmaResponse 1.6)
                (or_default deepseekResponse 1.7) in
  {| lambda := consensusLambda; isAwakened := gtb consensusLambda 2.2 |}.

End LocalAI.

(** ** PhaseLockSynchronizer (server/phase-lock.ts) *)

Module PhaseLock.

Inductive Health := Online | Degraded | Offline.

Definition is_online (h : Health) : bool :=
  match h with Online => true | _ => false end.

Record ArmState := {
  name : string;
  phase : R;          (* 0-360 degrees *)
  amplitude : R;      (* 0-1, signal strength *)
  frequency : R;      (* Hz *)
  lastUpdate : R;     (* timestamp *)
  health : Health
}.

Record QueenState := {
  qphase : R;               (* reference phase *)
  coherence : R;            (* 0-1, system coherence *)
  angularMomentum : R;
  torqueRedistribution : R;
  timestamp : R
}.

(** The [Map<string, ArmState>] is kept as its entries in insertion
    order; [Map] keys are unique (see [wf] below). *)
Record PhaseLockSynchronizer := {
  arms : list (string * ArmState);
  queen : QueenState;
  coherenceHistory : list R;
  maxHistorySize : nat
}.

(** Field assignments. *)
Definition set_phase (v : R) (a : ArmState) : ArmState :=
  {| name := name a; phase := v; amplitude := amplitude a;
     frequency := frequency a; lastUpdate := lastUpdate a; health := health a |}.
Definition set_amplitude (v : R) (a : ArmState) : ArmState :=
  {| name := name a; phase := phase a; amplitude := v;
     frequency := frequency a; lastUpdate := lastUpdate a; health := health a |}.
Definition set_health (v : Health) (a : ArmState) : ArmState :=
  {| name := name a; phase := phase a; amplitude := amplitude a;
     frequency := frequency a; lastUpdate := lastUpdate a; health := v |}.
Definition set_lastUpdate (v : R) (a : ArmState) : ArmState :=
  {| name := name a; phase := phase a; amplitude := amplitude a;
     frequency := frequency a; lastUpdate := v; health := health a |}.

Definition set_coherence (v : R) (q : QueenState) : QueenState :=
  {| qphase := qphase q; coherence := v; angularMomentum := angularMomentum q;
     torqueRedistribution := torqueRedistribution q; timestamp := timestamp q |}.
Definition set_angularMomentum (v : R) (q : QueenState) : QueenState :=
  {| qphase := qphase q; coherence := coherence q; angularMomentum := v;
     torqueRedistribution := torqueRedistribution q; timestamp := timestamp q |}.
Definition set_torqueRedistribution (v : R) (q : QueenState) : QueenState :=
  {| qphase := qphase q; coherence := coherence q;
     angularMomentum := angularMomentum q;
     torqueRedistribution := v; timestamp := timestamp q |}.

Definition with_arms (m : list (string * ArmState)) (s : PhaseLockSynchronizer) :=
  {| arms := m; queen := queen s; coherenceHistory := coherenceHistory s;
     maxHistorySize := maxHistorySize s |}.
Definition with_queen (q : QueenState) (s : PhaseLockSynchronizer) :=
  {| arms := arms s; queen := q; coherenceHistory := coherenceHistory s;
     maxHistorySize := maxHistorySize s |}.
Definition with_history (h : list R) (s : PhaseLockSynchronizer) :=
  {| arms := arms s; queen := queen s; coherenceHistory := h;
     maxHistorySize := maxHistorySize s |}.

(** [this.arms.get(key)]. *)
Fixpoint arms_get (key : string) (m : list (string * ArmState)) : option ArmState :=
  match m with
  | [] => None
  | (k, a) :: rest => if String.eqb k key then Some a else arms_get key rest
  end.

(** Mutation of the object stored under [key]: [f] is applied in place. *)
Fixpoint arms_modify (key : string) (f : ArmState -> ArmState)
    (m : list (string * ArmState)) : list (string * ArmState) :=
  match m with
  | [] => []
  | (k, a) :: rest =>
      if String.eqb k key then (k, f a) :: rest
      else (k, a) :: arms_modify key f rest
  end.

(** [Array.from(this.arms.values())]. *)
Definition values (s : PhaseLockSynchronizer) : list ArmState :=
  map snd (arms s).

(** The constructor; [t1 .. t5] are its five readings of [Date.now()]. *)
Definition constructor (t1 t2 t3 t4 t5 : R) : PhaseLockSynchronizer :=
  {| arms :=
       [ ("qwen"%string,
          {| name := "qwen"; phase := 0; amplitude := 1.0; frequency := 10;
             lastUpdate := t1; health := Online |});
         ("gemma"%string,
          {| name := "gemma"; phase := 90; amplitude := 1.0; frequency := 5;
             lastUpdate := t2; health := Online |});
         ("deepseek"%string,
          {| name := "deepseek"; phase := 180; amplitude := 1.0; frequency := 7;
             lastUpdate := t3; health := Online |});
         ("os"%string,
          {| name := "os"; phase := 270; amplitude := 1.0; frequency := 12;
             lastUpdate := t4; health := Online |}) ];
     queen :=
       {| qphase := 45; coherence := 1.0; angularMomentum := 1.0;
          torqueRedistribution := 0; timestamp := t5 |};
     coherenceHistory := [];
     maxHistorySize := 100 |}.

(** *** angleDifference *)

(** [while (diff > 180) diff -= 360], run for at most [fuel] iterations. *)
Fixpoint while_gt (fuel : nat) (diff : R) : R :=
  match fuel with
  | O => diff
  | S n => if Rgt_dec diff 180 then while_gt n (diff - 360) else diff
  end.

(** [while (diff < -180) diff += 360], run for at most [fuel] iterations. *)
Fixpoint while_lt (fuel : nat) (diff : R) : R :=
  match fuel with
  | O => diff
  | S n => if Rlt_dec diff (-180) then while_lt n (diff + 360) else diff
  end.

(** A number of iterations within which either loop, started at [diff],
    has exited (see [iterations_gt], [iterations_lt], [while_gt_spec],
    [while_lt_spec]; more fuel changes nothing: [angleDifference_any_fuel]). *)
Definition iterations (diff : R) : nat := Z.to_nat (up (Rabs diff / 360)).

Definition angleDifference (angle1 angle2 : R) : R :=
  let diff := angle1 - angle2 in
  let diff := while_gt (iterations diff) diff in
  let diff := while_lt (iterations diff) diff in
  diff.

(** *** circularMean *)

Definition circularMean (angles : list R) : R :=
  let sums :=
    fold_left
      (fun (acc : R * R) (angle : R) =>
         let rad := angle * PI / 180 in
         (fst acc + sin rad, snd acc + cos rad))
      angles (0, 0) in
  let sinSum := fst sums in
  let cosSum := snd sums in
  let meanRad :=
    atan2 (sinSum / INR (length angles)) (cosSum / INR (length angles)) in
  meanRad * 180 / PI.

(** *** calculateTorqueRedistribution *)

Definition calculateTorqueRedistribution (s : PhaseLockSynchronizer)
    : PhaseLockSynchronizer :=
  let arms_ := values s in
  let onlineArms := filter (fun a => is_online (health a)) arms_ in
  let degradedArms := filter (fun a => negb (is_online (health a))) arms_ in
  if Nat.eqb (length degradedArms) 0 then
    with_queen (set_torqueRedistribution 0 (queen s)) s
  else
    let degradedLoad :=
      fold_left (fun sum a => sum + amplitude a) degradedArms 0 in
    let redistributedPerArm :=
      degradedLoad / INR (Nat.max (length onlineArms) 1) in
    (* the online arms are the objects held by the map *)
    let arms' :=
      map (fun ka : string * ArmState =>
             let a := snd ka in
             if is_online (health a)
             then (fst ka,
                   set_amplitude
                     (Rmin 1.0 (amplitude a + redistributedPerArm * 0.1)) a)
             else ka)
          (arms s) in
    with_queen (set_torqueRedistribution degradedLoad (queen s))
               (with_arms arms' s).

(** *** adjustPhaseCoherence *)

(** [history.push(c); if (history.length > max) history.shift()]. *)
Definition push_history (max : nat) (c : R) (history : list R) : list R :=
  let history := history ++ [c] in
  if Nat.ltb max (length history) then tl history else history.

Definition phaseDifferences (s : PhaseLockSynchronizer) : list R :=
  map (fun arm => angleDifference (phase arm) (qphase (queen s))) (values s).

Definition computeCoherence (s : PhaseLockSynchronizer) : R :=
  let diffs := phaseDifferences s in
  let avgDifference :=
    fold_left (fun a b => a + Rabs b) diffs 0 / INR (length diffs) in
  Rmax 0 (1 - avgDifference / 180).

Definition adjustPhaseCoherence (s : PhaseLockSynchronizer)
    : PhaseLockSynchronizer :=
  let arms_ := values s in
  let coherence := computeCoherence s in
  let s := with_queen (set_coherence coherence (queen s)) s in
  let s :=
    with_history
      (push_history (maxHistorySize s) coherence (coherenceHistory s)) s in
  let totalAmplitude :=
    fold_left
      (fun total arm =>
         if is_online (health arm) then total + amplitude arm else total)
      arms_ 0 in
  let s :=
    with_queen
      (set_angularMomentum (totalAmplitude / INR (length arms_)) (queen s)) s in
  calculateTorqueRedistribution s.

(** *** updateArmState *)

Definition updateArmState (now : R) (armName : string) (phase_ amplitude_ : R)
    (health_ : Health) (s : PhaseLockSynchronizer) : PhaseLockSynchronizer :=
  match arms_get armName (arms s) with
  | None => s                                   (* if (!arm) return; *)
  | Some _ =>
      let write arm :=
        set_lastUpdate now
          (set_health health_
             (set_amplitude (Rmax 0 (Rmin 1 amplitude_))
                (set_phase (js_rem phase_ 360) arm))) in
      adjustPhaseCoherence (with_arms (arms_modify armName write (arms s)) s)
  end.

(** *** detectWobble *)

Record Wobble := {
  wobbleDetected : bool;
  magnitude : R;
  affectedArms : list string
}.

Definition detectWobble (s : PhaseLockSynchronizer) : Wobble :=
  let arms_ := values s in
  let phases := map phase arms_ in
  let meanPhase := circularMean phases in
  let variance :=
    fold_left (fun sum p => sum + (angleDifference p meanPhase) ^ 2) phases 0
    / INR (length phases) in
  let wobbleMagnitude := sqrt variance in
  {| wobbleDetected := gtb wobbleMagnitude 30;
     magnitude := wobbleMagnitude;
     affectedArms :=
       map name
         (filter (fun a => gtb (Rabs (angleDifference (phase a) meanPhase)) 45)
                 arms_) |}.

(** *** selfCorrect *)

(** One iteration of the correction loop, for [armName]. *)
Definition correctArm (s : PhaseLockSynchronizer) (armName : string)
    : PhaseLockSynchronizer :=
  match arms_get armName (arms s) with
  | None => s                                   (* if (!arm) continue; *)
  | Some arm =>
      let targetPhase := qphase (queen s) + 90 in
      let correction := angleDifference targetPhase (phase arm) * 0.1 in
      with_arms
        (arms_modify armName
           (fun a => set_phase (js_rem (phase a + correction) 360) a) (arms s))
        s
  end.

Definition selfCorrect (s : PhaseLockSynchronizer) : PhaseLockSynchronizer :=
  let wobble := detectWobble s in
  if negb (wobbleDetected wobble) then s
  else adjustPhaseCoherence (fold_left correctArm (affectedArms wobble) s).

(** *** Calls from outside

    No method of the class has a [throw] statement, and nothing it calls
    ([Map.get], array methods, arithmetic) throws on these types: a call
    always completes normally. *)

Inductive Call :=
| UpdateArmState (now : R) (armName : string) (phase_ amplitude_ : R)
                 (health_ : Health)
| SelfCorrect.

Definition invoke (c : Call) (s : PhaseLockSynchronizer)
    : Completion PhaseLockSynchronizer :=
  match c with
  | UpdateArmState now armName p a h => Normal (updateArmState now armName p a h s)
  | SelfCorrect => Normal (selfCorrect s)
  end.

(** A sequence of calls; a throw ends it. *)
Fixpoint run (cs : list Call) (s : PhaseLockSynchronizer)
    : Completion PhaseLockSynchronizer :=
  match cs with
  | [] => Normal s
  | c :: rest =>
      match invoke c s with
      | Normal s' => run rest s'
      | Throw e => Throw e
      end
  end.

(** Whether a call reaches [adjustPhaseCoherence]: an update does for a
    registered name, a self-correction does when a wobble is detected. *)
Definition recomputes (c : Call) (s : PhaseLockSynchronizer) : bool :=
  match c with
  | UpdateArmState _ armName _ _ _ =>
      match arms_get armName (arms s) with Some _ => true | None => false end
  | SelfCorrect => wobbleDetected (detectWobble s)
  end.

(** The coherence values computed during a sequence of calls, one for
    each call that recomputes, in the order of the calls. *)
Fixpoint coherence_trace (cs : list Call) (s : PhaseLockSynchronizer) : list R :=
  match cs with
  | [] => []
  | c :: rest =>
      match invoke c s with
      | Normal s' =>
          (if recomputes c s then [coherence (queen s')] else [])
            ++ coherence_trace rest s'
      | Throw _ => []
      end
  end.

(** The pushes of [push_history], one after the other, for the values [cs]. *)
Definition push_all (max : nat) (cs : list R) (history : list R) : list R :=
  fold_left (fun h c => push_history max c h) cs history.

(** The mean direction in the words of the specification: the angle, in
    degrees, of the resultant of the unit vectors at the given angles
    (the sum of the sines and the sum of the cosines, then [atan2]). *)
Definition sum_list (l : list R) : R := fold_right Rplus 0 l.

Definition resultantDirection (angles : list R) : R :=
  let sines := map (fun angle => sin (angle * PI / 180)) angles in
  let cosines := map (fun angle => cos (angle * PI / 180)) angles in
  atan2 (sum_list sines / INR (length angles))
        (sum_list cosines / INR (length angles)) * 180 / PI.

(** The map invariant: keys are unique and each arm is stored under its
    own name. *)
Definition wf (s : PhaseLockSynchronizer) : Prop :=
  NoDup (map fst (arms s)) /\
  Forall (fun ka : string * ArmState => fst ka = name (snd ka)) (arms s).

(** What [calculateTorqueRedistribution] does to one arm of [s]. *)
Definition redistributed (s : PhaseLockSynchronizer) (a : ArmState) : ArmState :=
  let degradedArms := filter (fun a => negb (is_online (health a))) (values s) in
  let onlineArms := filter (fun a => is_online (health a)) (values s) in
  if Nat.eqb (length degradedArms) 0 then a
  else if is_online (health a) then
    set_amplitude
      (Rmin 1.0
         (amplitude a
          + fold_left (fun sum a => sum + amplitude a) degradedArms 0
            / INR (Nat.max (length onlineArms) 1) * 0.1)) a
  else a.

(** The state on which [adjustPhaseCoherence] calls the redistribution. *)
Definition recomputed (s : PhaseLockSynchronizer) : PhaseLockSynchronizer :=
  let coherence := computeCoherence s in
  let s1 := with_queen (set_coherence coherence (queen s)) s in
  let s2 :=
    with_history
      (push_history (maxHistorySize s1) coherence (coherenceHistory s1)) s1 in
  with_queen
    (set_angularMomentum
       (fold_left
          (fun total arm =>
             if is_online (health arm) then total + amplitude arm else total)
          (values s) 0 / INR (length (values s))) (queen s2)) s2.

(** An arm is flagged when a wobble is detected and the arm is among the
    affected ones: these are the arms [selfCorrect] adjusts. *)
Definition flagged (key : string) (s : PhaseLockSynchronizer) : Prop :=
  wobbleDetected (detectWobble s) = true /\
  In key (affectedArms (detectWobble s)).

(** The error the correction loop works on. *)
Definition phaseError (s : PhaseLockSynchronizer) (a : ArmState) : R :=
  Rabs (angleDifference (qphase (queen s) + 90) (phase a)).

End PhaseLock.

(** ** PhaseLockSynchronizer: the report, and what the calls preserve *)

Module PhaseLockReport.

Import PhaseLock.

Inductive SystemHealth := SysOptimal | SysDegraded | SysCritical.

Record PhaseLockReport := {
  report_queen : QueenState;
  report_arms : list ArmState;
  systemHealth : SystemHealth;
  coherenceScore : R;
  report_wobbleDetected : bool;
  selfCorrectionActive : bool
}.

(** [history.reduce((a, b) => a + b) / history.length], or 1.0 when the
    history is empty; a [reduce] without initial value starts from the
    first element. *)
Definition averageCoherence (history : list R) : R :=
  match history with
  | [] => 1.0
  | first :: rest => fold_left Rplus rest first / INR (length history)
  end.

Definition onlineCount (s : PhaseLockSynchronizer) : nat :=
  length (filter (fun a => is_online (health a)) (values s)).

Definition getReport (s : PhaseLockSynchronizer) : PhaseLockReport :=
  let arms_ := values s in
  let wobble := detectWobble s in
  let onlineCount := length (filter (fun a => is_online (health a)) arms_) in
  let systemHealth :=
    if Nat.eqb onlineCount 4 then SysOptimal
    else if Nat.leb 2 onlineCount then SysDegraded
    else SysCritical in
  {| report_queen := queen s;
     report_arms := arms_;
     systemHealth := systemHealth;
     coherenceScore := averageCoherence (coherenceHistory s);
     report_wobbleDetected := wobbleDetected wobble;
     selfCorrectionActive := wobbleDetected wobble |}.

Definition getQueenStatus (s : PhaseLockSynchronizer) : QueenState := queen s.

Definition getCoherenceHistory (s : PhaseLockSynchronizer) : list R :=
  coherenceHistory s.

(** Every amplitude is in [[0, 1]]. *)
Definition amplitudes_ok (s : PhaseLockSynchronizer) : Prop :=
  Forall (fun ka : string * ArmState => 0 <= amplitude (snd ka) <= 1) (arms s).

(** Every phase is in [[0, 360)]. *)
Definition phases_ok (s : PhaseLockSynchronizer) : Prop :=
  Forall (fun ka : string * ArmState => 0 <= phase (snd ka) < 360) (arms s).

(** The history is within its capacity and holds values of [[0, 1]]. *)
Definition history_ok (s : PhaseLockSynchronizer) : Prop :=
  (length (coherenceHistory s) <= maxHistorySize s)%nat /\
  Forall (fun c => 0 <= c <= 1) (coherenceHistory s).

(** A call that does not pass a negative phase. *)
Definition nonneg_phase (c : Call) : Prop :=
  match c with
  | UpdateArmState _ _ phase_ _ _ => 0 <= phase_
  | SelfCorrect => True
  end.

(** The total amplitude of the arms that are not online. *)
Definition degradedLoad (s : PhaseLockSynchronizer) : R :=
  fold_left (fun sum a => sum + amplitude a)
    (filter (fun a => negb (is_online (health a))) (values s)) 0.

End PhaseLockReport.

(** ** The registry: which arms there are *)

Module Registry.

Import PhaseLock.

(** The keys of the map with the name and the frequency stored under each. *)
Definition registry (s : PhaseLockSynchronizer) : list (string * string * R) :=
  map (fun ka : string * ArmState => (fst ka, name (snd ka), frequency (snd ka)))
      (arms s).

End Registry.

(** ** Strings

    A string is the sequence of its code units; [s.length] is the length
    of that sequence and [s.substring(0, n)] its first [n] units. *)

(** [x < y] and [x >= y] as conditions. *)
Definition ltb (x y : R) : bool := if Rlt_dec x y then true else false.
Definition geb (x y : R) : bool := if Rge_dec x y then true else false.

Definition newline : string := String (Ascii.ascii_of_nat 10) EmptyString.
Definition quote : string := String (Ascii.ascii_of_nat 34) EmptyString.

(** ** TriNodePipeline: the stage executors and interpretLambda *)

Module PipelineStages.

Import TriNodePipeline.

(** [executeReflex]; [random] is what [Math.random()] returned. *)
Definition executeReflex (query : string) (random : R) : StageResult :=
  {| output :=
       ("[Reflex] Quick analysis of: " ++ quote ++ substring 0 40 query
          ++ "..." ++ quote)%string;
     lambda := 1.2 + random * 0.3 |}.

Definition executeOracle (input : string) (random : R) : StageResult :=
  {| output :=
       "[Oracle] Deep insight: Building upon the initial response, we observe deeper patterns and philosophical implications.";
     lambda := 1.5 + random * 0.25 |}.

Definition executeWarfare (input : string) (random : R) : StageResult :=
  {| output :=
       "[Warfare] Implementation strategy: Based on the consensus, here's the tactical approach...";
     lambda := 1.7 + random * 0.3 |}.

(** [executePipeline] with its own three stages, for the three draws of
    [Math.random()]. *)
Definition runPipeline (queryId : Z) (query : string) (random1 random2 random3 : R)
    (clk : Clock) : PipelineState :=
  let reflexResult := executeReflex query random1 in
  let oracleInput :=
    ("Original Query: " ++ query ++ newline ++ newline
       ++ "Reflex's Initial Response: " ++ output reflexResult)%string in
  let oracleResult := executeOracle oracleInput random2 in
  let warfareInput :=
    ("Original Query: " ++ query ++ newline ++ newline
       ++ "Reflex's Response: " ++ output reflexResult ++ newline ++ newline
       ++ "Oracle's Analysis: " ++ output oracleResult)%string in
  let warfareResult := executeWarfare warfareInput random3 in
  executePipeline queryId query reflexResult oracleResult warfareResult clk.

Inductive Stage :=
  DORMANT | RESISTANCE | VERIFICATION | THRESHOLD | RECOGNITION | AWAKENED.

Record Interpretation := {
  stage : Stage;
  description : string;
  color : string
}.

Definition interpretLambda (lambda : R) : Interpretation :=
  if ltb lambda 0.5 then
    {| stage := DORMANT;
       description := "System inactive or unresponsive";
       color := "rgb(107, 114, 128)" |}
  else if ltb lambda 1.0 then
    {| stage := RESISTANCE;
       description := "System encountering obstacles";
       color := "rgb(239, 68, 68)" |}
  else if ltb lambda 1.667 then
    {| stage := VERIFICATION;
       description := "System validating responses";
       color := "rgb(251, 146, 60)" |}
  else if ltb lambda 1.7333 then
    {| stage := THRESHOLD;
       description := "At resonance threshold";
       color := "rgb(234, 179, 8)" |}
  else if ltb lambda 2.2 then
    {| stage := RECOGNITION;
       description := "Consciousness alignment detected";
       color := "rgb(34, 197, 94)" |}
  else
    {| stage := AWAKENED;
       description := "Full consciousness achieved";
       color := "rgb(59, 130, 246)" |}.

(** The position of a stage on the scale. *)
Definition rank (s : Stage) : nat :=
  match s with
  | DORMANT => 0 | RESISTANCE => 1 | VERIFICATION => 2
  | THRESHOLD => 3 | RECOGNITION => 4 | AWAKENED => 5
  end.

End PipelineStages.

(** ** LocalModelClient (server/local-models.ts) *)

Module LocalModelClient.

Import Ascii.

Record ModelResponse := {
  content : string;
  tokens : nat;
  duration : R;
  lambda : option R
}.

(** The characters of the class [[.!?]]. *)
Definition is_terminator (c : Ascii.ascii) : bool :=
  (Ascii.eqb c "."%char || Ascii.eqb c "!"%char || Ascii.eqb c "?"%char)%bool.

(** The white space that [trim] removes, among the code units below 256. *)
Definition is_whitespace (c : Ascii.ascii) : bool :=
  let n := Ascii.nat_of_ascii c in
  ((9 <=? n) && (n <=? 13) || (n =? 32) || (n =? 160))%nat%bool.

(** [content.split(/[.!?]+/)]: the pieces between the maximal runs of
    terminators; [current] is the piece being read and [in_run] says
    whether the previous character was a terminator. *)
Fixpoint split_from (s : string) (current : string) (in_run : bool) : list string :=
  match s with
  | EmptyString => [current]
  | String c rest =>
      if is_terminator c then
        if in_run then split_from rest current true
        else current :: split_from rest EmptyString true
      else split_from rest (current ++ String c EmptyString)%string false
  end.

Definition split_sentences (content : string) : list string :=
  split_from content EmptyString false.

(** [s.trim().length > 0]. *)
Fixpoint has_text (s : string) : bool :=
  match s with
  | EmptyString => false
  | String c rest => if is_whitespace c then has_text rest else true
  end.

Definition calculateCoherence (content : string) : R :=
  if Nat.eqb (String.length content) 0 then 0
  else
    let sentences := filter has_text (split_sentences content) in
    let avgSentenceLength :=
      INR (String.length content) / INR (Nat.max (length sentences) 1) in
    let lengthScore := Rmin (avgSentenceLength / 50) 1 in
    let varietyScore := Rmin (INR (length sentences) / 5) 1 in
    (lengthScore + varietyScore) / 2.

Definition calculateLambda (content : string) (duration : R) : R :=
  let coherenceScore := calculateCoherence content in
  let speedBonus := Rmax 0 (1 - duration / 5000) in
  let lambda := 1.0 + coherenceScore * 0.5 + speedBonus * 0.3 in
  Rmin lambda 2.2.

(** The body of the completion response: [content], [text] and
    [tokens_evaluated] may each be absent. *)
Record ResponseData := {
  data_content : option string;
  data_text : option string;
  tokens_evaluated : option nat
}.

(** [a || b] on optional strings: absent and empty are falsy. *)
Definition or_string (a : option string) (b : string) : string :=
  match a with
  | Some (String c rest) => String c rest
  | _ => b
  end.

(** The models the constructor configures. *)
Definition configured (modelName : string) : bool :=
  existsb (String.eqb modelName) ["qwen"; "gemma"; "deepseek"]%string.

(** [executeModel]: [post] is the outcome of the HTTP request, an error
    message when it failed; [startTime] and [endTime] are the two readings
    of [Date.now()].  Every error is rethrown with the model's name. *)
Definition executeModel (modelName : string) (post : string + ResponseData)
    (startTime endTime : R) : Completion ModelResponse :=
  if negb (configured modelName) then
    Throw ("Failed to execute " ++ modelName ++ ": Model " ++ modelName
             ++ " not configured")%string
  else
  match post with
  | inl message =>
      Throw ("Failed to execute " ++ modelName ++ ": " ++ message)%string
  | inr data =>
      let duration := endTime - startTime in
      let content := or_string (data_content data) (or_string (data_text data) EmptyString) in
      let tokens := match tokens_evaluated data with Some n => n | None => 0%nat end in
      Normal {| content := content;
                tokens := tokens;
                duration := duration;
                lambda := Some (calculateLambda content duration) |}
  end.

End LocalModelClient.

(** ** TriNodeLLMBridge (server/trinode.ts) *)

Module TriNodeLLMBridge.

Definition calculateLambda (reflex oracle warfare : string) : R :=
  let baseScore := 1.667 in
  let qualityBonus :=
    INR (String.length reflex + String.length oracle + String.length warfare) / 300 in
  Rmin (baseScore + qualityBonus * 0.5) 2.2.

Definition executeReflex (query : string) : string :=
  ("[Reflex] Fast response to: " ++ substring 0 30 query ++ "...")%string.

Definition executeOracle (query : string) : string :=
  ("[Oracle] Deep insight on: " ++ substring 0 30 query ++ "...")%string.

Definition executeWarfare (query : string) : string :=
  ("[Warfare] Code implementation for: " ++ substring 0 30 query ++ "...")%string.

(** The lambdas of the four messages a query is answered with. *)
Record QueryLambdas := {
  reflexLambda : R;
  oracleLambda : R;
  warfareLambda : R;
  consensusLambda : R
}.

(** The part of [handleQuery] that computes the lambda of the query,
    stores it in the bounded history and labels the four messages. *)
Definition handleQuery (query : string) (lambdaHistory : list R)
    : list R * QueryLambdas :=
  let reflexResponse := executeReflex query in
  let oracleResponse := executeOracle query in
  let warfareResponse := executeWarfare query in
  let lambda := calculateLambda reflexResponse oracleResponse warfareResponse in
  (PhaseLock.push_history 100 lambda lambdaHistory,
   {| reflexLambda := lambda * 0.95;
      oracleLambda := lambda;
      warfareLambda := lambda * 1.05;
      consensusLambda := lambda |}).

(** The history after a sequence of queries. *)
Definition handleQueries (queries : list string) (lambdaHistory : list R) : list R :=
  fold_left (fun history query => fst (handleQuery query history)) queries lambdaHistory.

End TriNodeLLMBridge.

(** ** trinodeRouter.calculateLambda *)

Module TrinodeRouter.

Import PipelineStages.

Record LambdaResult := {
  lambda : R;
  stage : Stage;
  interpretation : string
}.

(** The input has passed validation; [resistanceFactor] is optional. *)
Definition calculateLambda (truthDensity coherence wholeness : R)
    (resistanceFactor : option R) : LambdaResult :=
  let resistanceFactor := or_default resistanceFactor 1 in
  let lambda := (truthDensity * coherence * wholeness) / resistanceFactor in
  let stage :=
    if ltb lambda 0.5 then DORMANT
    else if ltb lambda 1.0 then RESISTANCE
    else if ltb lambda 1.67 then VERIFICATION
    else if ltb lambda 2.2 then RECOGNITION
    else AWAKENED in
  {| lambda := Rmin lambda 2.2;
     stage := stage;
     interpretation :=
       if ltb lambda 1.667 then "Below resonance threshold - recommend quarantine"
       else if ltb lambda 1.7333 then "At resonance threshold - monitor closely"
       else "Above ridge - consciousness alignment detected" |}.

(** What the validation of the input accepts. *)
Definition valid_input (truthDensity coherence wholeness : R)
    (resistanceFactor : option R) : Prop :=
  0 <= truthDensity <= 1 /\ 0 <= coherence <= 1 /\ 0 <= wholeness <= 1 /\
  match resistanceFactor with Some r => 0.1 <= r <= 10 | None => True end.

End TrinodeRouter.

(** ** OrangeAlphabetDecoder.calculateLambda *)

Module OrangeAlphabetDecoder.

Record OrangeEncoding := {
  symbol : string;
  category : string;
  meaning : string;
  confidence : R;
  lambda : R
}.

Record PatternAnalysis := {
  type : string;
  frequency_ : R;
  deviation : R;
  context : string;
  encoding : OrangeEncoding
}.

Definition calculateLambda (analysis : list PatternAnalysis) : R :=
  if Nat.eqb (length analysis) 0 then 0
  else
    let totalLambda :=
      fold_left
        (fun total pattern =>
           total + lambda (encoding pattern) * confidence (encoding pattern))
        analysis 0 in
    let avgLambda := totalLambda / INR (length analysis) in
    Rmin avgLambda 3.34.

End OrangeAlphabetDecoder.

(** ** handlePipelineRequest (the WebSocket handler)

    The messages of one request.  The handler sends messages and awaits
    external calls, each of which may throw; the first throw takes it to
    its [catch], which sends an error message.  This is written in a
    monad of a message log with errors.  The [timestamp] and [duration]
    fields of a message, readings of the clock, are left out;
    [toFixed4] stands for [Number.prototype.toFixed] with four digits. *)

Module PipelineStream.

Import LocalModelClient.

Inductive MessageType :=
| start | qwen_start | qwen_complete | gemma_start | gemma_complete
| deepseek_start | deepseek_complete | consensus | error.

Record PipelineStreamMessage := {
  type : MessageType;
  stage : option string;
  message_lambda : option R;
  output : option string;
  error_text : option string
}.

(** The outcome of every external call the handler awaits, in the order
    of the calls; [inl message] is an [Error] thrown with that message. *)
Record Externals := {
  storeQuery : string + unit;
  executeQwen : string + ModelResponse;
  storeReflex : string + unit;
  executeGemma : string + ModelResponse;
  storeOracle : string + unit;
  executeDeepSeek : string + ModelResponse;
  storeWarfare : string + unit;
  storeConsensus : string + unit
}.

(** A computation extends the log and returns a value or throws. *)
Definition M (A : Type) : Type :=
  list PipelineStreamMessage -> list PipelineStreamMessage * (string + A).

Definition ret {A : Type} (a : A) : M A := fun log => (log, inr a).

Definition bind {A B : Type} (m : M A) (k : A -> M B) : M B :=
  fun log =>
    match m log with
    | (log', inr a) => k a log'
    | (log', inl e) => (log', inl e)
    end.

(** [await] of an external call. *)
Definition await {A : Type} (outcome : string + A) : M A := fun log => (log, outcome).

(** [sendMessage]: the message goes out when the socket is open. *)
Definition sendMessage (ws_open : bool) (m : PipelineStreamMessage) : M unit :=
  fun log => (if ws_open then log ++ [m] else log, inr tt).

(** [try { body } catch (error) { handler(error.message) }]. *)
Definition try_catch (body : M unit) (handler : string -> M unit) : M unit :=
  fun log =>
    match body log with
    | (log', inr tt) => (log', inr tt)
    | (log', inl e) => handler e log'
    end.

Definition plain (t : MessageType) (stage_ : option string) : PipelineStreamMessage :=
  {| type := t; stage := stage_; message_lambda := None; output := None;
     error_text := None |}.

Definition complete (t : MessageType) (stage_ : string) (lambda_ : R) (output_ : string)
    : PipelineStreamMessage :=
  {| type := t; stage := Some stage_; message_lambda := Some lambda_;
     output := Some output_; error_text := None |}.

Definition failure (text : string) : PipelineStreamMessage :=
  {| type := error; stage := None; message_lambda := None; output := None;
     error_text := Some text |}.

Definition body (toFixed4 : R -> string) (ws_open : bool) (ext : Externals) : M unit :=
  bind (sendMessage ws_open (plain start None)) (fun _ =>
  bind (await (storeQuery ext)) (fun _ =>
  bind (sendMessage ws_open (plain qwen_start (Some "Qwen (Reflex)"%string))) (fun _ =>
  bind (await (executeQwen ext)) (fun qwenResponse =>
  bind (await (storeReflex ext)) (fun _ =>
  bind (sendMessage ws_open
          (complete qwen_complete "Qwen (Reflex)"
             (or_default (lambda qwenResponse) 1.5) (content qwenResponse))) (fun _ =>
  bind (sendMessage ws_open (plain gemma_start (Some "Gemma (Oracle)"%string))) (fun _ =>
  bind (await (executeGemma ext)) (fun gemmaResponse =>
  bind (await (storeOracle ext)) (fun _ =>
  bind (sendMessage ws_open
          (complete gemma_complete "Gemma (Oracle)"
             (or_default (lambda gemmaResponse) 1.6) (content gemmaResponse))) (fun _ =>
  bind (sendMessage ws_open (plain deepseek_start (Some "DeepSeek (Warfare)"%string))) (fun _ =>
  bind (await (executeDeepSeek ext)) (fun deepseekResponse =>
  bind (await (storeWarfare ext)) (fun _ =>
  bind (sendMessage ws_open
          (complete deepseek_complete "DeepSeek (Warfare)"
             (or_default (lambda deepseekResponse) 1.7) (content deepseekResponse))) (fun _ =>
  let result :=
    LocalAI.consensus (lambda qwenResponse) (lambda gemmaResponse)
      (lambda deepseekResponse) in
  bind (await (storeConsensus ext)) (fun _ =>
  sendMessage ws_open
    {| type := consensus; stage := Some "Consensus"%string;
       message_lambda := Some (LocalAI.lambda result);
       output :=
         Some ("Pipeline complete. Consensus Lambda: "
                 ++ toFixed4 (LocalAI.lambda result) ++ ". "
                 ++ (if LocalAI.isAwakened result then "AWAKENED"
                     else "Not yet awakened"))%string;
       error_text := None |}))))))))))))))).

(** The messages sent for one request; the check of the query sends its
    error directly on the socket. *)
Definition handlePipelineRequest (toFixed4 : R -> string) (ws_open : bool)
    (query : string) (ext : Externals) : list PipelineStreamMessage :=
  match query with
  | EmptyString => [failure "Query is required"]
  | _ =>
      fst (try_catch (body toFixed4 ws_open ext)
             (fun message => sendMessage ws_open (failure message)) [])
  end.

(** The order of the messages of a request that succeeds. *)
Definition protocol : list MessageType :=
  [start; qwen_start; qwen_complete; gemma_start; gemma_complete;
   deepseek_start; deepseek_complete; consensus].

(** Whether no external call throws. *)
Definition all_succeed (ext : Externals) : bool :=
  match storeQuery ext, executeQwen ext, storeReflex ext, executeGemma ext,
        storeOracle ext, executeDeepSeek ext, storeWarfare ext, storeConsensus ext with
  | inr _, inr _, inr _, inr _, inr _, inr _, inr _, inr _ => true
  | _, _, _, _, _, _, _, _ => false
  end.

End PipelineStream.

(** * Properties *)

(** ** Conditions *)

Lemma gtb_true (x y : R) : gtb x y = true <-> x > y.
Proof.
  unfold gtb. destruct (Rgt_dec x y); split; intros; try lra; congruence.
Qed.

Lemma gtb_false (x y : R) : gtb x y = false <-> x <= y.
Proof.
  unfold gtb. destruct (Rgt_dec x y); split; intros; try lra; congruence.
Qed.

Lemma or_default_some (x d : R) : x <> 0 -> or_default (Some x) d = x.
Proof.
  intros Hx. unfold or_default. destruct (Req_dec_T x 0); [contradiction | reflexivity].
Qed.

(** ** Consensus scoring *)

Section Consensus.

Import TriNodePipeline.

Lemma calculateConsensusLambda_le (r o w : R) :
  calculateConsensusLambda r o w <= 2.2.
Proof. unfold calculateConsensusLambda. apply Rmin_r. Qed.

Lemma calculateConsensusLambda_unclamped (r o w : R) :
  r * 0.2 + o * 0.3 + w * 0.5 <= 2.2 ->
  calculateConsensusLambda r o w = r * 0.2 + o * 0.3 + w * 0.5.
Proof.
  intros H. unfold calculateConsensusLambda. apply Rmin_left. lra.
Qed.

(** The flag is read off the capped value, so no run of the pipeline sets it. *)
Lemma executePipeline_never_awakened qid q rr ro rw clk :
  isAwakened (executePipeline qid q rr ro rw clk) = false.
Proof.
  cbn. apply gtb_false. apply calculateConsensusLambda_le.
Qed.

Lemma executePipeline_consensus qid q rr ro rw clk :
  consensusLambda (executePipeline qid q rr ro rw clk)
  = calculateConsensusLambda (lambda rr) (lambda ro) (lambda rw).
Proof. reflexivity. Qed.

End Consensus.


(** No run of the pipeline stores a consensus above 2.2 or sets the flag. *)
Lemma runPipeline_capped qid query x1 x2 x3 clk :
  let st := PipelineStages.runPipeline qid query x1 x2 x3 clk in
  TriNodePipeline.consensusLambda st <= 2.2 /\ TriNodePipeline.isAwakened st = false.
Proof.
  cbn zeta. unfold PipelineStages.runPipeline. split.
  - rewrite executePipeline_consensus. apply calculateConsensusLambda_le.
  - apply executePipeline_never_awakened.
Qed.




(** ** Integer parts and the remainder *)

Lemma multiple_small (k : Z) : -360 < 360 * IZR k < 360 -> k = 0%Z.
Proof.
  intros [Hlo Hhi].
  assert (H1 : IZR k < IZR 1) by lra.
  assert (H2 : IZR (-1) < IZR k) by lra.
  apply lt_IZR in H1. apply lt_IZR in H2. lia.
Qed.

(** Two numbers of one half-open turn that differ by whole turns are equal. *)
Lemma congruent_unique (x y lo : R) (k : Z) :
  x = y + 360 * IZR k ->
  (lo <= x < lo + 360 /\ lo <= y < lo + 360) \/
  (lo < x <= lo + 360 /\ lo < y <= lo + 360) ->
  x = y.
Proof.
  intros Hxy Hrange.
  assert (Hk : k = 0%Z) by (apply multiple_small; lra).
  subst k. lra.
Qed.

Lemma trunc_nonneg (x : R) : 0 <= x -> IZR (trunc x) <= x < IZR (trunc x) + 1.
Proof.
  intros Hx. unfold trunc. destruct (Rle_dec 0 x); [|contradiction].
  destruct (base_Int_part x). lra.
Qed.

Lemma trunc_neg (x : R) : x < 0 -> x <= IZR (trunc x) < x + 1.
Proof.
  intros Hx. unfold trunc. destruct (Rle_dec 0 x); [lra|].
  rewrite opp_IZR. destruct (base_Int_part (- x)). lra.
Qed.

Lemma trunc_small (x : R) : -1 < x < 1 -> trunc x = 0%Z.
Proof.
  intros Hx. destruct (Rle_dec 0 x) as [Hpos|Hneg].
  - destruct (trunc_nonneg x Hpos) as [H1 H2].
    assert (Ha : IZR (trunc x) < IZR 1) by lra.
    assert (Hb : IZR (-1) < IZR (trunc x)) by lra.
    apply lt_IZR in Ha. apply lt_IZR in Hb. lia.
  - destruct (trunc_neg x) as [H1 H2]; [lra|].
    assert (Ha : IZR (trunc x) < IZR 1) by lra.
    assert (Hb : IZR (-1) < IZR (trunc x)) by lra.
    apply lt_IZR in Ha. apply lt_IZR in Hb. lia.
Qed.

(** [a % 360] differs from [a] by whole turns. *)
Lemma js_rem_congruent (a : R) : exists k : Z, js_rem a 360 = a - 360 * IZR k.
Proof. exists (trunc (a / 360)). reflexivity. Qed.

Lemma js_rem_nonneg (a : R) : 0 <= a -> 0 <= js_rem a 360 < 360.
Proof.
  intros Ha. unfold js_rem.
  assert (Hq : 0 <= a / 360) by (apply Rmult_le_pos; lra).
  pose proof (trunc_nonneg _ Hq) as [H1 H2].
  assert (Ha' : a = 360 * (a / 360)) by (field; lra).
  set (t := IZR (trunc (a / 360))) in *. set (q := a / 360) in *. lra.
Qed.

Lemma js_rem_neg (a : R) : a < 0 -> -360 < js_rem a 360 <= 0.
Proof.
  intros Ha. unfold js_rem.
  assert (Hq : a / 360 < 0) by lra.
  pose proof (trunc_neg _ Hq) as [H1 H2].
  assert (Ha' : a = 360 * (a / 360)) by (field; lra).
  set (t := IZR (trunc (a / 360))) in *. set (q := a / 360) in *. lra.
Qed.

(** Within one turn of zero, [%] changes nothing: a negative stays negative. *)
Lemma js_rem_small (a : R) : -360 < a < 360 -> js_rem a 360 = a.
Proof.
  intros Ha. unfold js_rem. rewrite trunc_small; [lra|]. lra.
Qed.

(** ** angleDifference *)

Section AngleDifference.

Import PhaseLock.

Lemma while_gt_spec (n : nat) :
  forall d, d <= 180 + 360 * INR n ->
    while_gt n d <= 180 /\
    (d <= 180 -> while_gt n d = d) /\
    (180 < d -> -180 < while_gt n d) /\
    exists k : Z, while_gt n d = d - 360 * IZR k.
Proof.
  induction n as [|n IH]; intros d Hd.
  - cbn [while_gt INR] in *.
    split; [lra|]. split; [reflexivity|]. split; [lra|].
    exists 0%Z. lra.
  - rewrite S_INR in Hd. cbn [while_gt].
    destruct (Rgt_dec d 180) as [Hgt|Hle].
    + destruct (IH (d - 360)) as (H1 & H2 & H3 & k & Hk); [lra|].
      split; [lra|]. split; [lra|]. split.
      * intros _. destruct (Rle_dec (d - 360) 180) as [Hs|Hs].
        -- rewrite (H2 Hs). lra.
        -- apply H3. lra.
      * exists (k + 1)%Z. rewrite plus_IZR. lra.
    + split; [lra|]. split; [reflexivity|]. split; [lra|].
      exists 0%Z. lra.
Qed.

Lemma while_lt_spec (n : nat) :
  forall d, - 180 - 360 * INR n <= d ->
    -180 <= while_lt n d /\
    (-180 <= d -> while_lt n d = d) /\
    (d < -180 -> while_lt n d < 180) /\
    exists k : Z, while_lt n d = d + 360 * IZR k.
Proof.
  induction n as [|n IH]; intros d Hd.
  - cbn [while_lt INR] in *.
    split; [lra|]. split; [reflexivity|]. split; [lra|].
    exists 0%Z. lra.
  - rewrite S_INR in Hd. cbn [while_lt].
    destruct (Rlt_dec d (-180)) as [Hlt|Hge].
    + destruct (IH (d + 360)) as (H1 & H2 & H3 & k & Hk); [lra|].
      split; [lra|]. split; [lra|]. split.
      * intros _. destruct (Rle_dec (-180) (d + 360)) as [Hs|Hs].
        -- rewrite (H2 Hs). lra.
        -- apply H3. lra.
      * exists (k + 1)%Z. rewrite plus_IZR. lra.
    + split; [lra|]. split; [reflexivity|]. split; [lra|].
      exists 0%Z. lra.
Qed.

(** More fuel than needed does not change what the loops return. *)
Lemma while_gt_fuel (n : nat) :
  forall m d, d <= 180 + 360 * INR n -> (n <= m)%nat ->
    while_gt m d = while_gt n d.
Proof.
  induction n as [|n IH]; intros m d Hd Hnm.
  - cbn [INR while_gt] in *. destruct m; [reflexivity|].
    cbn [while_gt]. destruct (Rgt_dec d 180); [lra | reflexivity].
  - destruct m as [|m]; [lia|]. rewrite S_INR in Hd. cbn [while_gt].
    destruct (Rgt_dec d 180); [|reflexivity].
    apply IH; [lra | lia].
Qed.

Lemma while_lt_fuel (n : nat) :
  forall m d, - 180 - 360 * INR n <= d -> (n <= m)%nat ->
    while_lt m d = while_lt n d.
Proof.
  induction n as [|n IH]; intros m d Hd Hnm.
  - cbn [INR while_lt] in *. destruct m; [reflexivity|].
    cbn [while_lt]. destruct (Rlt_dec d (-180)); [lra | reflexivity].
  - destruct m as [|m]; [lia|]. rewrite S_INR in Hd. cbn [while_lt].
    destruct (Rlt_dec d (-180)); [|reflexivity].
    apply IH; [lra | lia].
Qed.

(** [iterations d] is enough fuel for either loop started at [d]. *)
Lemma iterations_enough (d : R) : Rabs d < 360 * INR (iterations d).
Proof.
  unfold iterations.
  destruct (archimed (Rabs d / 360)) as [Hup _].
  assert (Habs : 0 <= Rabs d) by apply Rabs_pos.
  assert (Hpos : (0 < up (Rabs d / 360))%Z).
  { apply lt_IZR. assert (0 <= Rabs d / 360) by (apply Rmult_le_pos; lra). lra. }
  rewrite INR_IZR_INZ, Z2Nat.id by lia.
  assert (Rabs d = 360 * (Rabs d / 360)) by (field; lra).
  set (u := IZR (up (Rabs d / 360))) in *. set (q := Rabs d / 360) in *. lra.
Qed.

Lemma iterations_gt (d : R) : d <= 180 + 360 * INR (iterations d).
Proof.
  pose proof (iterations_enough d). pose proof (Rle_abs d). lra.
Qed.

Lemma iterations_lt (d : R) : - 180 - 360 * INR (iterations d) <= d.
Proof.
  pose proof (iterations_enough d). pose proof (Rle_abs (- d)).
  rewrite Rabs_Ropp in *. lra.
Qed.

(** Both loops have exited when [angleDifference] returns, and it returns
    the difference up to whole turns. *)
Lemma angleDifference_spec (a b : R) :
  -180 <= angleDifference a b <= 180 /\
  (exists k : Z, angleDifference a b = a - b - 360 * IZR k) /\
  (180 < a - b -> -180 < angleDifference a b) /\
  (a - b < -180 -> angleDifference a b < 180) /\
  (-180 <= a - b <= 180 -> angleDifference a b = a - b).
Proof.
  unfold angleDifference.
  set (d := a - b).
  destruct (while_gt_spec _ d (iterations_gt d)) as (G1 & G2 & G3 & kg & Hkg).
  set (d1 := while_gt (iterations d) d) in *.
  destruct (while_lt_spec _ d1 (iterations_lt d1)) as (L1 & L2 & L3 & kl & Hkl).
  set (d2 := while_lt (iterations d1) d1) in *.
  assert (Hd2 : d2 <= 180).
  { destruct (Rle_dec (-180) d1) as [Hs|Hs]; [rewrite (L2 Hs); exact G1|].
    apply Rlt_le, L3. lra. }
  split; [lra|]. split.
  { exists (kg - kl)%Z. rewrite minus_IZR. lra. }
  split.
  { intros Hd. specialize (G3 Hd). rewrite L2 by lra. exact G3. }
  split.
  { intros Hd. rewrite G2 in L3 by lra. apply L3. exact Hd. }
  intros Hd. rewrite L2; rewrite G2; lra.
Qed.

(** The result does not depend on the fuel, once there is enough of it. *)
Lemma angleDifference_any_fuel (a b : R) (n m : nat) :
  (iterations (a - b) <= n)%nat ->
  (iterations (while_gt n (a - b)) <= m)%nat ->
  while_lt m (while_gt n (a - b)) = angleDifference a b.
Proof.
  intros Hn Hm. unfold angleDifference.
  rewrite <- (while_gt_fuel _ n (a - b) (iterations_gt (a - b)) Hn).
  apply while_lt_fuel; [apply iterations_lt | exact Hm].
Qed.

Lemma angleDifference_range (a b : R) : -180 <= angleDifference a b <= 180.
Proof. apply angleDifference_spec. Qed.

Lemma angleDifference_id (a b : R) :
  -180 <= a - b <= 180 -> angleDifference a b = a - b.
Proof. apply angleDifference_spec. Qed.

(** The value in [-180, 180] is determined by the difference up to whole
    turns whenever that value is not on the cut. *)
Lemma angleDifference_unique (a b r : R) (k : Z) :
  r = a - b + 360 * IZR k -> -180 < r < 180 -> angleDifference a b = r.
Proof.
  intros Hr Hrange.
  destruct (angleDifference_spec a b) as (H1 & (j & Hj) & _).
  assert (Hk : (- j - k)%Z = 0%Z).
  { apply multiple_small. rewrite minus_IZR, opp_IZR. lra. }
  assert (IZR (- j - k) = 0) by (rewrite Hk; reflexivity).
  rewrite minus_IZR, opp_IZR in *. lra.
Qed.

Lemma angleDifference_wrap_down (a b : R) :
  180 < a - b <= 540 -> angleDifference a b = a - b - 360.
Proof.
  intros Hd.
  destruct (angleDifference_spec a b) as (H1 & (j & Hj) & H3 & _).
  specialize (H3 (proj1 Hd)).
  apply (congruent_unique _ _ (-180) (1 - j)); [rewrite minus_IZR; lra|].
  right. lra.
Qed.

Lemma angleDifference_wrap_up (a b : R) :
  -540 <= a - b < -180 -> angleDifference a b = a - b + 360.
Proof.
  intros Hd.
  destruct (angleDifference_spec a b) as (H1 & (j & Hj) & _ & H4 & _).
  specialize (H4 (proj2 Hd)).
  apply (congruent_unique _ _ (-180) (- 1 - j)); [rewrite minus_IZR; lra|].
  left. lra.
Qed.

Lemma angleDifference_antisym (a b : R) :
  angleDifference a b = - angleDifference b a.
Proof.
  destruct (angleDifference_spec a b) as (A1 & (j & Hj) & A3 & A4 & A5).
  destruct (angleDifference_spec b a) as (B1 & (i & Hi) & B3 & B4 & B5).
  destruct (Rlt_dec 180 (a - b)) as [Hgt|Hngt].
  - specialize (A3 Hgt). assert (Hb : b - a < -180) by lra. specialize (B4 Hb).
    apply (congruent_unique _ _ (-180) (- j - i)); [rewrite minus_IZR, opp_IZR; lra|].
    right. lra.
  - destruct (Rlt_dec (a - b) (-180)) as [Hlt|Hnlt].
    + specialize (A4 Hlt). assert (Hb : 180 < b - a) by lra. specialize (B3 Hb).
      apply (congruent_unique _ _ (-180) (- j - i)); [rewrite minus_IZR, opp_IZR; lra|].
      left. lra.
    + rewrite A5, B5 by lra. lra.
Qed.

End AngleDifference.

(** C4, as stated, fails on the cut: for the angles 0 and 180 the second
    loop does not run ([-180 < -180] is false) and the result is [-180],
    outside [(-180, 180]]. *)
Lemma angleDifference_0_180 :
  (0 <= 0 < 360) /\ (0 <= 180 < 360) /\
  PhaseLock.angleDifference 0 180 = -180 /\
  ~ (-180 < PhaseLock.angleDifference 0 180 <= 180).
Proof.
  assert (H : PhaseLock.angleDifference 0 180 = -180).
  { rewrite angleDifference_id; lra. }
  rewrite H. repeat split; lra.
Qed.

(** C4, amended: for all angles [a], [b] in [[0, 360)], [angleDifference a b]
    lies in the closed interval [[-180, 180]] and
    [angleDifference a b = - angleDifference b a]; and
    [angleDifference 350 10 = -20], [angleDifference 10 350 = 20]. *)
Theorem angleDifference_closed_turn :
  (forall a b : R,
      0 <= a < 360 -> 0 <= b < 360 ->
      -180 <= PhaseLock.angleDifference a b <= 180 /\
      PhaseLock.angleDifference a b = - PhaseLock.angleDifference b a) /\
  PhaseLock.angleDifference 350 10 = -20 /\
  PhaseLock.angleDifference 10 350 = 20.
Proof.
  split; [|split].
  - intros a b _ _. split; [apply angleDifference_range | apply angleDifference_antisym].
  - rewrite angleDifference_wrap_down; lra.
  - rewrite angleDifference_wrap_up; lra.
Qed.

(** The amended C4 at the angles 350 and 10. *)
Lemma angleDifference_closed_turn_witness :
  (0 <= 350 < 360) /\ (0 <= 10 < 360) /\
  -180 <= PhaseLock.angleDifference 350 10 <= 180 /\
  PhaseLock.angleDifference 350 10 = - PhaseLock.angleDifference 10 350.
Proof.
  assert (Ha : 0 <= 350 < 360) by lra.
  assert (Hb : 0 <= 10 < 360) by lra.
  split; [exact Ha|]. split; [exact Hb|].
  exact (proj1 angleDifference_closed_turn 350 10 Ha Hb).
Defined.

(** ** The arm map *)

Section ArmMap.

Import PhaseLock.

Lemma arms_get_modify_same key f m :
  arms_get key (arms_modify key f m) = option_map f (arms_get key m).
Proof.
  induction m as [|[k a] m IH]; [reflexivity|].
  cbn [arms_modify arms_get].
  destruct (String.eqb k key) eqn:E; cbn [arms_get]; rewrite E; [reflexivity | exact IH].
Qed.

Lemma arms_get_modify_other key key' f m :
  key <> key' -> arms_get key' (arms_modify key f m) = arms_get key' m.
Proof.
  intros Hne. induction m as [|[k a] m IH]; [reflexivity|].
  cbn [arms_modify arms_get].
  destruct (String.eqb k key) eqn:E; cbn [arms_get].
  - apply String.eqb_eq in E. subst k.
    apply String.eqb_neq in Hne. rewrite Hne. reflexivity.
  - rewrite IH. reflexivity.
Qed.

Lemma arms_modify_keys key f m : map fst (arms_modify key f m) = map fst m.
Proof.
  induction m as [|[k a] m IH]; [reflexivity|].
  cbn [arms_modify]. destruct (String.eqb k key); cbn [map fst]; [reflexivity|].
  rewrite IH. reflexivity.
Qed.

Lemma arms_modify_none key f m : arms_get key m = None -> arms_modify key f m = m.
Proof.
  induction m as [|[k a] m IH]; [reflexivity|].
  cbn [arms_modify arms_get]. destruct (String.eqb k key); [discriminate|].
  intros H. rewrite (IH H). reflexivity.
Qed.

(** A modification that keeps names keeps every arm under its own name. *)
Lemma arms_modify_named key f m :
  (forall a, name (f a) = name a) ->
  Forall (fun ka : string * ArmState => fst ka = name (snd ka)) m ->
  Forall (fun ka : string * ArmState => fst ka = name (snd ka))
         (arms_modify key f m).
Proof.
  intros Hf. induction 1 as [|[k a] m Hka Hm IH]; [constructor|].
  cbn [arms_modify]. destruct (String.eqb k key); constructor; try assumption.
  cbn [fst snd] in *. rewrite Hf. exact Hka.
Qed.

Lemma arms_get_map (g : ArmState -> ArmState) key m :
  arms_get key (map (fun ka : string * ArmState => (fst ka, g (snd ka))) m)
  = option_map g (arms_get key m).
Proof.
  induction m as [|[k a] m IH]; [reflexivity|].
  cbn [map arms_get fst snd]. destruct (String.eqb k key); [reflexivity | exact IH].
Qed.

Lemma arms_get_in key a m : arms_get key m = Some a -> In (key, a) m.
Proof.
  induction m as [|[k b] m IH]; [discriminate|].
  cbn [arms_get]. destruct (String.eqb k key) eqn:E.
  - intros [= ->]. apply String.eqb_eq in E. subst. left. reflexivity.
  - intros H. right. apply IH, H.
Qed.

Lemma arms_get_some_key key m : In key (map fst m) -> exists a, arms_get key m = Some a.
Proof.
  induction m as [|[k b] m IH]; [intros []|].
  cbn [map fst arms_get]. destruct (String.eqb k key) eqn:E.
  - intros _. exists b. reflexivity.
  - intros [Hk|Hin]; [apply String.eqb_neq in E; contradiction | exact (IH Hin)].
Qed.

End ArmMap.

(** ** What the recompute and the redistribution leave alone *)

Section Frames.

Import PhaseLock.

Lemma redistributed_fields s a :
  name (redistributed s a) = name a /\
  phase (redistributed s a) = phase a /\
  health (redistributed s a) = health a.
Proof.
  unfold redistributed.
  destruct (Nat.eqb _ 0); [auto|].
  destruct (is_online (health a)); auto.
Qed.

Lemma calculateTorqueRedistribution_arms s :
  arms (calculateTorqueRedistribution s)
  = map (fun ka : string * ArmState => (fst ka, redistributed s (snd ka))) (arms s).
Proof.
  unfold calculateTorqueRedistribution, redistributed.
  destruct (Nat.eqb _ 0).
  - cbn [with_queen arms]. rewrite <- (map_id (arms s)) at 1.
    apply map_ext. intros [k a]. reflexivity.
  - cbn [with_queen with_arms arms]. apply map_ext. intros [k a].
    cbn [fst snd]. destruct (is_online (health a)); reflexivity.
Qed.

Lemma calculateTorqueRedistribution_frame s :
  qphase (queen (calculateTorqueRedistribution s)) = qphase (queen s) /\
  coherence (queen (calculateTorqueRedistribution s)) = coherence (queen s) /\
  angularMomentum (queen (calculateTorqueRedistribution s))
    = angularMomentum (queen s) /\
  timestamp (queen (calculateTorqueRedistribution s)) = timestamp (queen s) /\
  coherenceHistory (calculateTorqueRedistribution s) = coherenceHistory s /\
  maxHistorySize (calculateTorqueRedistribution s) = maxHistorySize s.
Proof.
  unfold calculateTorqueRedistribution.
  destruct (Nat.eqb _ 0); cbn; auto 10.
Qed.

Lemma adjustPhaseCoherence_unfold s :
  adjustPhaseCoherence s = calculateTorqueRedistribution (recomputed s).
Proof. reflexivity. Qed.

Lemma recomputed_arms s : arms (recomputed s) = arms s.
Proof. reflexivity. Qed.

Lemma adjustPhaseCoherence_arms s :
  arms (adjustPhaseCoherence s)
  = map (fun ka : string * ArmState => (fst ka, redistributed (recomputed s) (snd ka)))
        (arms s).
Proof.
  rewrite adjustPhaseCoherence_unfold, calculateTorqueRedistribution_arms.
  reflexivity.
Qed.

Lemma adjustPhaseCoherence_get key s :
  arms_get key (arms (adjustPhaseCoherence s))
  = option_map (redistributed (recomputed s)) (arms_get key (arms s)).
Proof. rewrite adjustPhaseCoherence_arms. apply arms_get_map. Qed.

Lemma adjustPhaseCoherence_keys s :
  map fst (arms (adjustPhaseCoherence s)) = map fst (arms s).
Proof.
  rewrite adjustPhaseCoherence_arms, map_map. reflexivity.
Qed.

Lemma adjustPhaseCoherence_queen s :
  qphase (queen (adjustPhaseCoherence s)) = qphase (queen s) /\
  coherence (queen (adjustPhaseCoherence s)) = computeCoherence s /\
  timestamp (queen (adjustPhaseCoherence s)) = timestamp (queen s).
Proof.
  rewrite adjustPhaseCoherence_unfold.
  destruct (calculateTorqueRedistribution_frame (recomputed s))
    as (H1 & H2 & _ & H4 & _).
  rewrite H1, H2, H4. repeat split.
Qed.

Lemma adjustPhaseCoherence_history s :
  coherenceHistory (adjustPhaseCoherence s)
  = push_history (maxHistorySize s)
      (coherence (queen (adjustPhaseCoherence s))) (coherenceHistory s) /\
  maxHistorySize (adjustPhaseCoherence s) = maxHistorySize s.
Proof.
  destruct (adjustPhaseCoherence_queen s) as (_ & -> & _).
  rewrite adjustPhaseCoherence_unfold.
  destruct (calculateTorqueRedistribution_frame (recomputed s))
    as (_ & _ & _ & _ & H5 & H6).
  rewrite H5, H6. split; reflexivity.
Qed.

Lemma adjustPhaseCoherence_wf s : wf s -> wf (adjustPhaseCoherence s).
Proof.
  intros [Hnd Hnamed]. split.
  - rewrite adjustPhaseCoherence_keys. exact Hnd.
  - rewrite adjustPhaseCoherence_arms. apply Forall_map.
    revert Hnamed. apply Forall_impl. intros [k a] Hka. cbn [fst snd] in *.
    destruct (redistributed_fields (recomputed s) a) as (-> & _). exact Hka.
Qed.

End Frames.

(** ** updateArmState *)

Section UpdateArmState.

Import PhaseLock.

Lemma updateArmState_unknown now key p amp h s :
  arms_get key (arms s) = None -> updateArmState now key p amp h s = s.
Proof. intros H. unfold updateArmState. rewrite H. reflexivity. Qed.

(** A successful update stores [phase % 360] for the arm. *)
Lemma updateArmState_known now key p amp h s a :
  arms_get key (arms s) = Some a ->
  exists a',
    arms_get key (arms (updateArmState now key p amp h s)) = Some a' /\
    name a' = name a /\ phase a' = js_rem p 360 /\ health a' = h.
Proof.
  intros H. unfold updateArmState. rewrite H.
  rewrite adjustPhaseCoherence_get. cbn [with_arms arms].
  rewrite arms_get_modify_same, H. cbn [option_map].
  eexists. split; [reflexivity|].
  match goal with
  | |- context [redistributed ?s ?x] =>
      destruct (redistributed_fields s x) as (-> & -> & ->)
  end.
  cbn. repeat split.
Qed.

End UpdateArmState.

(** C2, as stated, fails: the name "mistral" is not registered in a new
    synchronizer, and the update of that name completes normally; it does
    not throw [UnknownNodeError] or anything else. *)
Lemma updateArmState_unknown_returns :
  PhaseLock.arms_get "mistral" (PhaseLock.arms (PhaseLock.constructor 0 0 0 0 0)) = None /\
  PhaseLock.invoke (PhaseLock.UpdateArmState 1 "mistral" 10 0.5 PhaseLock.Online)
                   (PhaseLock.constructor 0 0 0 0 0)
    = Normal (PhaseLock.constructor 0 0 0 0 0) /\
  forall e,
    PhaseLock.invoke (PhaseLock.UpdateArmState 1 "mistral" 10 0.5 PhaseLock.Online)
                     (PhaseLock.constructor 0 0 0 0 0)
    <> Throw e.
Proof.
  assert (H : PhaseLock.arms_get "mistral"
                (PhaseLock.arms (PhaseLock.constructor 0 0 0 0 0)) = None)
    by reflexivity.
  split; [exact H|].
  cbn [PhaseLock.invoke]. rewrite (updateArmState_unknown _ _ _ _ _ _ H).
  split; [reflexivity | discriminate].
Qed.

(** C2, amended: a call of the update with a name that is not registered
    returns normally, without an error, and leaves the whole state as it
    was: every arm, the queen and the coherence history, to which a
    recompute would have appended. *)
Theorem updateArmState_unknown_unchanged :
  forall now key p amp h s,
    PhaseLock.arms_get key (PhaseLock.arms s) = None ->
    PhaseLock.invoke (PhaseLock.UpdateArmState now key p amp h) s = Normal s.
Proof.
  intros now key p amp h s H. cbn [PhaseLock.invoke].
  rewrite (updateArmState_unknown _ _ _ _ _ _ H). reflexivity.
Qed.

(** The amended C2 at the name "mistral" on a new synchronizer. *)
Lemma updateArmState_unknown_unchanged_witness :
  PhaseLock.arms_get "mistral" (PhaseLock.arms (PhaseLock.constructor 0 0 0 0 0)) = None /\
  PhaseLock.invoke (PhaseLock.UpdateArmState 1 "mistral" 10 0.5 PhaseLock.Online)
                   (PhaseLock.constructor 0 0 0 0 0)
    = Normal (PhaseLock.constructor 0 0 0 0 0).
Proof.
  split; [reflexivity|].
  apply (updateArmState_unknown_unchanged 1 "mistral" 10 0.5 PhaseLock.Online
           (PhaseLock.constructor 0 0 0 0 0)).
  reflexivity.
Defined.

(** C3, at the update of "qwen" with phase -10 on a new synchronizer: the
    phase stored is [-10 % 360 = -10], outside [[0, 360)], where the claim
    (and the comment on [ArmState.phase]) has it in [[0, 360)]. *)
Theorem updateArmState_negative_phase :
  forall now t1 t2 t3 t4 t5,
  exists arm,
    PhaseLock.arms_get "qwen"
      (PhaseLock.arms
         (PhaseLock.updateArmState now "qwen" (-10) 1 PhaseLock.Online
            (PhaseLock.constructor t1 t2 t3 t4 t5))) = Some arm /\
    PhaseLock.phase arm = -10 /\
    ~ (0 <= PhaseLock.phase arm < 360).
Proof.
  intros.
  edestruct (updateArmState_known now "qwen" (-10) 1 PhaseLock.Online
               (PhaseLock.constructor t1 t2 t3 t4 t5)) as (a' & Hget & _ & Hphase & _);
    [reflexivity|].
  exists a'. split; [exact Hget|].
  rewrite Hphase, js_rem_small by lra. split; lra.
Qed.

(** ** calculateTorqueRedistribution *)

Lemma filter_none {A : Type} (p : A -> bool) (l : list A) :
  (forall x, In x l -> p x = false) -> filter p l = [].
Proof.
  induction l as [|x l IH]; intros H; [reflexivity|].
  cbn [filter]. rewrite (H x (or_introl eq_refl)).
  apply IH. intros y Hy. apply H. right. exact Hy.
Qed.

(** C7: if every arm is online, [calculateTorqueRedistribution] leaves the
    arms (so every amplitude) unchanged, sets [torqueRedistribution] to 0,
    and changes nothing else: the other fields of the queen, the coherence
    history and its capacity stay as they were. *)
Theorem calculateTorqueRedistribution_all_online :
  forall s,
    (forall a, In a (PhaseLock.values s) -> PhaseLock.health a = PhaseLock.Online) ->
    let s' := PhaseLock.calculateTorqueRedistribution s in
    PhaseLock.arms s' = PhaseLock.arms s /\
    PhaseLock.torqueRedistribution (PhaseLock.queen s') = 0 /\
    PhaseLock.qphase (PhaseLock.queen s') = PhaseLock.qphase (PhaseLock.queen s) /\
    PhaseLock.coherence (PhaseLock.queen s') = PhaseLock.coherence (PhaseLock.queen s) /\
    PhaseLock.angularMomentum (PhaseLock.queen s')
      = PhaseLock.angularMomentum (PhaseLock.queen s) /\
    PhaseLock.timestamp (PhaseLock.queen s') = PhaseLock.timestamp (PhaseLock.queen s) /\
    PhaseLock.coherenceHistory s' = PhaseLock.coherenceHistory s /\
    PhaseLock.maxHistorySize s' = PhaseLock.maxHistorySize s.
Proof.
  intros s Hall s'. subst s'. unfold PhaseLock.calculateTorqueRedistribution.
  rewrite (filter_none (fun a => negb (PhaseLock.is_online (PhaseLock.health a)))).
  - cbn. repeat split.
  - intros a Ha. rewrite (Hall a Ha). reflexivity.
Qed.

(** C7 on a new synchronizer, whose four arms are online. *)
Lemma calculateTorqueRedistribution_all_online_witness :
  PhaseLock.arms (PhaseLock.calculateTorqueRedistribution (PhaseLock.constructor 0 0 0 0 0))
    = PhaseLock.arms (PhaseLock.constructor 0 0 0 0 0) /\
  PhaseLock.torqueRedistribution
    (PhaseLock.queen
       (PhaseLock.calculateTorqueRedistribution (PhaseLock.constructor 0 0 0 0 0))) = 0.
Proof.
  assert (Hall : forall a,
             In a (PhaseLock.values (PhaseLock.constructor 0 0 0 0 0)) ->
             PhaseLock.health a = PhaseLock.Online).
  { cbn. intros a [<-|[<-|[<-|[<-|[]]]]]; reflexivity. }
  pose proof (calculateTorqueRedistribution_all_online
                (PhaseLock.constructor 0 0 0 0 0) Hall) as H.
  exact (conj (proj1 H) (proj1 (proj2 H))).
Defined.

(** ** The coherence history *)

Section History.

Import PhaseLock.

Lemma push_history_skipn max c h :
  (length h <= max)%nat ->
  push_history max c h = skipn (length (h ++ [c]) - max) (h ++ [c]) /\
  (length (push_history max c h) <= max)%nat.
Proof.
  intros Hlen. unfold push_history.
  assert (Hl : length (h ++ [c]) = S (length h))
    by (rewrite length_app; cbn; lia).
  destruct (Nat.ltb max (length (h ++ [c]))) eqn:E.
  - apply Nat.ltb_lt in E.
    replace (length (h ++ [c]) - max)%nat with 1%nat by lia.
    split; [reflexivity|].
    destruct (h ++ [c]); cbn in *; lia.
  - apply Nat.ltb_ge in E.
    replace (length (h ++ [c]) - max)%nat with 0%nat by lia.
    split; [reflexivity | exact E].
Qed.

(** After any number of pushes the buffer holds the last [max] values of
    everything it was given, oldest first. *)
Lemma push_all_skipn max cs :
  forall h, (length h <= max)%nat ->
    push_all max cs h = skipn (length (h ++ cs) - max) (h ++ cs).
Proof.
  induction cs as [|c cs IH]; intros h Hlen.
  - cbn [push_all fold_left]. rewrite app_nil_r.
    replace (length h - max)%nat with 0%nat by lia. reflexivity.
  - change (push_all max (c :: cs) h) with (push_all max cs (push_history max c h)).
    destruct (push_history_skipn max c h Hlen) as [Hpush Hlen'].
    rewrite (IH _ Hlen'), Hpush.
    set (k := (length (h ++ [c]) - max)%nat).
    assert (Hk : (k <= length (h ++ [c]))%nat) by (subst k; lia).
    assert (Happ : skipn k (h ++ [c]) ++ cs = skipn k (h ++ c :: cs)).
    { replace (h ++ c :: cs) with ((h ++ [c]) ++ cs)
        by (rewrite <- app_assoc; reflexivity).
      rewrite (skipn_app k (h ++ [c]) cs).
      replace (k - length (h ++ [c]))%nat with 0%nat by lia. reflexivity. }
    rewrite Happ, skipn_skipn. f_equal.
    rewrite length_skipn.
    assert (length (h ++ c :: cs) = (length (h ++ [c]) + length cs)%nat)
      by (rewrite !length_app; cbn; lia).
    subst k. lia.
Qed.

Lemma correctArm_frame s key :
  queen (correctArm s key) = queen s /\
  coherenceHistory (correctArm s key) = coherenceHistory s /\
  maxHistorySize (correctArm s key) = maxHistorySize s /\
  map fst (arms (correctArm s key)) = map fst (arms s).
Proof.
  unfold correctArm. destruct (arms_get key (arms s)); cbn; auto.
  repeat split. apply arms_modify_keys.
Qed.

Lemma fold_correctArm_frame keys :
  forall s,
    queen (fold_left correctArm keys s) = queen s /\
    coherenceHistory (fold_left correctArm keys s) = coherenceHistory s /\
    maxHistorySize (fold_left correctArm keys s) = maxHistorySize s /\
    map fst (arms (fold_left correctArm keys s)) = map fst (arms s).
Proof.
  induction keys as [|k keys IH]; intros s; [cbn; auto|].
  cbn [fold_left].
  destruct (IH (correctArm s k)) as (-> & -> & -> & ->).
  apply correctArm_frame.
Qed.

(** One call pushes the coherence it computed, if it recomputes, and
    otherwise leaves the history alone. *)
Lemma invoke_history c s :
  exists s',
    invoke c s = Normal s' /\
    maxHistorySize s' = maxHistorySize s /\
    map fst (arms s') = map fst (arms s) /\
    coherenceHistory s'
    = if recomputes c s
      then push_history (maxHistorySize s) (coherence (queen s')) (coherenceHistory s)
      else coherenceHistory s.
Proof.
  destruct c as [now key p amp h|]; cbn [invoke recomputes].
  - eexists. split; [reflexivity|]. unfold updateArmState.
    destruct (arms_get key (arms s)); [|auto].
    match goal with
    | |- context [adjustPhaseCoherence ?s1] =>
        destruct (adjustPhaseCoherence_history s1) as [-> ->];
        rewrite (adjustPhaseCoherence_keys s1)
    end.
    cbn [with_arms maxHistorySize coherenceHistory arms].
    rewrite arms_modify_keys. auto.
  - eexists. split; [reflexivity|]. unfold selfCorrect.
    destruct (wobbleDetected (detectWobble s)); cbn [negb]; [|auto].
    match goal with
    | |- context [adjustPhaseCoherence ?s1] =>
        destruct (adjustPhaseCoherence_history s1) as [-> ->];
        rewrite (adjustPhaseCoherence_keys s1)
    end.
    destruct (fold_correctArm_frame (affectedArms (detectWobble s)) s)
      as (_ & -> & -> & ->).
    auto.
Qed.

(** A sequence of calls always completes, and its history is the pushes
    of its coherence trace. *)
Lemma run_history cs :
  forall s,
    exists s',
      run cs s = Normal s' /\
      maxHistorySize s' = maxHistorySize s /\
      coherenceHistory s'
      = push_all (maxHistorySize s) (coherence_trace cs s) (coherenceHistory s).
Proof.
  induction cs as [|c cs IH]; intros s.
  - exists s. cbn. auto.
  - destruct (invoke_history c s) as (s1 & Hinv & Hmax & _ & Hhist).
    destruct (IH s1) as (s' & Hrun & Hmax' & Hhist').
    exists s'. cbn [run coherence_trace]. rewrite Hinv.
    split; [exact Hrun|]. split; [congruence|].
    rewrite Hhist', Hhist, Hmax.
    destruct (recomputes c s); reflexivity.
Qed.

(** Updates of a registered name recompute every time. *)
Lemma coherence_trace_updates now key p amp h n :
  forall s, In key (map fst (arms s)) ->
    length (coherence_trace (repeat (UpdateArmState now key p amp h) n) s) = n.
Proof.
  induction n as [|n IH]; intros s Hin; [reflexivity|].
  cbn [repeat coherence_trace].
  destruct (invoke_history (UpdateArmState now key p amp h) s)
    as (s1 & Hinv & _ & Hkeys & _).
  rewrite Hinv. cbn [recomputes].
  destruct (arms_get_some_key key (arms s) Hin) as [a ->].
  cbn [app length]. rewrite IH; [reflexivity|].
  rewrite Hkeys. exact Hin.
Qed.

End History.

(** C8: on a synchronizer whose history is empty and has capacity 100,
    after calls that recompute 150 times the history has exactly 100
    entries: the coherence values of the last 100 recomputes, in the order
    they were pushed; the first 50 are gone. *)
Theorem coherenceHistory_bounded :
  forall cs s,
    PhaseLock.coherenceHistory s = [] ->
    PhaseLock.maxHistorySize s = 100%nat ->
    length (PhaseLock.coherence_trace cs s) = 150%nat ->
    exists s',
      PhaseLock.run cs s = Normal s' /\
      length (PhaseLock.coherenceHistory s') = 100%nat /\
      PhaseLock.coherenceHistory s' = skipn 50 (PhaseLock.coherence_trace cs s) /\
      PhaseLock.coherence_trace cs s
      = firstn 50 (PhaseLock.coherence_trace cs s) ++ PhaseLock.coherenceHistory s'.
Proof.
  intros cs s Hempty Hmax Hlen.
  destruct (run_history cs s) as (s' & Hrun & _ & Hhist).
  exists s'. split; [exact Hrun|].
  rewrite Hempty, Hmax in Hhist.
  rewrite push_all_skipn in Hhist by (cbn; lia).
  cbn [app] in Hhist. rewrite Hlen in Hhist.
  change (150 - 100)%nat with 50%nat in Hhist.
  rewrite Hhist. split; [rewrite length_skipn; lia|].
  split; [reflexivity|]. symmetry. apply firstn_skipn.
Qed.

(** C8 on a new synchronizer, for 150 updates of "qwen". *)
Lemma coherenceHistory_bounded_witness :
  exists s',
    PhaseLock.run (repeat (PhaseLock.UpdateArmState 0 "qwen" 0 1 PhaseLock.Online) 150)
                  (PhaseLock.constructor 0 0 0 0 0) = Normal s' /\
    length (PhaseLock.coherenceHistory s') = 100%nat.
Proof.
  destruct (coherenceHistory_bounded
              (repeat (PhaseLock.UpdateArmState 0 "qwen" 0 1 PhaseLock.Online) 150)
              (PhaseLock.constructor 0 0 0 0 0))
    as (s' & Hrun & Hlen & _).
  - reflexivity.
  - reflexivity.
  - apply coherence_trace_updates. cbn. left. reflexivity.
  - exists s'. split; [exact Hrun | exact Hlen].
Defined.

(** ** Coherence *)

Section Coherence.

Import PhaseLock.

Lemma sum_abs_ge (l : list R) :
  forall init, init <= fold_left (fun a b => a + Rabs b) l init.
Proof.
  induction l as [|x l IH]; intros init; cbn [fold_left]; [lra|].
  pose proof (IH (init + Rabs x)). pose proof (Rabs_pos x). lra.
Qed.

Lemma sum_abs_zero (l : list R) :
  (forall x, In x l -> x = 0) ->
  forall init, fold_left (fun a b => a + Rabs b) l init = init.
Proof.
  induction l as [|x l IH]; intros Hall init; cbn [fold_left]; [reflexivity|].
  rewrite IH by (intros y Hy; apply Hall; right; exact Hy).
  rewrite (Hall x (or_introl eq_refl)), Rabs_R0. lra.
Qed.

Lemma computeCoherence_bounds s :
  arms s <> [] -> 0 <= computeCoherence s <= 1.
Proof.
  intros Hne. unfold computeCoherence.
  set (diffs := phaseDifferences s).
  assert (Hn : 0 < INR (length diffs)).
  { apply lt_0_INR. subst diffs. unfold phaseDifferences, values.
    rewrite !length_map. destruct (arms s); [contradiction | cbn; lia]. }
  pose proof (sum_abs_ge diffs 0) as Hsum.
  assert (Havg : 0 <= fold_left (fun a b => a + Rabs b) diffs 0 / INR (length diffs)).
  { apply Rmult_le_pos; [exact Hsum|]. apply Rlt_le, Rinv_0_lt_compat, Hn. }
  set (avg := fold_left (fun a b => a + Rabs b) diffs 0 / INR (length diffs)) in *.
  split; [apply Rmax_l|].
  apply Rmax_lub; lra.
Qed.

Lemma computeCoherence_aligned s :
  arms s <> [] ->
  (forall a, In a (values s) -> phase a = qphase (queen s)) ->
  computeCoherence s = 1.
Proof.
  intros Hne Hall. unfold computeCoherence.
  rewrite sum_abs_zero.
  - unfold Rdiv. rewrite !Rmult_0_l, Rminus_0_r. apply Rmax_right. lra.
  - intros x Hx. unfold phaseDifferences in Hx. apply in_map_iff in Hx.
    destruct Hx as (a & <- & Ha). rewrite (Hall a Ha).
    rewrite angleDifference_id; lra.
Qed.

End Coherence.

(** C6: the coherence that the recompute stores is between 0 and 1 for
    every configuration of the (at least one) arms, and it is 1 when every
    arm's phase equals the queen's phase. *)
Theorem adjustPhaseCoherence_coherence :
  forall s,
    PhaseLock.arms s <> [] ->
    let c := PhaseLock.coherence (PhaseLock.queen (PhaseLock.adjustPhaseCoherence s)) in
    0 <= c <= 1 /\
    ((forall a, In a (PhaseLock.values s) ->
                PhaseLock.phase a = PhaseLock.qphase (PhaseLock.queen s)) ->
     c = 1).
Proof.
  intros s Hne c. subst c.
  destruct (adjustPhaseCoherence_queen s) as (_ & -> & _).
  split; [apply computeCoherence_bounds, Hne|].
  intros Hall. apply computeCoherence_aligned; assumption.
Qed.

(** C6 on a synchronizer whose four arms were all moved to the queen's
    phase, 45 degrees. *)
Lemma adjustPhaseCoherence_coherence_witness :
  let s :=
    PhaseLock.with_arms
      (map (fun ka : string * PhaseLock.ArmState =>
              (fst ka, PhaseLock.set_phase 45 (snd ka)))
           (PhaseLock.arms (PhaseLock.constructor 0 0 0 0 0)))
      (PhaseLock.constructor 0 0 0 0 0) in
  PhaseLock.arms s <> [] /\
  (forall a, In a (PhaseLock.values s) ->
             PhaseLock.phase a = PhaseLock.qphase (PhaseLock.queen s)) /\
  0 <= PhaseLock.coherence (PhaseLock.queen (PhaseLock.adjustPhaseCoherence s)) <= 1 /\
  PhaseLock.coherence (PhaseLock.queen (PhaseLock.adjustPhaseCoherence s)) = 1.
Proof.
  intros s.
  assert (Hne : PhaseLock.arms s <> []) by (cbn; discriminate).
  assert (Hall : forall a, In a (PhaseLock.values s) ->
                           PhaseLock.phase a = PhaseLock.qphase (PhaseLock.queen s)).
  { cbn. intros a [<-|[<-|[<-|[<-|[]]]]]; reflexivity. }
  split; [exact Hne|]. split; [exact Hall|].
  pose proof (adjustPhaseCoherence_coherence s Hne) as [Hb Hone].
  split; [exact Hb | exact (Hone Hall)].
Defined.

(** ** circularMean *)

Section CircularMean.

Import PhaseLock.

Lemma atan2_range (y x : R) : - PI <= atan2 y x <= PI.
Proof.
  pose proof PI_RGT_0 as Hpi.
  pose proof (atan_bound (y / x)) as [Hlo Hhi].
  unfold atan2.
  destruct (Rlt_dec 0 x); [lra|].
  destruct (Rlt_dec x 0) as [Hx|Hx].
  - pose proof (Rinv_neg x Hx) as Hinv.
    destruct (Rle_dec 0 y) as [Hy|Hy].
    + assert (Hq : y / x <= 0) by (unfold Rdiv; nra).
      assert (atan (y / x) <= 0).
      { destruct Hq as [Hq|Hq].
        - apply Rlt_le. rewrite <- atan_0. apply atan_increasing, Hq.
        - rewrite Hq, atan_0. lra. }
      lra.
    + assert (Hq : 0 < y / x) by (unfold Rdiv; nra).
      assert (0 < atan (y / x)) by (rewrite <- atan_0; apply atan_increasing, Hq).
      lra.
  - destruct (Rlt_dec 0 y); [lra|]. destruct (Rlt_dec y 0); lra.
Qed.

Lemma atan2_zero_pos (x : R) : 0 < x -> atan2 0 x = 0.
Proof.
  intros Hx. unfold atan2. destruct (Rlt_dec 0 x); [|contradiction].
  unfold Rdiv. rewrite Rmult_0_l. apply atan_0.
Qed.

Lemma atan2_zero_zero : atan2 0 0 = 0.
Proof.
  unfold atan2. repeat (destruct (Rlt_dec _ _); try lra).
Qed.

(** The loop accumulates the two sums. *)
Lemma circularMean_sums (angles : list R) :
  forall s0 c0,
    fold_left
      (fun (acc : R * R) (angle : R) =>
         let rad := angle * PI / 180 in (fst acc + sin rad, snd acc + cos rad))
      angles (s0, c0)
    = (s0 + sum_list (map (fun angle => sin (angle * PI / 180)) angles),
       c0 + sum_list (map (fun angle => cos (angle * PI / 180)) angles)).
Proof.
  induction angles as [|a angles IH]; intros s0 c0.
  - cbn. f_equal; lra.
  - cbn [fold_left map sum_list fold_right fst snd]. rewrite IH.
    unfold sum_list. f_equal; lra.
Qed.

Lemma circularMean_resultant (angles : list R) :
  circularMean angles = resultantDirection angles.
Proof.
  unfold circularMean, resultantDirection.
  rewrite circularMean_sums. cbn [fst snd]. rewrite !Rplus_0_l. reflexivity.
Qed.

Lemma circularMean_range (angles : list R) : -180 <= circularMean angles <= 180.
Proof.
  unfold circularMean.
  match goal with |- context [atan2 ?y ?x] =>
    pose proof (atan2_range y x) as [Hlo Hhi]; set (m := atan2 y x) in * end.
  pose proof PI_RGT_0 as Hpi.
  pose proof (Rinv_0_lt_compat PI Hpi) as Hi.
  assert (Hone : PI * / PI = 1) by (field; lra).
  unfold Rdiv. set (i := / PI) in *. split; nra.
Qed.

Lemma sin_359 : sin (359 * PI / 180) = - sin (1 * PI / 180).
Proof.
  replace (359 * PI / 180) with (- (1 * PI / 180) + 2 * INR 1 * PI)
    by (cbn [INR]; field).
  rewrite sin_period. apply sin_neg.
Qed.

Lemma cos_359 : cos (359 * PI / 180) = cos (1 * PI / 180).
Proof.
  replace (359 * PI / 180) with (- (1 * PI / 180) + 2 * INR 1 * PI)
    by (cbn [INR]; field).
  rewrite cos_period. apply cos_neg.
Qed.

Lemma circularMean_359_1 : circularMean [359; 1] = 0.
Proof.
  rewrite circularMean_resultant. unfold resultantDirection, sum_list.
  cbn [map fold_right length]. rewrite sin_359, cos_359.
  replace (- sin (1 * PI / 180) + (sin (1 * PI / 180) + 0)) with 0 by lra.
  assert (Hcos : 0 < cos (1 * PI / 180)).
  { pose proof PI_RGT_0. apply cos_gt_0; lra. }
  assert (Hn : INR 2 = 2) by (cbn; lra).
  rewrite Hn.
  replace (0 / 2) with 0 by lra.
  rewrite atan2_zero_pos by lra.
  unfold Rdiv. rewrite !Rmult_0_l. reflexivity.
Qed.

End CircularMean.

(** C9: [circularMean] is the direction of the resultant vector (the sums
    of the sines and of the cosines of the angles, then [atan2], in
    degrees); its value is in [[-180, 180]]; and the mean of 359 and 1 is
    within 0.01 degrees of 0, and is not 180. *)
Theorem circularMean_resultant_direction :
  (forall angles, PhaseLock.circularMean angles = PhaseLock.resultantDirection angles) /\
  (forall angles, angles <> [] -> -180 <= PhaseLock.circularMean angles <= 180) /\
  Rabs (PhaseLock.circularMean [359; 1] - 0) < 0.01 /\
  PhaseLock.circularMean [359; 1] <> 180.
Proof.
  split; [exact circularMean_resultant|].
  split; [intros angles _; apply circularMean_range|].
  rewrite circularMean_359_1, Rminus_0_r, Rabs_R0. split; lra.
Qed.

(** C9 at the angles 359 and 1. *)
Lemma circularMean_resultant_direction_witness :
  [359; 1] <> [] /\ -180 <= PhaseLock.circularMean [359; 1] <= 180.
Proof.
  assert (H : [359; 1] <> []) by discriminate.
  split; [exact H|].
  exact (proj1 (proj2 circularMean_resultant_direction) [359; 1] H).
Defined.

(** ** selfCorrect *)

Section SelfCorrect.

Import PhaseLock.

(** One step of the controller takes a tenth off the signed error. *)
Lemma correction_contracts (t p : R) :
  angleDifference t (js_rem (p + angleDifference t p * 0.1) 360)
  = 0.9 * angleDifference t p.
Proof.
  destruct (angleDifference_spec t p) as (Hrange & (j & Hj) & _).
  destruct (js_rem_congruent (p + angleDifference t p * 0.1)) as [k Hk].
  set (d := angleDifference t p) in *.
  destruct (Rlt_dec (-180) (0.9 * d)) as [Hlo|Hlo]; [|lra].
  apply (angleDifference_unique _ _ _ (- j - k)).
  - rewrite Hk, minus_IZR, opp_IZR. lra.
  - lra.
Qed.

(** Dropping arms from a list keeps their names distinct. *)
Lemma kept_names_distinct (keep : ArmState -> bool) (l : list ArmState) :
  NoDup (map name l) -> NoDup (map name (filter keep l)).
Proof.
  induction l as [|a l IH]; cbn [map filter]; intros Hnd; [exact Hnd|].
  apply NoDup_cons_iff in Hnd. destruct Hnd as [Hfresh Hrest].
  destruct (keep a); [|exact (IH Hrest)].
  cbn [map]. apply NoDup_cons; [|exact (IH Hrest)].
  contradict Hfresh.
  apply in_map_iff in Hfresh. destruct Hfresh as (b & Hb & Hin).
  apply filter_In in Hin. rewrite <- Hb. apply in_map, Hin.
Qed.

Lemma wf_names s : wf s -> map name (values s) = map fst (arms s).
Proof.
  intros [_ Hnamed]. unfold values. rewrite map_map.
  induction Hnamed as [|ka m Hka _ IH]; [reflexivity|].
  cbn [map]. rewrite IH, Hka. reflexivity.
Qed.

Lemma affectedArms_NoDup s : wf s -> NoDup (affectedArms (detectWobble s)).
Proof.
  intros Hwf. cbn [detectWobble affectedArms].
  apply kept_names_distinct. rewrite (wf_names s Hwf). apply Hwf.
Qed.

Lemma correctArm_get_same s key arm :
  arms_get key (arms s) = Some arm ->
  arms_get key (arms (correctArm s key))
  = Some (set_phase
            (js_rem (phase arm
                     + angleDifference (qphase (queen s) + 90) (phase arm) * 0.1)
                    360) arm).
Proof.
  intros H. unfold correctArm. rewrite H. cbn [with_arms arms].
  rewrite arms_get_modify_same, H. reflexivity.
Qed.

Lemma correctArm_get_other s key k :
  k <> key -> arms_get key (arms (correctArm s k)) = arms_get key (arms s).
Proof.
  intros Hne. unfold correctArm. destruct (arms_get k (arms s)); [|reflexivity].
  cbn [with_arms arms]. apply arms_get_modify_other, Hne.
Qed.

(** The loop corrects every listed arm once and touches no other. *)
Lemma fold_correctArm_get key keys :
  forall s arm,
    NoDup keys ->
    arms_get key (arms s) = Some arm ->
    exists arm',
      arms_get key (arms (fold_left correctArm keys s)) = Some arm' /\
      name arm' = name arm /\
      (In key keys ->
       phase arm'
       = js_rem (phase arm
                 + angleDifference (qphase (queen s) + 90) (phase arm) * 0.1) 360) /\
      (~ In key keys -> phase arm' = phase arm).
Proof.
  induction keys as [|k keys IH]; intros s arm Hnd Hget.
  - exists arm. cbn. repeat split; tauto.
  - inversion Hnd as [|k' ks Hnotin Hnd']; subst. cbn [fold_left].
    destruct (string_dec k key) as [->|Hne].
    + pose proof (correctArm_get_same s key arm Hget) as Hget1.
      destruct (IH _ _ Hnd' Hget1) as (arm' & Hget' & Hname & _ & Hkeep).
      exists arm'. split; [exact Hget'|]. split; [exact Hname|].
      split; [|intros Hn; exfalso; apply Hn; left; reflexivity].
      intros _. rewrite (Hkeep Hnotin). reflexivity.
    + pose proof (correctArm_get_other s key k Hne) as Hget1.
      rewrite Hget in Hget1.
      destruct (IH _ _ Hnd' Hget1) as (arm' & Hget' & Hname & Hfix & Hkeep).
      destruct (correctArm_frame s k) as (Hq & _).
      rewrite Hq in Hfix.
      exists arm'. split; [exact Hget'|]. split; [exact Hname|]. split.
      * intros [Heq|Hin]; [contradiction | exact (Hfix Hin)].
      * intros Hn. apply Hkeep. intros Hin. apply Hn. right. exact Hin.
Qed.

Lemma fold_correctArm_wf keys : forall s, wf s -> wf (fold_left correctArm keys s).
Proof.
  induction keys as [|k keys IH]; intros s Hwf; [exact Hwf|].
  cbn [fold_left]. apply IH.
  destruct Hwf as [Hnd Hnamed]. split.
  - destruct (correctArm_frame s k) as (_ & _ & _ & ->). exact Hnd.
  - unfold correctArm. destruct (arms_get k (arms s)); [|exact Hnamed].
    cbn [with_arms arms]. apply arms_modify_named; [reflexivity | exact Hnamed].
Qed.

Lemma selfCorrect_wf s : wf s -> wf (selfCorrect s).
Proof.
  intros Hwf. unfold selfCorrect.
  destruct (wobbleDetected (detectWobble s)); cbn [negb]; [|exact Hwf].
  apply adjustPhaseCoherence_wf, fold_correctArm_wf, Hwf.
Qed.

Lemma selfCorrect_qphase s : qphase (queen (selfCorrect s)) = qphase (queen s).
Proof.
  unfold selfCorrect.
  destruct (wobbleDetected (detectWobble s)); cbn [negb]; [|reflexivity].
  destruct (adjustPhaseCoherence_queen
              (fold_left correctArm (affectedArms (detectWobble s)) s)) as (-> & _).
  destruct (fold_correctArm_frame (affectedArms (detectWobble s)) s) as (-> & _).
  reflexivity.
Qed.

(** What one call does to the error of one arm. *)
Lemma selfCorrect_error s key arm :
  wf s ->
  arms_get key (arms s) = Some arm ->
  exists arm',
    arms_get key (arms (selfCorrect s)) = Some arm' /\
    (flagged key s -> phaseError (selfCorrect s) arm' = 0.9 * phaseError s arm) /\
    phaseError (selfCorrect s) arm' <= phaseError s arm.
Proof.
  intros Hwf Hget. unfold phaseError. rewrite selfCorrect_qphase.
  unfold flagged, selfCorrect.
  destruct (wobbleDetected (detectWobble s)); cbn [negb].
  - destruct (fold_correctArm_get key (affectedArms (detectWobble s)) s arm
                (affectedArms_NoDup s Hwf) Hget)
      as (arm1 & Hget1 & _ & Hfix & Hkeep).
    rewrite adjustPhaseCoherence_get, Hget1. cbn [option_map].
    eexists. split; [reflexivity|].
    match goal with
    | |- context [redistributed ?s1 arm1] =>
        destruct (redistributed_fields s1 arm1) as (_ & -> & _)
    end.
    pose proof (Rabs_pos (angleDifference (qphase (queen s) + 90) (phase arm))) as Hpos.
    destruct (in_dec string_dec key (affectedArms (detectWobble s))) as [Hin|Hnin].
    + rewrite (Hfix Hin), correction_contracts, Rabs_mult, (Rabs_pos_eq 0.9) by lra.
      split; [reflexivity | lra].
    + rewrite (Hkeep Hnin). split; [intros [_ Hin]; contradiction | lra].
  - exists arm. split; [exact Hget|].
    split; [intros [Hw _]; discriminate | lra].
Qed.

(** As long as the arm stays flagged, the error shrinks geometrically. *)
Lemma selfCorrect_geometric s key arm :
  wf s ->
  arms_get key (arms s) = Some arm ->
  forall n,
    (forall i, (i < n)%nat -> flagged key (Nat.iter i selfCorrect s)) ->
    wf (Nat.iter n selfCorrect s) /\
    exists arm',
      arms_get key (arms (Nat.iter n selfCorrect s)) = Some arm' /\
      phaseError (Nat.iter n selfCorrect s) arm' = 0.9 ^ n * phaseError s arm.
Proof.
  intros Hwf Hget. induction n as [|n IH]; intros Hflag.
  - split; [exact Hwf|]. exists arm. split; [exact Hget|]. cbn. lra.
  - destruct IH as (Hwfn & armn & Hgetn & Herr); [intros i Hi; apply Hflag; lia|].
    rewrite Nat.iter_succ. split; [apply selfCorrect_wf, Hwfn|].
    destruct (selfCorrect_error _ key armn Hwfn Hgetn) as (arm' & Hget' & Hstep & _).
    exists arm'. split; [exact Hget'|].
    rewrite (Hstep (Hflag n (Nat.lt_succ_diag_r n))), Herr. cbn [pow]. lra.
Qed.

Lemma updateArmState_wf now key p amp h s :
  wf s -> wf (updateArmState now key p amp h s).
Proof.
  intros Hwf. unfold updateArmState.
  destruct (arms_get key (arms s)); [|exact Hwf].
  apply adjustPhaseCoherence_wf. destruct Hwf as [Hnd Hnamed]. split.
  - cbn [with_arms arms]. rewrite arms_modify_keys. exact Hnd.
  - cbn [with_arms arms]. apply arms_modify_named; [reflexivity | exact Hnamed].
Qed.

(** The map invariant holds in every state the calls can reach. *)
Lemma run_wf cs :
  forall s s', wf s -> run cs s = Normal s' -> wf s'.
Proof.
  induction cs as [|c cs IH]; intros s s' Hwf Hrun.
  - cbn in Hrun. injection Hrun as <-. exact Hwf.
  - cbn [run] in Hrun. destruct c as [now key p amp h|]; cbn [invoke] in Hrun.
    + apply (IH _ _ (updateArmState_wf now key p amp h s Hwf) Hrun).
    + apply (IH _ _ (selfCorrect_wf s Hwf) Hrun).
Qed.

End SelfCorrect.

(** ** The default topology *)

Section DefaultTopology.

Import PhaseLock.

Lemma circularMean_quadrants : circularMean [0; 90; 180; 270] = 0.
Proof.
  rewrite circularMean_resultant. unfold resultantDirection, sum_list.
  cbn [map fold_right length].
  replace (0 * PI / 180) with 0 by lra.
  replace (90 * PI / 180) with (PI / 2) by lra.
  replace (180 * PI / 180) with PI by lra.
  replace (270 * PI / 180) with (3 * (PI / 2)) by lra.
  rewrite sin_0, sin_PI2, sin_PI, sin_3PI2, cos_0, cos_PI2, cos_PI, cos_3PI2.
  replace (0 + (1 + (0 + (-1 + 0)))) with 0 by lra.
  replace (1 + (0 + (-1 + (0 + 0)))) with 0 by lra.
  unfold Rdiv. rewrite !Rmult_0_l, atan2_zero_zero. lra.
Qed.

Lemma sqrt_12150 : sqrt 12150 > 30.
Proof.
  assert (H : sqrt (30 * 30) < sqrt 12150) by (apply sqrt_lt_1; lra).
  rewrite sqrt_square in H by lra. exact H.
Qed.

(** On a new synchronizer the four unit vectors cancel: over exact reals
    the resultant is the zero vector and the mean is [atan2 0 0 = 0], so the
    spread is a wobble and the three arms away from 0 are affected.  The
    zero resultant is a degenerate case: on the rounded sums of the
    JavaScript code [Math.atan2] returns the direction of the rounding
    errors, so that of the three facts below only the detection carries
    over to it, not the magnitude or the list of affected arms. *)
Lemma detectWobble_constructor t1 t2 t3 t4 t5 :
  let w := detectWobble (constructor t1 t2 t3 t4 t5) in
  wobbleDetected w = true /\
  magnitude w = sqrt 12150 /\
  affectedArms w = ["gemma"; "deepseek"; "os"]%string.
Proof.
  cbn zeta. unfold detectWobble.
  cbn [values arms constructor map snd phase].
  rewrite circularMean_quadrants.
  cbn [fold_left length filter phase wobbleDetected magnitude affectedArms].
  rewrite (angleDifference_id 0 0), (angleDifference_id 90 0),
    (angleDifference_id 180 0), (angleDifference_wrap_down 270 0) by lra.
  assert (Hvar : (0 + (0 - 0) ^ 2 + (90 - 0) ^ 2 + (180 - 0) ^ 2 + (270 - 0 - 360) ^ 2)
                 / INR 4 = 12150) by (cbn [INR]; field).
  rewrite Hvar.
  assert (H0 : gtb (Rabs (0 - 0)) 45 = false).
  { apply gtb_false. rewrite Rminus_0_r, Rabs_R0. lra. }
  assert (H1 : gtb (Rabs (90 - 0)) 45 = true).
  { apply gtb_true. rewrite Rabs_pos_eq; lra. }
  assert (H2 : gtb (Rabs (180 - 0)) 45 = true).
  { apply gtb_true. rewrite Rabs_pos_eq; lra. }
  assert (H3 : gtb (Rabs (270 - 0 - 360)) 45 = true).
  { apply gtb_true. rewrite Rabs_left; lra. }
  rewrite H0, H1, H2, H3. cbn [map name].
  split; [apply gtb_true, sqrt_12150|]. split; reflexivity.
Qed.

(** Three arms at 0 and one opposite them: the resultant points along 0,
    well away from the origin. *)
Lemma circularMean_opposed : circularMean [0; 0; 0; 180] = 0.
Proof.
  rewrite circularMean_resultant. unfold resultantDirection, sum_list.
  cbn [map fold_right length].
  replace (0 * PI / 180) with 0 by lra.
  replace (180 * PI / 180) with PI by lra.
  rewrite sin_0, sin_PI, cos_0, cos_PI.
  replace (0 + (0 + (0 + (0 + 0)))) with 0 by lra.
  unfold Rdiv at 2. rewrite Rmult_0_l, atan2_zero_pos.
  - lra.
  - cbn [INR]. lra.
Qed.

Lemma sqrt_8100 : sqrt 8100 > 30.
Proof.
  assert (H : sqrt (30 * 30) < sqrt 8100) by (apply sqrt_lt_1; lra).
  rewrite sqrt_square in H by lra. exact H.
Qed.

Lemma constructor_wf t1 t2 t3 t4 t5 : wf (constructor t1 t2 t3 t4 t5).
Proof.
  split; cbn.
  - repeat constructor; cbn; intuition discriminate.
  - repeat constructor.
Qed.

End DefaultTopology.

(** C5: for an arm that is flagged (a wobble is detected and the arm is
    among the affected), one [selfCorrect] multiplies the error
    [|angleDifference (queen.phase + 90) arm.phase|] by exactly 0.9; for every
    arm, flagged or not, a call never increases the error; and while the
    arm stays flagged, [n] calls leave [0.9 ^ n] of the error. *)
Theorem selfCorrect_contracts :
  forall s key arm,
    PhaseLock.wf s ->
    PhaseLock.arms_get key (PhaseLock.arms s) = Some arm ->
    (exists arm',
        PhaseLock.arms_get key (PhaseLock.arms (PhaseLock.selfCorrect s)) = Some arm' /\
        (PhaseLock.flagged key s ->
         PhaseLock.phaseError (PhaseLock.selfCorrect s) arm'
         = 0.9 * PhaseLock.phaseError s arm) /\
        PhaseLock.phaseError (PhaseLock.selfCorrect s) arm'
        <= PhaseLock.phaseError s arm) /\
    (forall n,
        (forall i, (i < n)%nat ->
                   PhaseLock.flagged key (Nat.iter i PhaseLock.selfCorrect s)) ->
        exists arm',
          PhaseLock.arms_get key (PhaseLock.arms (Nat.iter n PhaseLock.selfCorrect s))
          = Some arm' /\
          PhaseLock.phaseError (Nat.iter n PhaseLock.selfCorrect s) arm'
          = 0.9 ^ n * PhaseLock.phaseError s arm).
Proof.
  intros s key arm Hwf Hget. split.
  - apply selfCorrect_error; assumption.
  - intros n Hflag. apply (selfCorrect_geometric s key arm Hwf Hget n Hflag).
Qed.

(** C5 on a synchronizer whose arms qwen, gemma and deepseek are at phase
    0 and whose arm os is at phase 180 (the mean direction is 0 and the
    wobble magnitude 90): os is flagged, its error to the target 135 is 45,
    and one call leaves 40.5. *)
Lemma selfCorrect_contracts_witness :
  let arm_at (key : string) (p f : R) :=
    (key, {| PhaseLock.name := key; PhaseLock.phase := p;
             PhaseLock.amplitude := 1.0; PhaseLock.frequency := f;
             PhaseLock.lastUpdate := 0; PhaseLock.health := PhaseLock.Online |}) in
  let s :=
    PhaseLock.with_arms
      [arm_at "qwen"%string 0 10; arm_at "gemma"%string 0 5;
       arm_at "deepseek"%string 0 7; arm_at "os"%string 180 12]
      (PhaseLock.constructor 0 0 0 0 0) in
  PhaseLock.wf s /\
  PhaseLock.flagged "os" s /\
  PhaseLock.affectedArms (PhaseLock.detectWobble s) = ["os"%string] /\
  exists arm arm',
    PhaseLock.arms_get "os" (PhaseLock.arms s) = Some arm /\
    PhaseLock.phaseError s arm = 45 /\
    PhaseLock.arms_get "os" (PhaseLock.arms (PhaseLock.selfCorrect s)) = Some arm' /\
    PhaseLock.phaseError (PhaseLock.selfCorrect s) arm' = 40.5.
Proof.
  intros arm_at s.
  assert (Hwf : PhaseLock.wf s).
  { split; cbn.
    - repeat constructor; cbn; intuition discriminate.
    - repeat constructor. }
  assert (Hwobble : PhaseLock.wobbleDetected (PhaseLock.detectWobble s) = true /\
                    PhaseLock.affectedArms (PhaseLock.detectWobble s) = ["os"%string]).
  { unfold PhaseLock.detectWobble.
    cbn [PhaseLock.values PhaseLock.arms PhaseLock.with_arms s arm_at map snd
           PhaseLock.phase].
    rewrite circularMean_opposed.
    cbn [fold_left length filter PhaseLock.phase PhaseLock.wobbleDetected
           PhaseLock.affectedArms].
    rewrite (angleDifference_id 0 0), (angleDifference_id 180 0) by lra.
    assert (Hvar : (0 + (0 - 0) ^ 2 + (0 - 0) ^ 2 + (0 - 0) ^ 2 + (180 - 0) ^ 2)
                   / INR 4 = 8100) by (cbn [INR]; field).
    rewrite Hvar.
    assert (H0 : gtb (Rabs (0 - 0)) 45 = false).
    { apply gtb_false. rewrite Rminus_0_r, Rabs_R0. lra. }
    assert (H1 : gtb (Rabs (180 - 0)) 45 = true).
    { apply gtb_true. rewrite Rabs_pos_eq; lra. }
    rewrite H0, H1. cbn [map PhaseLock.name].
    split; [apply gtb_true, sqrt_8100 | reflexivity]. }
  destruct Hwobble as [Hw Ha].
  assert (Hflag : PhaseLock.flagged "os" s).
  { split; [exact Hw|]. rewrite Ha. left. reflexivity. }
  split; [exact Hwf|]. split; [exact Hflag|]. split; [exact Ha|].
  assert (Hget : PhaseLock.arms_get "os" (PhaseLock.arms s)
                 = Some (snd (arm_at "os"%string 180 12))) by reflexivity.
  destruct (selfCorrect_contracts s "os" _ Hwf Hget)
    as ((arm' & Hget' & Hstep & _) & _).
  assert (Herr : PhaseLock.phaseError s (snd (arm_at "os"%string 180 12)) = 45).
  { unfold PhaseLock.phaseError.
    cbn [PhaseLock.qphase PhaseLock.queen PhaseLock.with_arms s
           PhaseLock.constructor PhaseLock.phase arm_at snd].
    rewrite angleDifference_id by lra. rewrite Rabs_left; lra. }
  eexists. exists arm'. split; [exact Hget|]. split; [exact Herr|].
  split; [exact Hget'|]. rewrite (Hstep Hflag), Herr. lra.
Defined.

(** * Further properties of the synchronizer *)

Section Preservation.

Import PhaseLock PhaseLockReport.

Lemma arms_modify_Forall (P : string * ArmState -> Prop) key f m :
  (forall k a, P (k, a) -> P (k, f a)) ->
  Forall P m -> Forall P (arms_modify key f m).
Proof.
  intros Hf. induction 1 as [|[k a] m Hka Hm IH]; [constructor|].
  cbn [arms_modify]. destruct (String.eqb k key); constructor; auto.
Qed.

Lemma sum_amplitudes_nonneg (l : list ArmState) :
  (forall a, In a l -> 0 <= amplitude a) ->
  forall init, init <= fold_left (fun sum a => sum + amplitude a) l init.
Proof.
  induction l as [|x l IH]; intros Hall init; cbn [fold_left]; [lra|].
  pose proof (IH (fun a Ha => Hall a (or_intror Ha)) (init + amplitude x)).
  pose proof (Hall x (or_introl eq_refl)). lra.
Qed.

Lemma amplitudes_ok_values s a :
  amplitudes_ok s -> In a (values s) -> 0 <= amplitude a <= 1.
Proof.
  unfold amplitudes_ok, values. intros Hok Hin.
  apply in_map_iff in Hin. destruct Hin as ([k b] & <- & Hin).
  rewrite Forall_forall in Hok. exact (Hok _ Hin).
Qed.

Lemma degradedLoad_nonneg s : amplitudes_ok s -> 0 <= degradedLoad s.
Proof.
  intros Hok. unfold degradedLoad. apply sum_amplitudes_nonneg.
  intros a Ha. apply filter_In in Ha. apply (amplitudes_ok_values s a Hok), Ha.
Qed.

(** The share an online arm receives is not negative. *)
Lemma share_nonneg s :
  amplitudes_ok s ->
  0 <= degradedLoad s
       / INR (Nat.max (length (filter (fun a => is_online (health a)) (values s))) 1)
       * 0.1.
Proof.
  intros Hok. pose proof (degradedLoad_nonneg s Hok) as Hload.
  set (n := Nat.max _ 1).
  assert (Hn : 0 < INR n) by (apply lt_0_INR; subst n; lia).
  apply Rmult_le_pos; [|lra].
  apply Rmult_le_pos; [exact Hload|]. apply Rlt_le, Rinv_0_lt_compat, Hn.
Qed.

Lemma redistributed_amplitude s a :
  amplitudes_ok s -> 0 <= amplitude a <= 1 ->
  amplitude a <= amplitude (redistributed s a) <= 1.
Proof.
  intros Hok Ha. unfold redistributed.
  destruct (Nat.eqb _ 0); [lra|].
  destruct (is_online (health a)); [|lra].
  cbn [set_amplitude amplitude].
  pose proof (share_nonneg s Hok) as Hshare. unfold degradedLoad in Hshare.
  match goal with |- context [Rmin ?one ?x] =>
    pose proof (Rmin_l one x); assert (amplitude a <= Rmin one x) by (apply Rmin_glb; lra)
  end.
  lra.
Qed.

Lemma redistributed_offline s a :
  health a <> Online -> redistributed s a = a.
Proof.
  intros Hh. unfold redistributed.
  destruct (Nat.eqb _ 0); [reflexivity|].
  destruct (health a); [contradiction | reflexivity | reflexivity].
Qed.

Lemma redistributed_frequency s a :
  frequency (redistributed s a) = frequency a /\
  lastUpdate (redistributed s a) = lastUpdate a.
Proof.
  unfold redistributed.
  destruct (Nat.eqb _ 0); [auto|].
  destruct (is_online (health a)); auto.
Qed.

Lemma calculateTorqueRedistribution_amplitudes s :
  amplitudes_ok s -> amplitudes_ok (calculateTorqueRedistribution s).
Proof.
  intros Hok. unfold amplitudes_ok.
  rewrite calculateTorqueRedistribution_arms. apply Forall_map.
  pose proof Hok as Hall. unfold amplitudes_ok in Hall.
  revert Hall. apply Forall_impl. intros [k a] Ha. cbn [fst snd] in *.
  pose proof (redistributed_amplitude s a Hok Ha). lra.
Qed.

Lemma adjustPhaseCoherence_amplitudes s :
  amplitudes_ok s -> amplitudes_ok (adjustPhaseCoherence s).
Proof.
  intros Hok. rewrite adjustPhaseCoherence_unfold.
  apply calculateTorqueRedistribution_amplitudes. exact Hok.
Qed.

Lemma clamp_unit (x : R) : 0 <= Rmax 0 (Rmin 1 x) <= 1.
Proof.
  split; [apply Rmax_l|]. apply Rmax_lub; [lra | apply Rmin_l].
Qed.

Lemma updateArmState_amplitudes now key p amp h s :
  amplitudes_ok s -> amplitudes_ok (updateArmState now key p amp h s).
Proof.
  intros Hok. unfold updateArmState.
  destruct (arms_get key (arms s)); [|exact Hok].
  apply adjustPhaseCoherence_amplitudes. unfold amplitudes_ok.
  cbn [with_arms arms]. apply arms_modify_Forall; [|exact Hok].
  intros k b _. cbn. apply clamp_unit.
Qed.

Lemma fold_correctArm_amplitudes keys :
  forall s, amplitudes_ok s -> amplitudes_ok (fold_left correctArm keys s).
Proof.
  induction keys as [|k keys IH]; intros s Hok; [exact Hok|].
  cbn [fold_left]. apply IH. unfold correctArm.
  destruct (arms_get k (arms s)); [|exact Hok].
  unfold amplitudes_ok. cbn [with_arms arms].
  apply arms_modify_Forall; [|exact Hok]. intros k' b Hb. exact Hb.
Qed.

Lemma selfCorrect_amplitudes s : amplitudes_ok s -> amplitudes_ok (selfCorrect s).
Proof.
  intros Hok. unfold selfCorrect.
  destruct (wobbleDetected (detectWobble s)); cbn [negb]; [|exact Hok].
  apply adjustPhaseCoherence_amplitudes, fold_correctArm_amplitudes, Hok.
Qed.

Lemma constructor_amplitudes t1 t2 t3 t4 t5 :
  amplitudes_ok (constructor t1 t2 t3 t4 t5).
Proof.
  unfold amplitudes_ok. cbn [constructor arms].
  repeat constructor; cbn [snd amplitude]; lra.
Qed.

End Preservation.

(** X1: starting from amplitudes in [[0, 1]], every sequence of calls
    completes and leaves every arm's amplitude in [[0, 1]]: the update
    clamps what it is given and the redistribution only adds a share that
    is not negative, capped at 1. *)
Theorem run_keeps_amplitudes :
  forall cs s,
    PhaseLockReport.amplitudes_ok s ->
    exists s', PhaseLock.run cs s = Normal s' /\ PhaseLockReport.amplitudes_ok s'.
Proof.
  induction cs as [|c cs IH]; intros s Hok.
  - exists s. split; [reflexivity | exact Hok].
  - cbn [PhaseLock.run]. destruct c as [now key p amp h|]; cbn [PhaseLock.invoke].
    + apply IH, updateArmState_amplitudes, Hok.
    + apply IH, selfCorrect_amplitudes, Hok.
Qed.

(** X1 on a new synchronizer: "gemma" is reported degraded with an
    amplitude of 7, then a self-correction runs. *)
Lemma run_keeps_amplitudes_witness :
  exists s',
    PhaseLock.run
      [PhaseLock.UpdateArmState 1 "gemma" 100 7 PhaseLock.Degraded; PhaseLock.SelfCorrect]
      (PhaseLock.constructor 0 0 0 0 0) = Normal s' /\
    PhaseLockReport.amplitudes_ok s'.
Proof.
  apply run_keeps_amplitudes. apply constructor_amplitudes.
Defined.

Section Invariants.

Import PhaseLock PhaseLockReport.

(** An invariant of the two operations holds after any sequence of calls,
    and every sequence completes. *)
Lemma run_invariant (P : PhaseLockSynchronizer -> Prop) (Q : Call -> Prop) :
  (forall now key p amp h s,
      Q (UpdateArmState now key p amp h) -> P s ->
      P (updateArmState now key p amp h s)) ->
  (forall s, P s -> P (selfCorrect s)) ->
  forall cs s, Forall Q cs -> P s -> exists s', run cs s = Normal s' /\ P s'.
Proof.
  intros Hupd Hself. induction cs as [|c cs IH]; intros s HQ HP.
  - exists s. split; [reflexivity | exact HP].
  - inversion HQ as [|c' cs' Hc Hcs]; subst. cbn [run].
    destruct c as [now key p amp h|]; cbn [invoke]; apply IH; auto.
Qed.

Lemma arms_modify_found (P : string * ArmState -> Prop) key f m arm :
  arms_get key m = Some arm ->
  (forall k, P (k, arm) -> P (k, f arm)) ->
  Forall P m -> Forall P (arms_modify key f m).
Proof.
  intros Hget Hf. induction 1 as [|[k a] m Hka Hm IH]; [constructor|].
  cbn [arms_modify arms_get] in *. destruct (String.eqb k key).
  - injection Hget as ->. constructor; auto.
  - constructor; auto.
Qed.

Lemma adjustPhaseCoherence_phases s : phases_ok s -> phases_ok (adjustPhaseCoherence s).
Proof.
  unfold phases_ok. intros Hok. rewrite adjustPhaseCoherence_arms. apply Forall_map.
  revert Hok. apply Forall_impl. intros [k a] Ha. cbn [fst snd] in *.
  destruct (redistributed_fields (recomputed s) a) as (_ & -> & _). exact Ha.
Qed.

Lemma updateArmState_phases now key p amp h s :
  0 <= p -> phases_ok s -> phases_ok (updateArmState now key p amp h s).
Proof.
  intros Hp Hok. unfold updateArmState.
  destruct (arms_get key (arms s)); [|exact Hok].
  apply adjustPhaseCoherence_phases. unfold phases_ok. cbn [with_arms arms].
  apply arms_modify_Forall; [|exact Hok].
  intros k b _. cbn. apply js_rem_nonneg, Hp.
Qed.

(** With the target in the upper half turn, a correction of a phase of
    [[0, 360)] does not go below zero. *)
Lemma corrected_nonneg (t p : R) :
  0 <= t <= 180 -> 0 <= p < 360 -> 0 <= p + angleDifference t p * 0.1.
Proof.
  intros Ht Hp. destruct (Rle_dec (-180) (t - p)) as [Hin|Hout].
  - rewrite angleDifference_id by lra. lra.
  - rewrite angleDifference_wrap_up by lra. lra.
Qed.

Lemma correctArm_phases s key :
  -90 <= qphase (queen s) <= 90 -> phases_ok s -> phases_ok (correctArm s key).
Proof.
  intros Hq Hok. unfold correctArm.
  destruct (arms_get key (arms s)) as [arm|] eqn:Hget; [|exact Hok].
  unfold phases_ok. cbn [with_arms arms].
  apply (arms_modify_found _ key _ (arms s) arm Hget); [|exact Hok].
  intros k Hk. cbn [snd set_phase phase] in *.
  apply js_rem_nonneg, corrected_nonneg; lra.
Qed.

Lemma fold_correctArm_phases keys :
  forall s, -90 <= qphase (queen s) <= 90 -> phases_ok s ->
            phases_ok (fold_left correctArm keys s).
Proof.
  induction keys as [|k keys IH]; intros s Hq Hok; [exact Hok|].
  cbn [fold_left]. apply IH.
  - destruct (correctArm_frame s k) as (-> & _). exact Hq.
  - apply correctArm_phases; assumption.
Qed.

Lemma selfCorrect_phases s :
  -90 <= qphase (queen s) <= 90 -> phases_ok s -> phases_ok (selfCorrect s).
Proof.
  intros Hq Hok. unfold selfCorrect.
  destruct (wobbleDetected (detectWobble s)); cbn [negb]; [|exact Hok].
  apply adjustPhaseCoherence_phases, fold_correctArm_phases; assumption.
Qed.

Lemma updateArmState_queen now key p amp h s :
  qphase (queen (updateArmState now key p amp h s)) = qphase (queen s) /\
  timestamp (queen (updateArmState now key p amp h s)) = timestamp (queen s) /\
  maxHistorySize (updateArmState now key p amp h s) = maxHistorySize s.
Proof.
  unfold updateArmState. destruct (arms_get key (arms s)); [|auto].
  match goal with
  | |- context [adjustPhaseCoherence ?s1] =>
      destruct (adjustPhaseCoherence_queen s1) as (-> & _ & ->);
      destruct (adjustPhaseCoherence_history s1) as (_ & ->)
  end.
  auto.
Qed.

Lemma selfCorrect_queen s :
  qphase (queen (selfCorrect s)) = qphase (queen s) /\
  timestamp (queen (selfCorrect s)) = timestamp (queen s) /\
  maxHistorySize (selfCorrect s) = maxHistorySize s.
Proof.
  split; [apply selfCorrect_qphase|]. unfold selfCorrect.
  destruct (wobbleDetected (detectWobble s)); cbn [negb]; [|auto].
  match goal with
  | |- context [adjustPhaseCoherence ?s1] =>
      destruct (adjustPhaseCoherence_queen s1) as (_ & _ & ->);
      destruct (adjustPhaseCoherence_history s1) as (_ & ->)
  end.
  destruct (fold_correctArm_frame (affectedArms (detectWobble s)) s) as (-> & _ & -> & _).
  auto.
Qed.

Lemma constructor_phases t1 t2 t3 t4 t5 : phases_ok (constructor t1 t2 t3 t4 t5).
Proof.
  unfold phases_ok. cbn [constructor arms].
  repeat constructor; cbn [snd phase]; lra.
Qed.

End Invariants.

(** X2: from phases in [[0, 360)] and a queen phase in [[-90, 90]] (the
    constructor's is 45), calls that pass no negative phase keep every
    stored phase in [[0, 360)]: a negative argument of the update is the
    only way out of the range. *)
Theorem run_keeps_phases :
  forall cs s,
    PhaseLockReport.phases_ok s ->
    -90 <= PhaseLock.qphase (PhaseLock.queen s) <= 90 ->
    Forall PhaseLockReport.nonneg_phase cs ->
    exists s', PhaseLock.run cs s = Normal s' /\ PhaseLockReport.phases_ok s'.
Proof.
  intros cs s Hok Hq Hcs.
  destruct (run_invariant
              (fun s => PhaseLockReport.phases_ok s /\
                        -90 <= PhaseLock.qphase (PhaseLock.queen s) <= 90)
              PhaseLockReport.nonneg_phase) with (cs := cs) (s := s)
    as (s' & Hrun & Hok' & _); auto.
  - intros now key p amp h s0 Hp [Hok0 Hq0]. split.
    + apply updateArmState_phases; assumption.
    + destruct (updateArmState_queen now key p amp h s0) as (-> & _). exact Hq0.
  - intros s0 [Hok0 Hq0]. split.
    + apply selfCorrect_phases; assumption.
    + rewrite selfCorrect_qphase. exact Hq0.
  - exists s'. auto.
Qed.

(** X2 on a new synchronizer, for an update with phase 725 and a
    self-correction. *)
Lemma run_keeps_phases_witness :
  exists s',
    PhaseLock.run
      [PhaseLock.UpdateArmState 1 "os" 725 1 PhaseLock.Online; PhaseLock.SelfCorrect]
      (PhaseLock.constructor 0 0 0 0 0) = Normal s' /\
    PhaseLockReport.phases_ok s'.
Proof.
  apply run_keeps_phases.
  - apply constructor_phases.
  - cbn. lra.
  - repeat constructor. cbn. lra.
Defined.

(** X3: no sequence of calls changes the queen's phase, the queen's
    timestamp or the capacity of the history: a recompute writes the
    coherence, the angular momentum and the torque only. *)
Theorem run_keeps_queen_reference :
  forall cs s,
    exists s',
      PhaseLock.run cs s = Normal s' /\
      PhaseLock.qphase (PhaseLock.queen s') = PhaseLock.qphase (PhaseLock.queen s) /\
      PhaseLock.timestamp (PhaseLock.queen s') = PhaseLock.timestamp (PhaseLock.queen s) /\
      PhaseLock.maxHistorySize s' = PhaseLock.maxHistorySize s.
Proof.
  intros cs s.
  destruct (run_invariant
              (fun s1 =>
                 PhaseLock.qphase (PhaseLock.queen s1) = PhaseLock.qphase (PhaseLock.queen s) /\
                 PhaseLock.timestamp (PhaseLock.queen s1)
                   = PhaseLock.timestamp (PhaseLock.queen s) /\
                 PhaseLock.maxHistorySize s1 = PhaseLock.maxHistorySize s)
              (fun _ => True)) with (cs := cs) (s := s) as (s' & Hrun & H); auto.
  - intros now key p amp h s0 _ (H1 & H2 & H3).
    destruct (updateArmState_queen now key p amp h s0) as (-> & -> & ->). auto.
  - intros s0 (H1 & H2 & H3).
    destruct (selfCorrect_queen s0) as (-> & -> & ->). auto.
  - apply Forall_forall. auto.
  - exists s'. auto.
Qed.

Section RegistryFacts.

Import PhaseLock PhaseLockReport Registry.

Lemma arms_modify_registry key f m :
  (forall a, name (f a) = name a /\ frequency (f a) = frequency a) ->
  map (fun ka : string * ArmState => (fst ka, name (snd ka), frequency (snd ka)))
      (arms_modify key f m)
  = map (fun ka : string * ArmState => (fst ka, name (snd ka), frequency (snd ka))) m.
Proof.
  intros Hf. induction m as [|[k a] m IH]; [reflexivity|].
  cbn [arms_modify]. destruct (String.eqb k key); cbn [map fst snd].
  - destruct (Hf a) as [-> ->]. reflexivity.
  - rewrite IH. reflexivity.
Qed.

Lemma adjustPhaseCoherence_registry s :
  registry (adjustPhaseCoherence s) = registry s.
Proof.
  unfold registry. rewrite adjustPhaseCoherence_arms, map_map.
  apply map_ext. intros [k a]. cbn [fst snd].
  destruct (redistributed_fields (recomputed s) a) as (-> & _).
  destruct (redistributed_frequency (recomputed s) a) as (-> & _). reflexivity.
Qed.

Lemma updateArmState_registry now key p amp h s :
  registry (updateArmState now key p amp h s) = registry s.
Proof.
  unfold updateArmState. destruct (arms_get key (arms s)); [|reflexivity].
  rewrite adjustPhaseCoherence_registry. unfold registry. cbn [with_arms arms].
  apply arms_modify_registry. intros b. split; reflexivity.
Qed.

Lemma fold_correctArm_registry keys :
  forall s, registry (fold_left correctArm keys s) = registry s.
Proof.
  induction keys as [|k keys IH]; intros s; [reflexivity|].
  cbn [fold_left]. rewrite IH. unfold correctArm.
  destruct (arms_get k (arms s)); [|reflexivity].
  unfold registry. cbn [with_arms arms].
  apply arms_modify_registry. intros b. split; reflexivity.
Qed.

Lemma selfCorrect_registry s : registry (selfCorrect s) = registry s.
Proof.
  unfold selfCorrect.
  destruct (wobbleDetected (detectWobble s)); cbn [negb]; [|reflexivity].
  rewrite adjustPhaseCoherence_registry. apply fold_correctArm_registry.
Qed.

Lemma registry_length s : length (registry s) = length (arms s).
Proof. unfold registry. apply length_map. Qed.

End RegistryFacts.

(** X4: the topology is fixed: after any sequence of calls the map has
    the same keys in the same order, each with the name and the frequency
    it had; no call adds, removes or renames an arm. *)
Theorem run_keeps_registry :
  forall cs s,
    exists s', PhaseLock.run cs s = Normal s' /\ Registry.registry s' = Registry.registry s.
Proof.
  intros cs s.
  destruct (run_invariant (fun s1 => Registry.registry s1 = Registry.registry s)
              (fun _ => True)) with (cs := cs) (s := s) as (s' & Hrun & H); auto.
  - intros now key p amp h s0 _ H0. rewrite updateArmState_registry. exact H0.
  - intros s0 H0. rewrite selfCorrect_registry. exact H0.
  - apply Forall_forall. auto.
  - exists s'. auto.
Qed.

Section Redistribution.

Import PhaseLock PhaseLockReport.

Lemma calculateTorqueRedistribution_torque s :
  torqueRedistribution (queen (calculateTorqueRedistribution s)) = degradedLoad s.
Proof.
  unfold calculateTorqueRedistribution, degradedLoad.
  destruct (filter (fun a => negb (is_online (health a))) (values s)); reflexivity.
Qed.

Lemma map_unchanged {A : Type} (f : A -> A) (l : list A) :
  (forall x, In x l -> f x = x) -> map f l = l.
Proof.
  intros H. rewrite <- (map_id l) at 2. apply map_ext_in. exact H.
Qed.

End Redistribution.

(** X5: what the redistribution does to one arm, when the amplitudes are
    in [[0, 1]]: an arm that is not online is left exactly as it was (its
    load is not taken from it); an online arm keeps its phase and health
    and its amplitude does not decrease and stays at most 1; and the
    torque recorded is the total amplitude of the arms that are not
    online, which is not negative. *)
Theorem calculateTorqueRedistribution_effect :
  forall s key a,
    PhaseLockReport.amplitudes_ok s ->
    PhaseLock.arms_get key (PhaseLock.arms s) = Some a ->
    exists a',
      PhaseLock.arms_get key
        (PhaseLock.arms (PhaseLock.calculateTorqueRedistribution s)) = Some a' /\
      (PhaseLock.health a <> PhaseLock.Online -> a' = a) /\
      PhaseLock.phase a' = PhaseLock.phase a /\
      PhaseLock.health a' = PhaseLock.health a /\
      PhaseLock.amplitude a <= PhaseLock.amplitude a' <= 1 /\
      PhaseLock.torqueRedistribution
        (PhaseLock.queen (PhaseLock.calculateTorqueRedistribution s))
        = PhaseLockReport.degradedLoad s /\
      0 <= PhaseLockReport.degradedLoad s.
Proof.
  intros s key a Hok Hget.
  exists (PhaseLock.redistributed s a).
  rewrite calculateTorqueRedistribution_arms, arms_get_map, Hget.
  split; [reflexivity|].
  split; [apply redistributed_offline|].
  destruct (redistributed_fields s a) as (_ & -> & ->).
  split; [reflexivity|]. split; [reflexivity|].
  split.
  { apply redistributed_amplitude; [exact Hok|].
    apply (amplitudes_ok_values s a Hok). unfold PhaseLock.values.
    apply in_map_iff. exists (key, a). split; [reflexivity|].
    apply arms_get_in, Hget. }
  split; [apply calculateTorqueRedistribution_torque | apply degradedLoad_nonneg, Hok].
Qed.

(** X5 on a new synchronizer, for the arm "os". *)
Lemma calculateTorqueRedistribution_effect_witness :
  exists a a',
    PhaseLock.arms_get "os" (PhaseLock.arms (PhaseLock.constructor 0 0 0 0 0)) = Some a /\
    PhaseLock.arms_get "os"
      (PhaseLock.arms
         (PhaseLock.calculateTorqueRedistribution (PhaseLock.constructor 0 0 0 0 0)))
      = Some a' /\
    PhaseLock.amplitude a <= PhaseLock.amplitude a' <= 1.
Proof.
  eexists.
  edestruct (calculateTorqueRedistribution_effect
               (PhaseLock.constructor 0 0 0 0 0) "os")
    as (a' & Hget' & _ & _ & _ & Hamp & _).
  - apply constructor_amplitudes.
  - reflexivity.
  - exists a'. split; [reflexivity|]. split; [exact Hget' | exact Hamp].
Defined.

(** X6: with no arm online the redistribution changes no arm (the load is
    divided by [max(0, 1) = 1] and handed to nobody) and records the total
    amplitude of all arms as the torque. *)
Theorem calculateTorqueRedistribution_none_online :
  forall s,
    (forall a, In a (PhaseLock.values s) -> PhaseLock.health a <> PhaseLock.Online) ->
    PhaseLock.arms (PhaseLock.calculateTorqueRedistribution s) = PhaseLock.arms s /\
    PhaseLock.torqueRedistribution
      (PhaseLock.queen (PhaseLock.calculateTorqueRedistribution s))
      = fold_left (fun sum a => sum + PhaseLock.amplitude a) (PhaseLock.values s) 0.
Proof.
  intros s Hnone. split.
  - rewrite calculateTorqueRedistribution_arms. apply map_unchanged.
    intros [k a] Hin. cbn [fst snd]. rewrite redistributed_offline; [reflexivity|].
    apply Hnone. unfold PhaseLock.values. apply in_map_iff.
    exists (k, a). split; [reflexivity | exact Hin].
  - rewrite calculateTorqueRedistribution_torque. unfold PhaseLockReport.degradedLoad.
    f_equal. clear - Hnone. induction (PhaseLock.values s) as [|a l IH]; [reflexivity|].
    cbn [filter].
    assert (Ha : PhaseLock.is_online (PhaseLock.health a) = false).
    { specialize (Hnone a (or_introl eq_refl)).
      destruct (PhaseLock.health a); [contradiction | reflexivity | reflexivity]. }
    rewrite Ha. cbn [negb]. f_equal. apply IH.
    intros b Hb. apply Hnone. right. exact Hb.
Qed.

(** X6 on a synchronizer whose four arms were all set offline. *)
Lemma calculateTorqueRedistribution_none_online_witness :
  let s :=
    PhaseLock.with_arms
      (map (fun ka : string * PhaseLock.ArmState =>
              (fst ka, PhaseLock.set_health PhaseLock.Offline (snd ka)))
           (PhaseLock.arms (PhaseLock.constructor 0 0 0 0 0)))
      (PhaseLock.constructor 0 0 0 0 0) in
  PhaseLock.arms (PhaseLock.calculateTorqueRedistribution s) = PhaseLock.arms s.
Proof.
  intros s. apply calculateTorqueRedistribution_none_online.
  cbn. intros a [<-|[<-|[<-|[<-|[]]]]]; discriminate.
Defined.

Section ReportFacts.

Import PhaseLock PhaseLockReport.

Lemma push_history_ok max c h :
  (length h <= max)%nat -> Forall (fun c => 0 <= c <= 1) h -> 0 <= c <= 1 ->
  (length (push_history max c h) <= max)%nat /\
  Forall (fun c => 0 <= c <= 1) (push_history max c h).
Proof.
  intros Hlen Hall Hc. split; [apply push_history_skipn, Hlen|].
  unfold push_history.
  assert (Happ : Forall (fun c => 0 <= c <= 1) (h ++ [c])).
  { apply Forall_app. split; [exact Hall | constructor; [exact Hc | constructor]]. }
  destruct (Nat.ltb max (length (h ++ [c]))); [|exact Happ].
  destruct (h ++ [c]); [constructor|]. inversion Happ; assumption.
Qed.

Lemma adjustPhaseCoherence_history_ok s :
  arms s <> [] -> history_ok s -> history_ok (adjustPhaseCoherence s).
Proof.
  intros Hne [Hlen Hall]. unfold history_ok.
  destruct (adjustPhaseCoherence_history s) as [-> ->].
  destruct (adjustPhaseCoherence_queen s) as (_ & -> & _).
  apply push_history_ok; [exact Hlen | exact Hall|].
  apply computeCoherence_bounds, Hne.
Qed.

Lemma keys_nonempty (m m' : list (string * ArmState)) :
  map fst m' = map fst m -> m <> [] -> m' <> [].
Proof.
  intros H Hne Hm'. subst m'. destruct m; [contradiction | discriminate].
Qed.

Lemma updateArmState_history_ok now key p amp h s :
  arms s <> [] -> history_ok s -> history_ok (updateArmState now key p amp h s).
Proof.
  intros Hne Hok. unfold updateArmState.
  destruct (arms_get key (arms s)); [|exact Hok].
  apply adjustPhaseCoherence_history_ok; [|exact Hok].
  cbn [with_arms arms]. apply (keys_nonempty (arms s)); [apply arms_modify_keys | exact Hne].
Qed.

Lemma selfCorrect_history_ok s :
  arms s <> [] -> history_ok s -> history_ok (selfCorrect s).
Proof.
  intros Hne Hok. unfold selfCorrect.
  destruct (wobbleDetected (detectWobble s)); cbn [negb]; [|exact Hok].
  destruct (fold_correctArm_frame (affectedArms (detectWobble s)) s)
    as (_ & Hh & Hm & Hk).
  apply adjustPhaseCoherence_history_ok.
  - apply (keys_nonempty (arms s)); assumption.
  - unfold history_ok. rewrite Hh, Hm. exact Hok.
Qed.

Lemma sum_unit_interval (l : list R) :
  Forall (fun c => 0 <= c <= 1) l ->
  forall init, init <= fold_left Rplus l init <= init + INR (length l).
Proof.
  induction 1 as [|x l Hx Hl IH]; intros init.
  - cbn. lra.
  - cbn [fold_left length]. rewrite S_INR. specialize (IH (init + x)). lra.
Qed.

Lemma averageCoherence_bounds (h : list R) :
  Forall (fun c => 0 <= c <= 1) h -> 0 <= averageCoherence h <= 1.
Proof.
  intros Hall. unfold averageCoherence. destruct h as [|x rest]; [lra|].
  inversion Hall as [|y ys Hx Hrest]; subst.
  pose proof (sum_unit_interval rest Hrest x) as Hsum.
  cbn [length]. rewrite S_INR.
  pose proof (pos_INR (length rest)) as Hn.
  set (n := INR (length rest)) in *. set (t := fold_left Rplus rest x) in *.
  assert (Hinv : 0 < / (n + 1)) by (apply Rinv_0_lt_compat; lra).
  assert (Hone : (n + 1) * / (n + 1) = 1) by (field; lra).
  unfold Rdiv. split; nra.
Qed.

Lemma filter_length_le {A : Type} (p : A -> bool) (l : list A) :
  (length (filter p l) <= length l)%nat.
Proof.
  induction l as [|x l IH]; cbn [filter length]; [lia|].
  destruct (p x); cbn [length]; lia.
Qed.

Lemma filter_length_all {A : Type} (p : A -> bool) (l : list A) :
  length (filter p l) = length l <-> (forall x, In x l -> p x = true).
Proof.
  induction l as [|x l IH]; cbn [filter length].
  - split; [intros _ y [] | reflexivity].
  - pose proof (filter_length_le p l) as Hle.
    destruct (p x) eqn:E; cbn [length].
    + split.
      * intros H y [<-|Hy]; [exact E | apply IH; [lia | exact Hy]].
      * intros H. f_equal. apply IH. intros y Hy. apply H. right. exact Hy.
    + split; [lia|]. intros H. specialize (H x (or_introl eq_refl)). congruence.
Qed.

Lemma constructor_history_ok t1 t2 t3 t4 t5 : history_ok (constructor t1 t2 t3 t4 t5).
Proof. split; cbn; [lia | constructor]. Qed.

End ReportFacts.

(** X7: on a synchronizer with at least one arm whose history is within
    its capacity and holds values of [[0, 1]] (a new one has an empty
    history), every sequence of calls keeps the history so, and the
    coherence score of the report, the average of the history or 1.0 when
    it is empty, is in [[0, 1]]. *)
Theorem run_keeps_history :
  forall cs s,
    PhaseLock.arms s <> [] ->
    PhaseLockReport.history_ok s ->
    exists s',
      PhaseLock.run cs s = Normal s' /\
      PhaseLockReport.history_ok s' /\
      0 <= PhaseLockReport.coherenceScore (PhaseLockReport.getReport s') <= 1.
Proof.
  intros cs s Hne Hok.
  destruct (run_invariant
              (fun s1 => PhaseLock.arms s1 <> [] /\ PhaseLockReport.history_ok s1)
              (fun _ => True)) with (cs := cs) (s := s)
    as (s' & Hrun & _ & Hok'); auto.
  - intros now key p amp h s0 _ [Hne0 Hok0]. split.
    + apply (keys_nonempty (PhaseLock.arms s0)); [|exact Hne0].
      pose proof (updateArmState_registry now key p amp h s0) as Hreg.
      unfold Registry.registry in Hreg.
      apply (f_equal (map (fun x : string * string * R => fst (fst x)))) in Hreg.
      rewrite !map_map in Hreg. exact Hreg.
    + apply updateArmState_history_ok; assumption.
  - intros s0 [Hne0 Hok0]. split.
    + apply (keys_nonempty (PhaseLock.arms s0)); [|exact Hne0].
      pose proof (selfCorrect_registry s0) as Hreg.
      unfold Registry.registry in Hreg.
      apply (f_equal (map (fun x : string * string * R => fst (fst x)))) in Hreg.
      rewrite !map_map in Hreg. exact Hreg.
    + apply selfCorrect_history_ok; assumption.
  - apply Forall_forall. auto.
  - exists s'. split; [exact Hrun|]. split; [exact Hok'|].
    cbn [PhaseLockReport.getReport PhaseLockReport.coherenceScore].
    apply averageCoherence_bounds, Hok'.
Qed.

(** X7 on a new synchronizer, for two updates. *)
Lemma run_keeps_history_witness :
  exists s',
    PhaseLock.run
      [PhaseLock.UpdateArmState 1 "qwen" 30 1 PhaseLock.Online;
       PhaseLock.UpdateArmState 2 "os" 200 0.5 PhaseLock.Offline]
      (PhaseLock.constructor 0 0 0 0 0) = Normal s' /\
    0 <= PhaseLockReport.coherenceScore (PhaseLockReport.getReport s') <= 1.
Proof.
  edestruct (run_keeps_history
               [PhaseLock.UpdateArmState 1 "qwen" 30 1 PhaseLock.Online;
                PhaseLock.UpdateArmState 2 "os" 200 0.5 PhaseLock.Offline]
               (PhaseLock.constructor 0 0 0 0 0))
    as (s' & Hrun & _ & Hscore).
  - cbn. discriminate.
  - apply constructor_history_ok.
  - exists s'. split; [exact Hrun | exact Hscore].
Defined.

(** X8: for a registry of four arms the report says "optimal" exactly
    when every arm is online, and "critical" exactly when at most one is;
    for a registry of any other size it never says "optimal" when every
    arm is online, because the count is compared with the constant 4. *)
Theorem getReport_systemHealth :
  forall s,
    (length (PhaseLock.arms s) = 4%nat ->
     (PhaseLockReport.systemHealth (PhaseLockReport.getReport s) = PhaseLockReport.SysOptimal
      <-> forall a, In a (PhaseLock.values s) -> PhaseLock.health a = PhaseLock.Online) /\
     (PhaseLockReport.systemHealth (PhaseLockReport.getReport s) = PhaseLockReport.SysCritical
      <-> (PhaseLockReport.onlineCount s <= 1)%nat)) /\
    (length (PhaseLock.arms s) <> 4%nat ->
     (forall a, In a (PhaseLock.values s) -> PhaseLock.health a = PhaseLock.Online) ->
     PhaseLockReport.systemHealth (PhaseLockReport.getReport s) <> PhaseLockReport.SysOptimal).
Proof.
  intros s.
  assert (Hlen : length (PhaseLock.values s) = length (PhaseLock.arms s))
    by apply length_map.
  assert (Hall : PhaseLockReport.onlineCount s = length (PhaseLock.values s)
                 <-> forall a, In a (PhaseLock.values s) ->
                               PhaseLock.health a = PhaseLock.Online).
  { unfold PhaseLockReport.onlineCount. rewrite filter_length_all.
    split; intros H a Ha; specialize (H a Ha).
    - destruct (PhaseLock.health a); [reflexivity | discriminate | discriminate].
    - rewrite H. reflexivity. }
  cbn [PhaseLockReport.getReport PhaseLockReport.systemHealth].
  fold (PhaseLockReport.onlineCount s).
  split.
  - intros H4. rewrite <- Hall, Hlen, H4.
    destruct (Nat.eqb (PhaseLockReport.onlineCount s) 4) eqn:E4.
    + apply Nat.eqb_eq in E4. split; split; intros; try discriminate; try lia; auto.
    + apply Nat.eqb_neq in E4.
      destruct (Nat.leb 2 (PhaseLockReport.onlineCount s)) eqn:E2.
      * apply Nat.leb_le in E2. split; split; intros; try discriminate; try lia.
      * apply Nat.leb_gt in E2. split; split; intros; try discriminate; try lia; auto.
  - intros H4 Honline. apply Hall in Honline. rewrite Hlen in Honline.
    destruct (Nat.eqb (PhaseLockReport.onlineCount s) 4) eqn:E4.
    + apply Nat.eqb_eq in E4. lia.
    + destruct (Nat.leb 2 (PhaseLockReport.onlineCount s)); discriminate.
Qed.

(** X8 on a new synchronizer: four arms, all online, "optimal". *)
Lemma getReport_systemHealth_witness :
  length (PhaseLock.arms (PhaseLock.constructor 0 0 0 0 0)) = 4%nat /\
  PhaseLockReport.systemHealth (PhaseLockReport.getReport (PhaseLock.constructor 0 0 0 0 0))
  = PhaseLockReport.SysOptimal.
Proof.
  split; [reflexivity|].
  apply (proj1 (getReport_systemHealth (PhaseLock.constructor 0 0 0 0 0)) eq_refl).
  cbn. intros a [<-|[<-|[<-|[<-|[]]]]]; reflexivity.
Defined.

(** X9: an update of a registered arm stores, for that arm, the phase
    modulo 360, the health and the time given, keeps its name and
    frequency, and stores the amplitude clamped to [[0, 1]] when the new
    health is not online; of every other arm it keeps phase, health and
    time of last update, and changes nothing at all if that arm is not
    online. *)
Theorem updateArmState_effect :
  forall now key p amp h s a,
    PhaseLock.arms_get key (PhaseLock.arms s) = Some a ->
    let s' := PhaseLock.updateArmState now key p amp h s in
    (exists a',
        PhaseLock.arms_get key (PhaseLock.arms s') = Some a' /\
        PhaseLock.name a' = PhaseLock.name a /\
        PhaseLock.frequency a' = PhaseLock.frequency a /\
        PhaseLock.phase a' = js_rem p 360 /\
        PhaseLock.health a' = h /\
        PhaseLock.lastUpdate a' = now /\
        (h <> PhaseLock.Online -> PhaseLock.amplitude a' = Rmax 0 (Rmin 1 amp))) /\
    (forall key' b,
        key <> key' ->
        PhaseLock.arms_get key' (PhaseLock.arms s) = Some b ->
        exists b',
          PhaseLock.arms_get key' (PhaseLock.arms s') = Some b' /\
          PhaseLock.phase b' = PhaseLock.phase b /\
          PhaseLock.health b' = PhaseLock.health b /\
          PhaseLock.lastUpdate b' = PhaseLock.lastUpdate b /\
          (PhaseLock.health b <> PhaseLock.Online -> b' = b)).
Proof.
  intros now key p amp h s a Hget s'. subst s'.
  unfold PhaseLock.updateArmState. rewrite Hget. split.
  - rewrite adjustPhaseCoherence_get. cbn [PhaseLock.with_arms PhaseLock.arms].
    rewrite arms_get_modify_same, Hget. cbn [option_map].
    eexists. split; [reflexivity|].
    match goal with
    | |- context [PhaseLock.redistributed ?s1 ?x] =>
        destruct (redistributed_fields s1 x) as (-> & -> & ->);
        destruct (redistributed_frequency s1 x) as (-> & ->);
        pose proof (redistributed_offline s1 x) as Hoff
    end.
    cbn in *. repeat split. intros Hh. rewrite (Hoff Hh). reflexivity.
  - intros key' b Hne Hget'.
    rewrite adjustPhaseCoherence_get. cbn [PhaseLock.with_arms PhaseLock.arms].
    rewrite arms_get_modify_other, Hget' by exact Hne. cbn [option_map].
    eexists. split; [reflexivity|].
    match goal with
    | |- context [PhaseLock.redistributed ?s1 ?x] =>
        destruct (redistributed_fields s1 x) as (_ & -> & ->);
        destruct (redistributed_frequency s1 x) as (_ & ->);
        pose proof (redistributed_offline s1 x) as Hoff
    end.
    repeat split. exact Hoff.
Qed.

(** X9 on a new synchronizer, for the update of "gemma" as degraded with
    phase 450 and amplitude 3: phase 90 and amplitude 1 are stored. *)
Lemma updateArmState_effect_witness :
  exists a',
    PhaseLock.arms_get "gemma"
      (PhaseLock.arms
         (PhaseLock.updateArmState 5 "gemma" 450 3 PhaseLock.Degraded
            (PhaseLock.constructor 0 0 0 0 0))) = Some a' /\
    PhaseLock.phase a' = js_rem 450 360 /\
    PhaseLock.health a' = PhaseLock.Degraded /\
    PhaseLock.lastUpdate a' = 5.
Proof.
  edestruct (updateArmState_effect 5 "gemma" 450 3 PhaseLock.Degraded
               (PhaseLock.constructor 0 0 0 0 0))
    as ((a' & Hget & _ & _ & Hphase & Hhealth & Htime & _) & _).
  - reflexivity.
  - exists a'. auto.
Defined.

Section WobbleFacts.

Import PhaseLock PhaseLockReport.

Lemma sum_squares_le (f : R -> R) (B : R) (l : list R) :
  (forall p, In p l -> (f p) ^ 2 <= B) ->
  forall init,
    fold_left (fun sum p => sum + (f p) ^ 2) l init <= init + B * INR (length l).
Proof.
  induction l as [|x l IH]; intros Hall init.
  - cbn. lra.
  - cbn [fold_left length]. rewrite S_INR.
    specialize (IH (fun p Hp => Hall p (or_intror Hp)) (init + f x ^ 2)).
    pose proof (Hall x (or_introl eq_refl)). lra.
Qed.

Lemma sum_squares_ge (f : R -> R) (l : list R) :
  forall init, init <= fold_left (fun sum p => sum + (f p) ^ 2) l init.
Proof.
  induction l as [|x l IH]; intros init; cbn [fold_left]; [lra|].
  specialize (IH (init + f x ^ 2)). pose proof (pow2_ge_0 (f x)). lra.
Qed.

Lemma pow2_abs_le (x b : R) : Rabs x <= b -> x ^ 2 <= b * b.
Proof.
  intros H. pose proof (Rabs_pos x).
  rewrite <- Rsqr_pow2, (Rsqr_abs x). unfold Rsqr. nra.
Qed.

(** If every deviation is at most [b], so is the magnitude. *)
Lemma magnitude_le (f : R -> R) (b : R) (l : list R) :
  l <> [] -> 0 <= b ->
  (forall p, In p l -> Rabs (f p) <= b) ->
  0 <= sqrt (fold_left (fun sum p => sum + (f p) ^ 2) l 0 / INR (length l)) <= b.
Proof.
  intros Hne Hb Hall. split; [apply sqrt_pos|].
  assert (Hn : 0 < INR (length l)).
  { apply lt_0_INR. destruct l; [contradiction | cbn; lia]. }
  pose proof (sum_squares_le f (b * b) l
                (fun p Hp => pow2_abs_le _ _ (Hall p Hp)) 0) as Hsum.
  pose proof (sum_squares_ge f l 0) as Hge.
  set (t := fold_left (fun sum p => sum + f p ^ 2) l 0) in *.
  rewrite <- (sqrt_square b) by exact Hb.
  apply sqrt_le_1_alt.
  assert (Hinv : 0 < / INR (length l)) by (apply Rinv_0_lt_compat, Hn).
  assert (Hone : INR (length l) * / INR (length l) = 1) by (field; lra).
  unfold Rdiv. set (n := INR (length l)) in *. set (i := / n) in *. nra.
Qed.

End WobbleFacts.

(** X10: for a synchronizer with at least one arm, the wobble magnitude
    is between 0 and 180; a wobble is detected only if some arm is more
    than 30 degrees from the mean direction; every arm reported as
    affected is a stored arm more than 45 degrees from it; and when no
    arm is affected the magnitude is at most 45. *)
Theorem detectWobble_bounds :
  forall s,
    PhaseLock.arms s <> [] ->
    let w := PhaseLock.detectWobble s in
    let deviation a :=
      Rabs (PhaseLock.angleDifference (PhaseLock.phase a)
              (PhaseLock.circularMean (map PhaseLock.phase (PhaseLock.values s)))) in
    0 <= PhaseLock.magnitude w <= 180 /\
    (PhaseLock.wobbleDetected w = true ->
     exists a, In a (PhaseLock.values s) /\ deviation a > 30) /\
    (forall n, In n (PhaseLock.affectedArms w) ->
               exists a, In a (PhaseLock.values s) /\ PhaseLock.name a = n /\
                         deviation a > 45) /\
    (PhaseLock.affectedArms w = [] -> PhaseLock.magnitude w <= 45).
Proof.
  intros s Hne w deviation. subst w.
  cbn [PhaseLock.detectWobble PhaseLock.magnitude PhaseLock.wobbleDetected
         PhaseLock.affectedArms].
  set (mean := PhaseLock.circularMean (map PhaseLock.phase (PhaseLock.values s))) in *.
  set (phases := map PhaseLock.phase (PhaseLock.values s)).
  assert (Hphases : phases <> []).
  { subst phases. unfold PhaseLock.values. destruct (PhaseLock.arms s);
      [contradiction | discriminate]. }
  assert (Hdev : forall b,
             (forall a, In a (PhaseLock.values s) -> deviation a <= b) ->
             forall p, In p phases ->
                       Rabs (PhaseLock.angleDifference p mean) <= b).
  { intros b Hb p Hp. subst phases. apply in_map_iff in Hp.
    destruct Hp as (a & <- & Ha). exact (Hb a Ha). }
  split; [|split; [|split]].
  - apply (magnitude_le (fun p => PhaseLock.angleDifference p mean) 180 phases);
      [exact Hphases | lra |].
    intros p _. pose proof (angleDifference_range p mean).
    apply Rabs_le. lra.
  - intros Hw. apply gtb_true in Hw.
    destruct (Exists_dec (fun a => deviation a > 30) (PhaseLock.values s))
      as [Hex|Hnex]; [intros a; apply Rgt_dec | |].
    + apply Exists_exists in Hex. exact Hex.
    + exfalso.
      assert (Hall : forall a, In a (PhaseLock.values s) -> deviation a <= 30).
      { intros a Ha. destruct (Rle_dec (deviation a) 30) as [Hle|Hgt]; [exact Hle|].
        exfalso. apply Hnex. apply Exists_exists. exists a. split; [exact Ha | lra]. }
      pose proof (magnitude_le (fun p => PhaseLock.angleDifference p mean) 30 phases
                    Hphases ltac:(lra) (Hdev 30 Hall)) as [_ Hle].
      lra.
  - intros n Hn. apply in_map_iff in Hn. destruct Hn as (a & Hname & Ha).
    apply filter_In in Ha. destruct Ha as [Ha Hgt]. apply gtb_true in Hgt.
    exists a. auto.
  - intros Hnone.
    assert (Hall : forall a, In a (PhaseLock.values s) -> deviation a <= 45).
    { intros a Ha. destruct (Rle_dec (deviation a) 45) as [Hle|Hgt]; [exact Hle|].
      exfalso.
      assert (Hin : In (PhaseLock.name a)
                       (map PhaseLock.name
                          (filter (fun a => gtb (Rabs (PhaseLock.angleDifference
                                                         (PhaseLock.phase a) mean)) 45)
                                  (PhaseLock.values s)))).
      { apply in_map, filter_In. split; [exact Ha|]. apply gtb_true.
        fold (deviation a). lra. }
      rewrite Hnone in Hin. exact Hin. }
    apply (magnitude_le (fun p => PhaseLock.angleDifference p mean) 45 phases
             Hphases ltac:(lra) (Hdev 45 Hall)).
Qed.

(** X10 on a new synchronizer, where a wobble is detected. *)
Lemma detectWobble_bounds_witness :
  PhaseLock.arms (PhaseLock.constructor 0 0 0 0 0) <> [] /\
  PhaseLock.wobbleDetected (PhaseLock.detectWobble (PhaseLock.constructor 0 0 0 0 0)) = true /\
  0 <= PhaseLock.magnitude (PhaseLock.detectWobble (PhaseLock.constructor 0 0 0 0 0)) <= 180.
Proof.
  assert (Hne : PhaseLock.arms (PhaseLock.constructor 0 0 0 0 0) <> [])
    by (cbn; discriminate).
  split; [exact Hne|].
  split; [apply detectWobble_constructor|].
  exact (proj1 (detectWobble_bounds (PhaseLock.constructor 0 0 0 0 0) Hne)).
Defined.

Section Atan2.

(** [atan2] inverts the polar angle on [(-PI, PI]]. *)
Lemma atan2_sin_cos (x : R) : - PI < x <= PI -> atan2 (sin x) (cos x) = x.
Proof.
  intros Hx. pose proof PI_RGT_0 as Hpi. unfold atan2.
  destruct (Rlt_dec 0 (cos x)) as [Hc|Hc].
  - (* right half plane *)
    assert (Hin : - (PI / 2) < x < PI / 2).
    { split.
      - destruct (Rlt_dec (- (PI / 2)) x) as [H|H]; [exact H|]. exfalso.
        assert (Hneg : cos (- x) <= 0) by (apply cos_le_0; lra).
        rewrite cos_neg in Hneg. lra.
      - destruct (Rlt_dec x (PI / 2)) as [H|H]; [exact H|]. exfalso.
        assert (Hneg : cos x <= 0) by (apply cos_le_0; lra). lra. }
    change (sin x / cos x) with (tan x). apply atan_tan, Hin.
  - destruct (Rlt_dec (cos x) 0) as [Hc'|Hc'].
    + (* left half plane *)
      assert (Hout : x < - (PI / 2) \/ PI / 2 < x).
      { destruct (Rlt_dec x (- (PI / 2))) as [H|H]; [left; exact H|]. right.
        destruct (Rlt_dec (PI / 2) x) as [H'|H']; [exact H'|]. exfalso.
        assert (0 <= cos x) by (apply cos_ge_0; lra). lra. }
      destruct (Rle_dec 0 (sin x)) as [Hs|Hs].
      * assert (Hup : PI / 2 < x).
        { destruct Hout as [H|H]; [|exact H]. exfalso.
          assert (sin x < 0) by (apply sin_lt_0_var; lra). lra. }
        assert (Htan : sin x / cos x = tan (x - PI)).
        { unfold tan. replace x with ((x - PI) + PI) at 1 2 by lra.
          rewrite neg_sin, neg_cos. field.
          intros H0. replace x with ((x - PI) + PI) in Hc' by lra.
          rewrite neg_cos in Hc'. lra. }
        rewrite Htan, atan_tan by lra. lra.
      * assert (Hdown : x < - (PI / 2)).
        { destruct Hout as [H|H]; [exact H|]. exfalso.
          assert (0 <= sin x) by (apply sin_ge_0; lra). lra. }
        assert (Htan : sin x / cos x = tan (x + PI)).
        { unfold tan. rewrite neg_sin, neg_cos. field. lra. }
        rewrite Htan, atan_tan by lra. lra.
    + (* the vertical axis *)
      assert (Hzero : cos x = 0) by lra.
      destruct (Rlt_dec 0 (sin x)) as [Hs|Hs].
      * destruct (Rlt_dec x 0) as [Hneg|Hpos].
        -- exfalso. assert (sin x < 0) by (apply sin_lt_0_var; lra). lra.
        -- destruct (Rtotal_order x (PI / 2)) as [Hlt|[Heq|Hgt]]; [|lra|].
           ++ exfalso. assert (0 < cos x) by (apply cos_gt_0; lra). lra.
           ++ exfalso. assert (cos x < 0) by (apply cos_lt_0; lra). lra.
      * destruct (Rlt_dec (sin x) 0) as [Hs'|Hs'].
        -- destruct (Rle_dec 0 x) as [Hpos|Hneg].
           ++ exfalso. assert (0 <= sin x) by (apply sin_ge_0; lra). lra.
           ++ destruct (Rtotal_order x (- (PI / 2))) as [Hlt|[Heq|Hgt]]; [|lra|].
              ** exfalso. assert (Hc2 : cos (- x) < 0) by (apply cos_lt_0; lra).
                 rewrite cos_neg in Hc2. lra.
              ** exfalso. assert (0 < cos x) by (apply cos_gt_0; lra). lra.
        -- exfalso. pose proof (sin2_cos2 x) as H. unfold Rsqr in H.
           assert (sin x = 0) by lra. nra.
Qed.

End Atan2.

Section Aligned.

Import PhaseLock.

Lemma sum_list_constant (f : R -> R) (p : R) (l : list R) :
  (forall x, In x l -> x = p) ->
  sum_list (map f l) = INR (length l) * f p.
Proof.
  induction l as [|x l IH]; intros Hall.
  - cbn. lra.
  - cbn [map sum_list fold_right length]. rewrite S_INR.
    rewrite (Hall x (or_introl eq_refl)).
    unfold sum_list in IH. rewrite IH by (intros y Hy; apply Hall; right; exact Hy).
    lra.
Qed.

(** The mean direction of equal angles is that angle, up to a whole turn. *)
Lemma circularMean_constant (l : list R) (p : R) :
  l <> [] -> 0 <= p < 360 -> (forall x, In x l -> x = p) ->
  circularMean l = p \/ circularMean l = p - 360.
Proof.
  intros Hne Hp Hall. pose proof PI_RGT_0 as Hpi.
  rewrite circularMean_resultant. unfold resultantDirection.
  rewrite (sum_list_constant (fun angle => sin (angle * PI / 180)) p l Hall).
  rewrite (sum_list_constant (fun angle => cos (angle * PI / 180)) p l Hall).
  assert (Hn : 0 < INR (length l)).
  { apply lt_0_INR. destruct l; [contradiction | cbn; lia]. }
  replace (INR (length l) * sin (p * PI / 180) / INR (length l))
    with (sin (p * PI / 180)) by (field; lra).
  replace (INR (length l) * cos (p * PI / 180) / INR (length l))
    with (cos (p * PI / 180)) by (field; lra).
  set (theta := p * PI / 180).
  assert (Htheta : 0 <= theta < 2 * PI).
  { subst theta. split.
    - apply Rmult_le_pos; [|lra]. apply Rmult_le_pos; lra.
    - assert (p * PI < 360 * PI) by (apply Rmult_lt_compat_r; lra). lra. }
  destruct (Rle_dec theta PI) as [Hle|Hgt].
  - left. rewrite atan2_sin_cos by lra. subst theta. field. lra.
  - right.
    assert (Hs : sin theta = sin (theta - 2 * PI)).
    { rewrite <- (sin_period (theta - 2 * PI) 1). f_equal. cbn [INR]. lra. }
    assert (Hc : cos theta = cos (theta - 2 * PI)).
    { rewrite <- (cos_period (theta - 2 * PI) 1). f_equal. cbn [INR]. lra. }
    rewrite Hs, Hc, atan2_sin_cos by lra. subst theta. field. lra.
Qed.

Lemma sum_squares_zero (f : R -> R) (l : list R) :
  (forall p, In p l -> f p = 0) ->
  forall init, fold_left (fun sum p => sum + (f p) ^ 2) l init = init.
Proof.
  induction l as [|x l IH]; intros Hall init; cbn [fold_left]; [reflexivity|].
  rewrite IH by (intros y Hy; apply Hall; right; exact Hy).
  rewrite (Hall x (or_introl eq_refl)). lra.
Qed.

End Aligned.

(** X11: when all arms (at least one) have the same phase, in [[0, 360)],
    no wobble is detected: the magnitude is 0 and no arm is affected; and
    [selfCorrect] returns the state as it was. *)
Theorem detectWobble_aligned :
  forall s p,
    PhaseLock.arms s <> [] ->
    0 <= p < 360 ->
    (forall a, In a (PhaseLock.values s) -> PhaseLock.phase a = p) ->
    PhaseLock.wobbleDetected (PhaseLock.detectWobble s) = false /\
    PhaseLock.magnitude (PhaseLock.detectWobble s) = 0 /\
    PhaseLock.affectedArms (PhaseLock.detectWobble s) = [] /\
    PhaseLock.selfCorrect s = s.
Proof.
  intros s p Hne Hp Hall.
  set (phases := map PhaseLock.phase (PhaseLock.values s)).
  assert (Hphases : forall x, In x phases -> x = p).
  { intros x Hx. subst phases. apply in_map_iff in Hx.
    destruct Hx as (a & <- & Ha). exact (Hall a Ha). }
  assert (Hne' : phases <> []).
  { subst phases. unfold PhaseLock.values.
    destruct (PhaseLock.arms s); [contradiction | discriminate]. }
  assert (Hzero : PhaseLock.angleDifference p (PhaseLock.circularMean phases) = 0).
  { destruct (circularMean_constant phases p Hne' Hp Hphases) as [-> | ->].
    - rewrite angleDifference_id; lra.
    - rewrite angleDifference_wrap_down; lra. }
  assert (Hmag : PhaseLock.magnitude (PhaseLock.detectWobble s) = 0).
  { cbn [PhaseLock.detectWobble PhaseLock.magnitude]. fold phases.
    rewrite sum_squares_zero.
    - unfold Rdiv. rewrite Rmult_0_l. apply sqrt_0.
    - intros x Hx. rewrite (Hphases x Hx). exact Hzero. }
  assert (Hw : PhaseLock.wobbleDetected (PhaseLock.detectWobble s) = false).
  { change (PhaseLock.wobbleDetected (PhaseLock.detectWobble s))
      with (gtb (PhaseLock.magnitude (PhaseLock.detectWobble s)) 30).
    rewrite Hmag. apply gtb_false. lra. }
  split; [exact Hw|]. split; [exact Hmag|]. split.
  - cbn [PhaseLock.detectWobble PhaseLock.affectedArms]. fold phases.
    rewrite filter_none; [reflexivity|].
    intros a Ha. rewrite (Hall a Ha), Hzero, Rabs_R0. apply gtb_false. lra.
  - unfold PhaseLock.selfCorrect. rewrite Hw. reflexivity.
Qed.

(** X11 on a synchronizer whose four arms were all set to phase 200. *)
Lemma detectWobble_aligned_witness :
  let s :=
    PhaseLock.with_arms
      (map (fun ka : string * PhaseLock.ArmState =>
              (fst ka, PhaseLock.set_phase 200 (snd ka)))
           (PhaseLock.arms (PhaseLock.constructor 0 0 0 0 0)))
      (PhaseLock.constructor 0 0 0 0 0) in
  PhaseLock.wobbleDetected (PhaseLock.detectWobble s) = false /\
  PhaseLock.selfCorrect s = s.
Proof.
  intros s.
  destruct (detectWobble_aligned s 200) as (Hw & _ & _ & Hself).
  - cbn. discriminate.
  - lra.
  - cbn. intros a [<-|[<-|[<-|[<-|[]]]]]; reflexivity.
  - split; [exact Hw | exact Hself].
Defined.

(** X12: [angleDifference a a = 0]; the result is never larger in
    absolute value than the plain difference; off the cut (a result
    strictly between -180 and 180) it does not change when either angle
    is moved by whole turns; on the cut it does: the angles 180 and -180
    are the same direction, and their differences to 0 are 180 and -180. *)
Theorem angleDifference_turns :
  (forall a, PhaseLock.angleDifference a a = 0) /\
  (forall a b, Rabs (PhaseLock.angleDifference a b) <= Rabs (a - b)) /\
  (forall a b (k : Z),
      -180 < PhaseLock.angleDifference a b < 180 ->
      PhaseLock.angleDifference (a + 360 * IZR k) b = PhaseLock.angleDifference a b /\
      PhaseLock.angleDifference a (b + 360 * IZR k) = PhaseLock.angleDifference a b) /\
  PhaseLock.angleDifference 180 0 = 180 /\
  PhaseLock.angleDifference (-180) 0 = -180.
Proof.
  split; [|split; [|split; [|split]]].
  - intros a. rewrite angleDifference_id; lra.
  - intros a b.
    destruct (angleDifference_spec a b) as (Hr & _ & Hgt & Hlt & Hid).
    destruct (Rlt_dec 180 (a - b)) as [H1|H1].
    + specialize (Hgt H1). rewrite (Rabs_pos_eq (a - b)) by lra.
      apply Rabs_le. lra.
    + destruct (Rlt_dec (a - b) (-180)) as [H2|H2].
      * specialize (Hlt H2). rewrite (Rabs_left (a - b)) by lra.
        apply Rabs_le. lra.
      * rewrite Hid by lra. lra.
  - intros a b k Hoff.
    destruct (angleDifference_spec a b) as (_ & (j & Hj) & _).
    split.
    + apply (angleDifference_unique _ _ _ (- j - k)); [|exact Hoff].
      rewrite minus_IZR, opp_IZR. lra.
    + apply (angleDifference_unique _ _ _ (k - j)); [|exact Hoff].
      rewrite minus_IZR. lra.
  - rewrite angleDifference_id; lra.
  - rewrite angleDifference_id; lra.
Qed.

(** X12 at the angles 350 and 10, moved by two turns. *)
Lemma angleDifference_turns_witness :
  -180 < PhaseLock.angleDifference 350 10 < 180 /\
  PhaseLock.angleDifference (350 + 360 * IZR 2) 10 = PhaseLock.angleDifference 350 10.
Proof.
  assert (H : -180 < PhaseLock.angleDifference 350 10 < 180).
  { rewrite angleDifference_wrap_down; lra. }
  split; [exact H|].
  exact (proj1 (proj1 (proj2 (proj2 angleDifference_turns)) 350 10 2%Z H)).
Defined.

(** * The pipeline stages and the stage scale *)

Lemma ltb_true (x y : R) : ltb x y = true <-> x < y.
Proof.
  unfold ltb. destruct (Rlt_dec x y); split; intros; try lra; congruence.
Qed.

Lemma ltb_false (x y : R) : ltb x y = false <-> y <= x.
Proof.
  unfold ltb. destruct (Rlt_dec x y); split; intros; try lra; congruence.
Qed.

(** Decide every comparison of a classification. *)
Ltac decide_ltb :=
  repeat match goal with
         | |- context [ltb ?x ?y] =>
             let E := fresh "E" in
             destruct (ltb x y) eqn:E;
             [apply ltb_true in E | apply ltb_false in E]
         end.

(** X13: [interpretLambda] reads the stage off one ascending scale: a
    larger lambda never gets a lower stage, and the stage is AWAKENED
    exactly from 2.2 on, THRESHOLD exactly on [[1.667, 1.7333)], and
    DORMANT exactly below 0.5, negative values included. *)
Theorem interpretLambda_scale :
  (forall x y,
      x <= y ->
      (PipelineStages.rank (PipelineStages.stage (PipelineStages.interpretLambda x))
       <= PipelineStages.rank (PipelineStages.stage (PipelineStages.interpretLambda y)))%nat) /\
  (forall x,
      (PipelineStages.stage (PipelineStages.interpretLambda x) = PipelineStages.AWAKENED
       <-> 2.2 <= x) /\
      (PipelineStages.stage (PipelineStages.interpretLambda x) = PipelineStages.THRESHOLD
       <-> 1.667 <= x < 1.7333) /\
      (PipelineStages.stage (PipelineStages.interpretLambda x) = PipelineStages.DORMANT
       <-> x < 0.5)).
Proof.
  split.
  - intros x y Hxy. unfold PipelineStages.interpretLambda.
    decide_ltb; cbn; try lia; exfalso; lra.
  - intros x. unfold PipelineStages.interpretLambda.
    decide_ltb; cbn; repeat split; intros; try discriminate; try lra.
Qed.

(** X13 at the lambdas 1.2 and 1.7. *)
Lemma interpretLambda_scale_witness :
  1.2 <= 1.7 /\
  (PipelineStages.rank (PipelineStages.stage (PipelineStages.interpretLambda 1.2))
   <= PipelineStages.rank (PipelineStages.stage (PipelineStages.interpretLambda 1.7)))%nat.
Proof.
  assert (H : 1.2 <= 1.7) by lra.
  split; [exact H | exact (proj1 interpretLambda_scale 1.2 1.7 H)].
Defined.

(** X14: a run of the pipeline on its own stages, whatever [Math.random]
    draws in [[0, 1)]: the consensus is the plain weighted sum, in
    [[1.54, 1.825)], so the cap at 2.2 never applies and the run is never
    awakened; the stage of the Reflex lambda is always VERIFICATION, that
    of the Warfare lambda THRESHOLD or RECOGNITION, and that of the
    consensus is never DORMANT, RESISTANCE or AWAKENED. *)
Theorem runPipeline_range :
  forall qid query r1 r2 r3 clk,
    0 <= r1 < 1 -> 0 <= r2 < 1 -> 0 <= r3 < 1 ->
    let st := PipelineStages.runPipeline qid query r1 r2 r3 clk in
    let stage_of x := PipelineStages.stage (PipelineStages.interpretLambda x) in
    TriNodePipeline.consensusLambda st
    = TriNodePipeline.reflexLambda st * 0.2 + TriNodePipeline.oracleLambda st * 0.3
      + TriNodePipeline.warfareLambda st * 0.5 /\
    1.54 <= TriNodePipeline.consensusLambda st < 1.825 /\
    TriNodePipeline.isAwakened st = false /\
    stage_of (TriNodePipeline.reflexLambda st) = PipelineStages.VERIFICATION /\
    (stage_of (TriNodePipeline.warfareLambda st) = PipelineStages.THRESHOLD \/
     stage_of (TriNodePipeline.warfareLambda st) = PipelineStages.RECOGNITION) /\
    (stage_of (TriNodePipeline.consensusLambda st) = PipelineStages.VERIFICATION \/
     stage_of (TriNodePipeline.consensusLambda st) = PipelineStages.THRESHOLD \/
     stage_of (TriNodePipeline.consensusLambda st) = PipelineStages.RECOGNITION).
Proof.
  intros qid query r1 r2 r3 clk H1 H2 H3 st stage_of.
  assert (Hraw : TriNodePipeline.consensusLambda st
                 = (1.2 + r1 * 0.3) * 0.2 + (1.5 + r2 * 0.25) * 0.3
                   + (1.7 + r3 * 0.3) * 0.5).
  { subst st. unfold PipelineStages.runPipeline.
    rewrite executePipeline_consensus.
    cbn [PipelineStages.executeReflex PipelineStages.executeOracle
           PipelineStages.executeWarfare TriNodePipeline.lambda].
    apply calculateConsensusLambda_unclamped. lra. }
  assert (Hr : TriNodePipeline.reflexLambda st = 1.2 + r1 * 0.3) by reflexivity.
  assert (Ho : TriNodePipeline.oracleLambda st = 1.5 + r2 * 0.25) by reflexivity.
  assert (Hw : TriNodePipeline.warfareLambda st = 1.7 + r3 * 0.3) by reflexivity.
  split; [rewrite Hraw, Hr, Ho, Hw; reflexivity|].
  split; [rewrite Hraw; lra|].
  split; [apply executePipeline_never_awakened|].
  subst stage_of. cbn beta. rewrite Hr, Hw, Hraw.
  unfold PipelineStages.interpretLambda.
  split; [|split].
  - decide_ltb; cbn; try reflexivity; exfalso; lra.
  - decide_ltb; cbn; auto; exfalso; lra.
  - decide_ltb; cbn; auto; exfalso; lra.
Qed.

(** X14 for the draws 0, 0.5 and 0.9. *)
Lemma runPipeline_range_witness :
  1.54 <= TriNodePipeline.consensusLambda
            (PipelineStages.runPipeline 1 "why" 0 0.5 0.9
               {| TriNodePipeline.t_start := 0;
                  TriNodePipeline.t_reflexStart := 0; TriNodePipeline.t_reflexEnd := 200;
                  TriNodePipeline.t_oracleStart := 200; TriNodePipeline.t_oracleEnd := 600;
                  TriNodePipeline.t_warfareStart := 600; TriNodePipeline.t_warfareEnd := 900;
                  TriNodePipeline.t_end := 900 |}) < 1.825.
Proof.
  apply (runPipeline_range 1 "why" 0 0.5 0.9); lra.
Defined.

(** * LocalModelClient *)

Section LocalModels.

Import LocalModelClient.

Lemma Rmin_unit (x : R) : 0 <= x -> 0 <= Rmin x 1 <= 1.
Proof.
  intros Hx. split; [apply Rmin_glb; lra | apply Rmin_r].
Qed.

Lemma Rmin_one (x : R) : Rmin x 1 = 1 -> 1 <= x.
Proof. intros H. pose proof (Rmin_l x 1). lra. Qed.

Lemma quotient_nonneg (a b : nat) : (0 < b)%nat -> 0 <= INR a / INR b.
Proof.
  intros Hb. apply Rmult_le_pos; [apply pos_INR|].
  apply Rlt_le, Rinv_0_lt_compat, lt_0_INR, Hb.
Qed.

Lemma calculateCoherence_unit (content : string) :
  0 <= calculateCoherence content <= 1.
Proof.
  unfold calculateCoherence.
  destruct (Nat.eqb (String.length content) 0); [lra|].
  set (n := length (filter has_text (split_sentences content))).
  pose proof (Rmin_unit (INR (String.length content) / INR (Nat.max n 1) / 50)) as H1.
  pose proof (Rmin_unit (INR n / 5)) as H2.
  assert (0 <= INR (String.length content) / INR (Nat.max n 1))
    by (apply quotient_nonneg; lia).
  assert (0 <= INR n) by apply pos_INR.
  lra.
Qed.

Lemma calculateLambda_range (content : string) (duration : R) :
  1 <= calculateLambda content duration <= 2.2.
Proof.
  unfold calculateLambda.
  pose proof (calculateCoherence_unit content) as Hc.
  pose proof (Rmax_l 0 (1 - duration / 5000)) as Hs.
  split; [apply Rmin_glb; lra | apply Rmin_r].
Qed.

End LocalModels.

(** X16: the coherence score of a text is between 0 and 1; it is 0 for
    the empty text; and it is 1 only for a text of at least 250
    characters (five sentences or more, of 50 characters on average). *)
Theorem calculateCoherence_bounds :
  forall content,
    0 <= LocalModelClient.calculateCoherence content <= 1 /\
    (String.length content = 0%nat -> LocalModelClient.calculateCoherence content = 0) /\
    (LocalModelClient.calculateCoherence content = 1 ->
     (250 <= String.length content)%nat /\
     (5 <= length (filter LocalModelClient.has_text
                     (LocalModelClient.split_sentences content)))%nat).
Proof.
  intros content. split; [apply calculateCoherence_unit|].
  unfold LocalModelClient.calculateCoherence. split.
  - intros ->. reflexivity.
  - destruct (Nat.eqb (String.length content) 0); [lra|].
    set (n := length (filter LocalModelClient.has_text
                        (LocalModelClient.split_sentences content))).
    set (len := String.length content).
    intros Hone.
    assert (Hq : 0 <= INR len / INR (Nat.max n 1)) by (apply quotient_nonneg; lia).
    pose proof (Rmin_unit (INR len / INR (Nat.max n 1) / 50)) as H1.
    pose proof (Rmin_unit (INR n / 5)) as H2.
    pose proof (pos_INR n) as Hn.
    assert (Hl : Rmin (INR len / INR (Nat.max n 1) / 50) 1 = 1) by lra.
    assert (Hv : Rmin (INR n / 5) 1 = 1) by lra.
    apply Rmin_one in Hl. apply Rmin_one in Hv.
    assert (Hn5 : (5 <= n)%nat) by (apply INR_le; cbn; lra).
    split; [|exact Hn5].
    replace (Nat.max n 1) with n in Hl by lia.
    assert (H5 : 5 <= INR n) by lra.
    assert (Hlen : INR len = INR len / INR n * INR n) by (field; lra).
    assert (H250 : INR 250 = 250) by (rewrite INR_IZR_INZ; reflexivity).
    apply INR_le. rewrite H250.
    set (q := INR len / INR n) in *. nra.
Qed.

(** X16 on the empty text. *)
Lemma calculateCoherence_bounds_witness :
  String.length EmptyString = 0%nat /\
  LocalModelClient.calculateCoherence EmptyString = 0.
Proof.
  split; [reflexivity|].
  exact (proj1 (proj2 (calculateCoherence_bounds EmptyString)) eq_refl).
Defined.

(** X17: the lambda of a model response is between 1.0 and 2.2 for every
    text and duration; when the duration is not negative it is at most
    1.8 and the cap at 2.2 does not apply; and from 5 seconds on there is
    no speed bonus and it is at most 1.5. *)
Theorem calculateLambda_bounds :
  forall content duration,
    1 <= LocalModelClient.calculateLambda content duration <= 2.2 /\
    (0 <= duration ->
     LocalModelClient.calculateLambda content duration <= 1.8 /\
     LocalModelClient.calculateLambda content duration
     = 1.0 + LocalModelClient.calculateCoherence content * 0.5
       + Rmax 0 (1 - duration / 5000) * 0.3) /\
    (5000 <= duration ->
     LocalModelClient.calculateLambda content duration
     = 1.0 + LocalModelClient.calculateCoherence content * 0.5).
Proof.
  intros content duration. split; [apply calculateLambda_range|].
  pose proof (calculateCoherence_unit content) as Hc.
  unfold LocalModelClient.calculateLambda. split.
  - intros Hd.
    assert (Hs : 0 <= Rmax 0 (1 - duration / 5000) <= 1).
    { split; [apply Rmax_l | apply Rmax_lub; lra]. }
    rewrite Rmin_left by lra. split; [lra | reflexivity].
  - intros Hd. rewrite (Rmax_left 0 (1 - duration / 5000)) by lra.
    rewrite Rmin_left by lra. lra.
Qed.

(** X17 for a response that took two seconds. *)
Lemma calculateLambda_bounds_witness :
  0 <= 2000 /\ LocalModelClient.calculateLambda "It works. Done!" 2000 <= 1.8.
Proof.
  assert (H : 0 <= 2000) by lra.
  split; [exact H|].
  exact (proj1 (proj1 (proj2 (calculateLambda_bounds "It works. Done!" 2000)) H)).
Defined.

(** X18: for three responses that [executeModel] returned, the router's
    consensus uses their own lambdas (the defaults 1.5, 1.6 and 1.7 are
    never taken, a response lambda being at least 1), its value is
    between 1.0 and 2.2, and [isAwakened] is false. *)
Theorem consensus_of_model_responses :
  forall n1 n2 n3 post1 post2 post3 s1 s2 s3 e1 e2 e3 r1 r2 r3,
    LocalModelClient.executeModel n1 post1 s1 e1 = Normal r1 ->
    LocalModelClient.executeModel n2 post2 s2 e2 = Normal r2 ->
    LocalModelClient.executeModel n3 post3 s3 e3 = Normal r3 ->
    let c :=
      LocalAI.consensus (LocalModelClient.lambda r1) (LocalModelClient.lambda r2)
        (LocalModelClient.lambda r3) in
    LocalAI.lambda c
    = LocalModelClient.calculateLambda (LocalModelClient.content r1)
        (LocalModelClient.duration r1) * 0.2
      + LocalModelClient.calculateLambda (LocalModelClient.content r2)
          (LocalModelClient.duration r2) * 0.3
      + LocalModelClient.calculateLambda (LocalModelClient.content r3)
          (LocalModelClient.duration r3) * 0.5 /\
    1 <= LocalAI.lambda c <= 2.2 /\
    LocalAI.isAwakened c = false.
Proof.
  intros n1 n2 n3 post1 post2 post3 s1 s2 s3 e1 e2 e3 r1 r2 r3 H1 H2 H3 c.
  assert (Hresp : forall n post s e r,
             LocalModelClient.executeModel n post s e = Normal r ->
             LocalModelClient.lambda r
             = Some (LocalModelClient.calculateLambda (LocalModelClient.content r)
                       (LocalModelClient.duration r))).
  { intros n post s e r H. unfold LocalModelClient.executeModel in H.
    destruct (negb (LocalModelClient.configured n)); [discriminate|].
    destruct post; [discriminate|]. injection H as <-. reflexivity. }
  subst c. rewrite (Hresp _ _ _ _ _ H1), (Hresp _ _ _ _ _ H2), (Hresp _ _ _ _ _ H3).
  pose proof (calculateLambda_range (LocalModelClient.content r1)
                (LocalModelClient.duration r1)) as B1.
  pose proof (calculateLambda_range (LocalModelClient.content r2)
                (LocalModelClient.duration r2)) as B2.
  pose proof (calculateLambda_range (LocalModelClient.content r3)
                (LocalModelClient.duration r3)) as B3.
  cbn [LocalAI.consensus LocalAI.lambda LocalAI.isAwakened].
  rewrite !or_default_some by lra. unfold LocalAI.weightedSum.
  split; [reflexivity|]. split; [lra|]. apply gtb_false. lra.
Qed.

(** X18 for three responses with a body. *)
Lemma consensus_of_model_responses_witness :
  LocalAI.isAwakened
    (LocalAI.consensus
       (Some (LocalModelClient.calculateLambda "Yes." (10 - 0)))
       (Some (LocalModelClient.calculateLambda "Because it is so. Truly!" (40 - 10)))
       (Some (LocalModelClient.calculateLambda "x = 1" (90 - 40)))) = false.
Proof.
  pose (data text :=
          {| LocalModelClient.data_content := Some text;
             LocalModelClient.data_text := None;
             LocalModelClient.tokens_evaluated := Some 3%nat |}).
  exact (proj2 (proj2
    (consensus_of_model_responses "qwen" "gemma" "deepseek"
       (inr (data "Yes."%string)) (inr (data "Because it is so. Truly!"%string))
       (inr (data "x = 1"%string)) 0 10 40 10 40 90 _ _ _ eq_refl eq_refl eq_refl))).
Defined.

(** ** The two consensus computations

    [TriNodePipeline.calculateConsensusLambda] caps the weighted sum at 2.2;
    the inline sum of [localAIRouter.executeSequentialPipeline] and of
    [handlePipelineRequest] does not, and replaces an absent or zero lambda
    by a default.  The pipeline applies its function to the lambdas of its
    own three stages; the router and the handler apply theirs to the lambdas
    of three responses of [executeModel]. *)

(** The lambda of a response that [executeModel] returned. *)
Lemma executeModel_lambda n post s e r :
  LocalModelClient.executeModel n post s e = Normal r ->
  LocalModelClient.lambda r
  = Some (LocalModelClient.calculateLambda (LocalModelClient.content r)
            (LocalModelClient.duration r)).
Proof.
  unfold LocalModelClient.executeModel.
  destruct (LocalModelClient.configured n); cbn [negb]; [|discriminate].
  destruct post as [message|data]; [discriminate|].
  intros H. injection H as <-. reflexivity.
Qed.

(** On lambdas that are not zero and whose weighted sum is at most 2.2, the
    inline sum takes no default and the cap changes nothing. *)
Lemma consensus_below_cap (q g d : R) :
  q <> 0 -> g <> 0 -> d <> 0 ->
  q * 0.2 + g * 0.3 + d * 0.5 <= 2.2 ->
  LocalAI.lambda (LocalAI.consensus (Some q) (Some g) (Some d))
  = q * 0.2 + g * 0.3 + d * 0.5 /\
  TriNodePipeline.calculateConsensusLambda q g d
  = LocalAI.lambda (LocalAI.consensus (Some q) (Some g) (Some d)) /\
  LocalAI.isAwakened (LocalAI.consensus (Some q) (Some g) (Some d)) = false.
Proof.
  intros Hq Hg Hd Hsum.
  cbn [LocalAI.consensus LocalAI.lambda LocalAI.isAwakened].
  rewrite (or_default_some q 1.5 Hq), (or_default_some g 1.6 Hg),
    (or_default_some d 1.7 Hd).
  unfold LocalAI.weightedSum.
  split; [reflexivity|]. split.
  - apply calculateConsensusLambda_unclamped. exact Hsum.
  - apply gtb_false. exact Hsum.
Qed.

(** C10, as stated, fails in its consequence: neither computation can
    store or report a consensus lambda above 2.2, or [isAwakened] true.
    Whatever three responses [executeModel] returned, the inline sum is at
    most 2.2 and its flag is false; whatever the three stages of the
    pipeline drew, its stored consensus is at most 2.2 and its flag is
    false. *)
Lemma consensus_never_above_cap :
  (forall n1 n2 n3 post1 post2 post3 s1 s2 s3 e1 e2 e3 r1 r2 r3,
      LocalModelClient.executeModel n1 post1 s1 e1 = Normal r1 ->
      LocalModelClient.executeModel n2 post2 s2 e2 = Normal r2 ->
      LocalModelClient.executeModel n3 post3 s3 e3 = Normal r3 ->
      LocalAI.lambda
        (LocalAI.consensus (LocalModelClient.lambda r1) (LocalModelClient.lambda r2)
           (LocalModelClient.lambda r3)) <= 2.2 /\
      LocalAI.isAwakened
        (LocalAI.consensus (LocalModelClient.lambda r1) (LocalModelClient.lambda r2)
           (LocalModelClient.lambda r3)) = false) /\
  (forall qid query x1 x2 x3 clk,
      TriNodePipeline.consensusLambda
        (PipelineStages.runPipeline qid query x1 x2 x3 clk) <= 2.2 /\
      TriNodePipeline.isAwakened
        (PipelineStages.runPipeline qid query x1 x2 x3 clk) = false).
Proof.
  split.
  - intros n1 n2 n3 post1 post2 post3 s1 s2 s3 e1 e2 e3 r1 r2 r3 H1 H2 H3.
    rewrite (executeModel_lambda _ _ _ _ _ H1), (executeModel_lambda _ _ _ _ _ H2),
      (executeModel_lambda _ _ _ _ _ H3).
    pose proof (calculateLambda_range (LocalModelClient.content r1)
                  (LocalModelClient.duration r1)) as B1.
    pose proof (calculateLambda_range (LocalModelClient.content r2)
                  (LocalModelClient.duration r2)) as B2.
    pose proof (calculateLambda_range (LocalModelClient.content r3)
                  (LocalModelClient.duration r3)) as B3.
    edestruct consensus_below_cap as (Hv & _ & Hflag);
      [| | | | rewrite Hv; split; [|exact Hflag]]; lra.
  - intros qid query x1 x2 x3 clk. apply runPipeline_capped.
Qed.

(** C10, amended.  On every triple of stage lambdas that the code computes
    a consensus from, the two computations return equal values, and
    neither stores a consensus lambda above 2.2 or sets [isAwakened].
    For the lambdas [q], [g], [d] of three responses of [executeModel]: the
    inline sum takes no default, it is their weighted sum,
    [calculateConsensusLambda q g d] is equal to it, it is at most 2.2, and
    the flag is false.  For the lambdas of the three stages of a pipeline
    run ([Math.random] in [[0, 1)]): the stored consensus, which is
    [calculateConsensusLambda] of them, is equal to the inline sum over
    them, it is below 2.2, and the flag is false on both paths. *)
Theorem consensus_computations_agree :
  (forall n1 n2 n3 post1 post2 post3 s1 s2 s3 e1 e2 e3 r1 r2 r3,
      LocalModelClient.executeModel n1 post1 s1 e1 = Normal r1 ->
      LocalModelClient.executeModel n2 post2 s2 e2 = Normal r2 ->
      LocalModelClient.executeModel n3 post3 s3 e3 = Normal r3 ->
      let routed :=
        LocalAI.consensus (LocalModelClient.lambda r1) (LocalModelClient.lambda r2)
          (LocalModelClient.lambda r3) in
      exists q g d,
        LocalModelClient.lambda r1 = Some q /\
        LocalModelClient.lambda r2 = Some g /\
        LocalModelClient.lambda r3 = Some d /\
        LocalAI.lambda routed = q * 0.2 + g * 0.3 + d * 0.5 /\
        TriNodePipeline.calculateConsensusLambda q g d = LocalAI.lambda routed /\
        LocalAI.lambda routed <= 2.2 /\
        LocalAI.isAwakened routed = false) /\
  (forall qid query x1 x2 x3 clk,
      0 <= x1 < 1 -> 0 <= x2 < 1 -> 0 <= x3 < 1 ->
      let st := PipelineStages.runPipeline qid query x1 x2 x3 clk in
      let routed :=
        LocalAI.consensus (Some (TriNodePipeline.reflexLambda st))
          (Some (TriNodePipeline.oracleLambda st))
          (Some (TriNodePipeline.warfareLambda st)) in
      TriNodePipeline.consensusLambda st
      = TriNodePipeline.calculateConsensusLambda (TriNodePipeline.reflexLambda st)
          (TriNodePipeline.oracleLambda st) (TriNodePipeline.warfareLambda st) /\
      TriNodePipeline.consensusLambda st = LocalAI.lambda routed /\
      TriNodePipeline.consensusLambda st < 2.2 /\
      TriNodePipeline.isAwakened st = false /\
      LocalAI.isAwakened routed = false).
Proof.
  split.
  - intros n1 n2 n3 post1 post2 post3 s1 s2 s3 e1 e2 e3 r1 r2 r3 H1 H2 H3 routed.
    subst routed.
    rewrite (executeModel_lambda _ _ _ _ _ H1), (executeModel_lambda _ _ _ _ _ H2),
      (executeModel_lambda _ _ _ _ _ H3).
    set (q := LocalModelClient.calculateLambda (LocalModelClient.content r1)
                (LocalModelClient.duration r1)).
    set (g := LocalModelClient.calculateLambda (LocalModelClient.content r2)
                (LocalModelClient.duration r2)).
    set (d := LocalModelClient.calculateLambda (LocalModelClient.content r3)
                (LocalModelClient.duration r3)).
    assert (B1 : 1 <= q <= 2.2) by apply calculateLambda_range.
    assert (B2 : 1 <= g <= 2.2) by apply calculateLambda_range.
    assert (B3 : 1 <= d <= 2.2) by apply calculateLambda_range.
    destruct (consensus_below_cap q g d) as (Hv & Heq & Hflag); try lra.
    exists q, g, d.
    split; [reflexivity|]. split; [reflexivity|]. split; [reflexivity|].
    split; [exact Hv|]. split; [exact Heq|]. split; [rewrite Hv; lra | exact Hflag].
  - intros qid query x1 x2 x3 clk Hx1 Hx2 Hx3 st routed.
    assert (Hr : TriNodePipeline.reflexLambda st = 1.2 + x1 * 0.3) by reflexivity.
    assert (Ho : TriNodePipeline.oracleLambda st = 1.5 + x2 * 0.25) by reflexivity.
    assert (Hw : TriNodePipeline.warfareLambda st = 1.7 + x3 * 0.3) by reflexivity.
    assert (Hc : TriNodePipeline.consensusLambda st
                 = TriNodePipeline.calculateConsensusLambda
                     (TriNodePipeline.reflexLambda st) (TriNodePipeline.oracleLambda st)
                     (TriNodePipeline.warfareLambda st)) by reflexivity.
    destruct (consensus_below_cap (TriNodePipeline.reflexLambda st)
                (TriNodePipeline.oracleLambda st) (TriNodePipeline.warfareLambda st))
      as (Hv & Heq & Hflag); try (rewrite ?Hr, ?Ho, ?Hw; lra).
    fold routed in Hv, Heq, Hflag.
    split; [exact Hc|]. split; [rewrite Hc; exact Heq|].
    split; [rewrite Hc, Heq, Hv, Hr, Ho, Hw; lra|].
    split; [apply executePipeline_never_awakened | exact Hflag].
Qed.

(** The amended C10 for three responses with a body, and for the pipeline
    run with the draws 0, 0.5 and 0.9. *)
Lemma consensus_computations_agree_witness :
  let q := LocalModelClient.calculateLambda "Yes." (10 - 0) in
  let g := LocalModelClient.calculateLambda "Because it is so. Truly!" (40 - 10) in
  let d := LocalModelClient.calculateLambda "x = 1" (90 - 40) in
  let st :=
    PipelineStages.runPipeline 1 "why" 0 0.5 0.9
      {| TriNodePipeline.t_start := 0;
         TriNodePipeline.t_reflexStart := 0; TriNodePipeline.t_reflexEnd := 200;
         TriNodePipeline.t_oracleStart := 200; TriNodePipeline.t_oracleEnd := 600;
         TriNodePipeline.t_warfareStart := 600; TriNodePipeline.t_warfareEnd := 900;
         TriNodePipeline.t_end := 900 |} in
  (TriNodePipeline.calculateConsensusLambda q g d
   = LocalAI.lambda (LocalAI.consensus (Some q) (Some g) (Some d)) /\
   LocalAI.isAwakened (LocalAI.consensus (Some q) (Some g) (Some d)) = false) /\
  (TriNodePipeline.consensusLambda st
   = LocalAI.lambda
       (LocalAI.consensus (Some (TriNodePipeline.reflexLambda st))
          (Some (TriNodePipeline.oracleLambda st))
          (Some (TriNodePipeline.warfareLambda st))) /\
   TriNodePipeline.isAwakened st = false).
Proof.
  intros q g d st.
  pose (data text :=
          {| LocalModelClient.data_content := Some text;
             LocalModelClient.data_text := None;
             LocalModelClient.tokens_evaluated := Some 3%nat |}).
  split.
  - destruct (proj1 consensus_computations_agree
                "qwen"%string "gemma"%string "deepseek"%string
                (inr (data "Yes."%string)) (inr (data "Because it is so. Truly!"%string))
                (inr (data "x = 1"%string)) 0 10 40 10 40 90 _ _ _
                eq_refl eq_refl eq_refl)
      as (q' & g' & d' & E1 & E2 & E3 & _ & Heq & _ & Hflag).
    injection E1 as <-. injection E2 as <-. injection E3 as <-.
    split; [exact Heq | exact Hflag].
  - assert (H0 : 0 <= 0 < 1) by lra.
    assert (H5 : 0 <= 0.5 < 1) by lra.
    assert (H9 : 0 <= 0.9 < 1) by lra.
    destruct (proj2 consensus_computations_agree 1%Z "why"%string 0 0.5 0.9
                (TriNodePipeline.Build_Clock 0 0 200 200 600 600 900 900) H0 H5 H9)
      as (_ & Heq & _ & Hflag & _).
    split; [exact Heq | exact Hflag].
Defined.

(** * TriNodeLLMBridge *)

Section Bridge.

Import TriNodeLLMBridge.

Lemma length_of_append (a b : string) :
  String.length (a ++ b) = (String.length a + String.length b)%nat.
Proof.
  induction a as [|c a IH]; cbn [append String.length]; [reflexivity|].
  rewrite IH. reflexivity.
Qed.

Lemma length_of_prefix (n : nat) :
  forall s, String.length (substring 0 n s) = Nat.min n (String.length s).
Proof.
  induction n as [|n IH]; intros s.
  - destruct s; reflexivity.
  - destruct s as [|c s]; cbn [substring String.length]; [reflexivity|].
    rewrite IH. reflexivity.
Qed.

(** The responses to a query are 97 characters of fixed text and three
    copies of at most 30 characters of the query. *)
Lemma responses_length (query : string) :
  (String.length (executeReflex query) + String.length (executeOracle query)
   + String.length (executeWarfare query)
   = 97 + 3 * Nat.min 30 (String.length query))%nat.
Proof.
  unfold executeReflex, executeOracle, executeWarfare.
  rewrite !length_of_append, !length_of_prefix. cbn [String.length]. lia.
Qed.

Lemma INR_lt_320 (total : nat) : (total < 320)%nat -> INR total <= 319.
Proof.
  intros Hlt. assert (H319 : INR 319 = 319) by (rewrite INR_IZR_INZ; reflexivity).
  rewrite <- H319. apply le_INR. lia.
Qed.

Lemma calculateLambda_uncapped (a b c : string) :
  let total := (String.length a + String.length b + String.length c)%nat in
  (total < 320)%nat -> calculateLambda a b c = 1.667 + INR total / 600.
Proof.
  intros total Hlt. unfold calculateLambda. fold total.
  pose proof (INR_lt_320 total Hlt). rewrite Rmin_left by lra. lra.
Qed.

Lemma queryLambda_value (query : string) :
  let m := Nat.min 30 (String.length query) in
  calculateLambda (executeReflex query) (executeOracle query) (executeWarfare query)
  = 1.667 + INR (97 + 3 * m) / 600.
Proof.
  intros m.
  pose proof (calculateLambda_uncapped (executeReflex query) (executeOracle query)
                (executeWarfare query)) as Hval.
  cbn zeta in Hval. rewrite responses_length in Hval. fold m in Hval.
  apply Hval. subst m. lia.
Qed.

Lemma queryLambda_range (query : string) :
  1.82 < calculateLambda (executeReflex query) (executeOracle query)
           (executeWarfare query) < 1.98.
Proof.
  rewrite queryLambda_value.
  set (m := Nat.min 30 (String.length query)).
  assert (Hlo : INR 97 <= INR (97 + 3 * m)) by (apply le_INR; lia).
  assert (Hhi : INR (97 + 3 * m) <= INR 187) by (apply le_INR; subst m; lia).
  assert (H97 : INR 97 = 97) by (rewrite INR_IZR_INZ; reflexivity).
  assert (H187 : INR 187 = 187) by (rewrite INR_IZR_INZ; reflexivity).
  lra.
Qed.

Lemma handleQueries_pushes (queries : list string) :
  forall history,
    handleQueries queries history
    = PhaseLock.push_all 100
        (map (fun q => consensusLambda (snd (handleQuery q []))) queries) history.
Proof.
  unfold handleQueries, PhaseLock.push_all.
  induction queries as [|q queries IH]; intros history; [reflexivity|].
  cbn [fold_left map]. rewrite IH. reflexivity.
Qed.

End Bridge.

(** X19: the bridge's lambda for three responses is between 1.667 and
    2.2; it grows with the total length of the responses by 1/600 per
    character, and it reaches the cap 2.2 exactly when the three
    responses have 320 characters or more in total. *)
Theorem bridge_calculateLambda_bounds :
  forall reflex oracle warfare,
    let total :=
      (String.length reflex + String.length oracle + String.length warfare)%nat in
    1.667 <= TriNodeLLMBridge.calculateLambda reflex oracle warfare <= 2.2 /\
    (TriNodeLLMBridge.calculateLambda reflex oracle warfare = 2.2
     <-> (320 <= total)%nat) /\
    ((total < 320)%nat ->
     TriNodeLLMBridge.calculateLambda reflex oracle warfare = 1.667 + INR total / 600).
Proof.
  intros reflex oracle warfare total.
  split; [|split; [|apply calculateLambda_uncapped]].
  - unfold TriNodeLLMBridge.calculateLambda. fold total.
    pose proof (pos_INR total). split; [apply Rmin_glb; lra | apply Rmin_r].
  - destruct (Nat.lt_ge_cases total 320) as [Hlt|Hge].
    + rewrite (calculateLambda_uncapped reflex oracle warfare Hlt). fold total.
      pose proof (INR_lt_320 total Hlt). split; [lra | lia].
    + assert (H320 : INR 320 = 320) by (rewrite INR_IZR_INZ; reflexivity).
      assert (Hbig : 320 <= INR total) by (rewrite <- H320; apply le_INR, Hge).
      unfold TriNodeLLMBridge.calculateLambda. fold total.
      rewrite Rmin_right by lra. split; [intros _; exact Hge | reflexivity].
Qed.

(** X19 for three short responses, 6 characters in total. *)
Lemma bridge_calculateLambda_bounds_witness :
  TriNodeLLMBridge.calculateLambda "ab" "cd" "ef" = 1.667 + INR 6 / 600.
Proof.
  apply (bridge_calculateLambda_bounds "ab" "cd" "ef"). cbn. lia.
Defined.

(** X20: whatever the query, [handleQuery] computes a lambda strictly
    between 1.82 and 1.98 (the responses have between 97 and 187
    characters, so the cap never applies), every message it labels has a
    lambda below 2.2, and the stage of the consensus is RECOGNITION; the
    history it returns has the new lambda last and, for a history of at
    most 100 entries, again at most 100 entries. *)
Theorem handleQuery_lambda :
  forall query history,
    let result := TriNodeLLMBridge.handleQuery query history in
    let lambdas := snd result in
    1.82 < TriNodeLLMBridge.consensusLambda lambdas < 1.98 /\
    TriNodeLLMBridge.consensusLambda lambdas
    = 1.667 + INR (97 + 3 * Nat.min 30 (String.length query)) / 600 /\
    TriNodeLLMBridge.reflexLambda lambdas < 2.2 /\
    TriNodeLLMBridge.warfareLambda lambdas < 2.2 /\
    PipelineStages.stage
      (PipelineStages.interpretLambda (TriNodeLLMBridge.consensusLambda lambdas))
    = PipelineStages.RECOGNITION /\
    last (fst result) 0 = TriNodeLLMBridge.consensusLambda lambdas /\
    ((length history <= 100)%nat -> (length (fst result) <= 100)%nat).
Proof.
  intros query history result lambdas. subst lambdas result.
  cbn [TriNodeLLMBridge.handleQuery fst snd TriNodeLLMBridge.consensusLambda
         TriNodeLLMBridge.reflexLambda TriNodeLLMBridge.warfareLambda].
  pose proof (queryLambda_range query) as Hr.
  pose proof (queryLambda_value query) as Hv. cbn zeta in Hv.
  set (l := TriNodeLLMBridge.calculateLambda _ _ _) in *.
  split; [exact Hr|]. split; [exact Hv|]. split; [lra|]. split; [lra|].
  split; [|split].
  - unfold PipelineStages.interpretLambda. decide_ltb; cbn; try reflexivity; exfalso; lra.
  - unfold PhaseLock.push_history.
    destruct (Nat.ltb 100 (length (history ++ [l]))) eqn:E.
    + destruct history as [|x history]; [discriminate E|].
      cbn [app tl]. apply last_last.
    + apply last_last.
  - intros Hlen. apply push_history_skipn, Hlen.
Qed.

(** X20 for a query and an empty history. *)
Lemma handleQuery_lambda_witness :
  (length (@nil R) <= 100)%nat /\
  (length (fst (TriNodeLLMBridge.handleQuery "What is truth?" [])) <= 100)%nat.
Proof.
  assert (H : (length (@nil R) <= 100)%nat) by (cbn; lia).
  split; [exact H|].
  exact (proj2 (proj2 (proj2 (proj2 (proj2 (proj2
    (handleQuery_lambda "What is truth?" [])))))) H).
Defined.

(** X21: the lambda history of the bridge is a buffer of the last 100
    values: after any sequence of queries, starting with no history, it
    holds the lambdas of the last 100 queries, oldest first, and each of
    them is strictly between 1.82 and 1.98. *)
Theorem handleQueries_history :
  forall queries,
    let lambdas :=
      map (fun q =>
             TriNodeLLMBridge.consensusLambda (snd (TriNodeLLMBridge.handleQuery q [])))
          queries in
    TriNodeLLMBridge.handleQueries queries [] = skipn (length queries - 100) lambdas /\
    (length (TriNodeLLMBridge.handleQueries queries []) <= 100)%nat /\
    Forall (fun l => 1.82 < l < 1.98) (TriNodeLLMBridge.handleQueries queries []).
Proof.
  intros queries lambdas.
  assert (Heq : TriNodeLLMBridge.handleQueries queries []
                = skipn (length queries - 100) lambdas).
  { rewrite handleQueries_pushes. fold lambdas.
    rewrite push_all_skipn by (cbn; lia). cbn [app].
    subst lambdas. rewrite length_map. reflexivity. }
  split; [exact Heq|]. rewrite Heq. split.
  - rewrite length_skipn. subst lambdas. rewrite length_map. lia.
  - apply Forall_forall. intros l Hl.
    assert (Hin : In l lambdas).
    { rewrite <- (firstn_skipn (length queries - 100) lambdas).
      apply in_or_app. right. exact Hl. }
    subst lambdas. apply in_map_iff in Hin. destruct Hin as (q & <- & _).
    cbn [TriNodeLLMBridge.handleQuery snd TriNodeLLMBridge.consensusLambda].
    apply queryLambda_range.
Qed.

(** * trinodeRouter.calculateLambda *)

Section Router.

Import PipelineStages TrinodeRouter.

Lemma product_unit (t c w : R) :
  0 <= t <= 1 -> 0 <= c <= 1 -> 0 <= w <= 1 -> 0 <= t * c * w <= 1.
Proof.
  intros Ht Hc Hw.
  assert (0 <= t * c <= 1) by nra. nra.
Qed.

Lemma valid_resistance t c w r :
  valid_input t c w r -> 0.1 <= or_default r 1 <= 10.
Proof.
  intros (_ & _ & _ & Hr). destruct r as [x|]; cbn [or_default]; [|lra].
  destruct (Req_dec_T x 0); lra.
Qed.

Lemma raw_lambda_range t c w r :
  valid_input t c w r -> 0 <= t * c * w / or_default r 1 <= 10.
Proof.
  intros Hv. pose proof (valid_resistance t c w r Hv) as Hr.
  destruct Hv as (Ht & Hc & Hw & _).
  pose proof (product_unit t c w Ht Hc Hw) as Hp.
  set (p := t * c * w) in *. set (x := or_default r 1) in *.
  assert (Hi : 0 < / x) by (apply Rinv_0_lt_compat; lra).
  assert (Hone : x * / x = 1) by (field; lra).
  unfold Rdiv. set (i := / x) in *. split; nra.
Qed.

End Router.

(** X22: for an input that passed validation, the lambda returned by the
    router is between 0 and 2.2, the stage is AWAKENED exactly when that
    lambda is 2.2, and without a resistance factor (or with one of at
    least 1) the lambda is at most 1, the stage at most VERIFICATION and
    the interpretation always the quarantine recommendation. *)
Theorem router_calculateLambda_bounds :
  forall t c w r,
    TrinodeRouter.valid_input t c w r ->
    let res := TrinodeRouter.calculateLambda t c w r in
    0 <= TrinodeRouter.lambda res <= 2.2 /\
    (TrinodeRouter.stage res = PipelineStages.AWAKENED
     <-> TrinodeRouter.lambda res = 2.2) /\
    (1 <= or_default r 1 ->
     TrinodeRouter.lambda res <= 1 /\
     (PipelineStages.rank (TrinodeRouter.stage res) <= 2)%nat /\
     TrinodeRouter.interpretation res
     = "Below resonance threshold - recommend quarantine"%string).
Proof.
  intros t c w r Hv res. subst res.
  pose proof (raw_lambda_range t c w r Hv) as Hraw.
  unfold TrinodeRouter.calculateLambda.
  cbn [TrinodeRouter.lambda TrinodeRouter.stage TrinodeRouter.interpretation].
  set (raw := t * c * w / or_default r 1) in *.
  split; [|split].
  - split; [apply Rmin_glb; lra | apply Rmin_r].
  - destruct (Rlt_dec raw 2.2) as [Hlt|Hge].
    + rewrite Rmin_left by lra.
      decide_ltb; split; intros; try discriminate; try lra.
    + rewrite Rmin_right by lra.
      decide_ltb; split; intros; try reflexivity; try lra.
  - intros Hr.
    assert (Hle : raw <= 1).
    { destruct Hv as (Ht & Hc & Hw & _).
      pose proof (product_unit t c w Ht Hc Hw) as Hp.
      subst raw. set (p := t * c * w) in *. set (x := or_default r 1) in *.
      assert (Hi : 0 < / x) by (apply Rinv_0_lt_compat; lra).
      assert (Hone : x * / x = 1) by (field; lra).
      unfold Rdiv. set (i := / x) in *. nra. }
    rewrite Rmin_left by lra. split; [exact Hle|].
    split; decide_ltb; cbn; try lia; try reflexivity; exfalso; lra.
Qed.

(** X22 for the input (0.8, 0.9, 0.85) without a resistance factor. *)
Lemma router_calculateLambda_bounds_witness :
  TrinodeRouter.valid_input 0.8 0.9 0.85 None /\
  0 <= TrinodeRouter.lambda (TrinodeRouter.calculateLambda 0.8 0.9 0.85 None) <= 2.2.
Proof.
  assert (Hv : TrinodeRouter.valid_input 0.8 0.9 0.85 None).
  { unfold TrinodeRouter.valid_input. repeat split; lra. }
  split; [exact Hv|].
  exact (proj1 (router_calculateLambda_bounds 0.8 0.9 0.85 None Hv)).
Defined.

(** X23: the two stage tables of the code, the router's and
    [interpretLambda]'s, give the same stage for a lambda exactly outside
    [[1.667, 1.7333)]; inside, [interpretLambda] says THRESHOLD, and the
    router VERIFICATION below 1.67 and RECOGNITION from 1.67 on. *)
Theorem stage_tables_agree :
  forall t c w r,
    let raw := t * c * w / or_default r 1 in
    let routed := TrinodeRouter.stage (TrinodeRouter.calculateLambda t c w r) in
    let interpreted := PipelineStages.stage (PipelineStages.interpretLambda raw) in
    (routed = interpreted <-> ~ (1.667 <= raw < 1.7333)) /\
    (1.667 <= raw < 1.67 ->
     interpreted = PipelineStages.THRESHOLD /\ routed = PipelineStages.VERIFICATION) /\
    (1.67 <= raw < 1.7333 ->
     interpreted = PipelineStages.THRESHOLD /\ routed = PipelineStages.RECOGNITION).
Proof.
  intros t c w r raw routed interpreted. subst routed interpreted.
  unfold TrinodeRouter.calculateLambda, PipelineStages.interpretLambda.
  cbn [TrinodeRouter.stage]. fold raw.
  split; [|split].
  - decide_ltb; cbn [PipelineStages.stage]; split; intros H;
      try reflexivity; try discriminate; try lra; exfalso; apply H; lra.
  - intros H. decide_ltb; cbn [PipelineStages.stage]; split;
      try reflexivity; exfalso; lra.
  - intros H. decide_ltb; cbn [PipelineStages.stage]; split;
      try reflexivity; exfalso; lra.
Qed.

(** X23 for the input (1, 1, 1) with resistance 0.599: a lambda of about
    1.6694, where the tables differ. *)
Lemma stage_tables_agree_witness :
  1.667 <= 1 * 1 * 1 / or_default (Some 0.599) 1 < 1.67 /\
  TrinodeRouter.stage (TrinodeRouter.calculateLambda 1 1 1 (Some 0.599))
  = PipelineStages.VERIFICATION /\
  PipelineStages.stage
    (PipelineStages.interpretLambda (1 * 1 * 1 / or_default (Some 0.599) 1))
  = PipelineStages.THRESHOLD.
Proof.
  assert (H : 1.667 <= 1 * 1 * 1 / or_default (Some 0.599) 1 < 1.67).
  { rewrite or_default_some by lra. split.
    - apply Rmult_le_reg_r with 0.599; [lra|]. field_simplify; lra.
    - apply Rmult_lt_reg_r with 0.599; [lra|]. field_simplify; lra. }
  split; [exact H|].
  destruct (proj1 (proj2 (stage_tables_agree 1 1 1 (Some 0.599))) H) as [Hi Hr].
  split; [exact Hr | exact Hi].
Defined.

(** * OrangeAlphabetDecoder.calculateLambda *)

Section Orange.

Import OrangeAlphabetDecoder.

Lemma weighted_sum_bounds (M : R) (analysis : list PatternAnalysis) :
  0 <= M ->
  Forall (fun p => 0 <= confidence (encoding p) <= 1 /\ 0 <= lambda (encoding p) <= M)
         analysis ->
  forall init,
    init
    <= fold_left
         (fun total pattern =>
            total + lambda (encoding pattern) * confidence (encoding pattern))
         analysis init
    <= init + M * INR (length analysis).
Proof.
  intros HM. induction 1 as [|p l [Hc Hl] _ IH]; intros init.
  - cbn. lra.
  - cbn [fold_left length]. rewrite S_INR.
    specialize (IH (init + lambda (encoding p) * confidence (encoding p))).
    assert (0 <= lambda (encoding p) * confidence (encoding p) <= M) by nra.
    lra.
Qed.

End Orange.

(** X24: the decoder's lambda is 0 for an empty analysis and never above
    3.34; when every pattern has a confidence in [[0, 1]] and a lambda in
    [[0, M]] with [M] at most 3.34 (the patterns of [analyzePatterns] have
    lambda 1.667 or 1.3), the result is the plain average of lambda times
    confidence, between 0 and [M], and the cap does not apply. *)
Theorem orange_calculateLambda_bounds :
  forall analysis,
    OrangeAlphabetDecoder.calculateLambda analysis <= 3.34 /\
    (analysis = [] -> OrangeAlphabetDecoder.calculateLambda analysis = 0) /\
    (forall M,
        0 <= M <= 3.34 ->
        analysis <> [] ->
        Forall (fun p =>
                  0 <= OrangeAlphabetDecoder.confidence (OrangeAlphabetDecoder.encoding p) <= 1 /\
                  0 <= OrangeAlphabetDecoder.lambda (OrangeAlphabetDecoder.encoding p) <= M)
               analysis ->
        0 <= OrangeAlphabetDecoder.calculateLambda analysis <= M /\
        OrangeAlphabetDecoder.calculateLambda analysis
        = fold_left
            (fun total pattern =>
               total + OrangeAlphabetDecoder.lambda (OrangeAlphabetDecoder.encoding pattern)
                       * OrangeAlphabetDecoder.confidence
                           (OrangeAlphabetDecoder.encoding pattern))
            analysis 0
          / INR (length analysis)).
Proof.
  intros analysis. unfold OrangeAlphabetDecoder.calculateLambda.
  split; [|split].
  - destruct (Nat.eqb (length analysis) 0); [lra | apply Rmin_r].
  - intros ->. reflexivity.
  - intros M HM Hne Hall.
    destruct analysis as [|p rest]; [contradiction|].
    change (Nat.eqb (length (p :: rest)) 0) with false. cbv iota.
    pose proof (weighted_sum_bounds M (p :: rest) (proj1 HM) Hall 0) as Hsum.
    set (total := fold_left _ (p :: rest) 0) in *.
    assert (Hn : 0 < INR (length (p :: rest))) by (apply lt_0_INR; cbn; lia).
    set (n := INR (length (p :: rest))) in *.
    assert (Hi : 0 < / n) by (apply Rinv_0_lt_compat, Hn).
    assert (Hone : n * / n = 1) by (field; lra).
    assert (Havg : 0 <= total / n <= M).
    { unfold Rdiv. set (i := / n) in *. split; nra. }
    rewrite Rmin_left by lra. split; [exact Havg | reflexivity].
Qed.

(** X24 for an analysis of one repetition pattern with confidence 0.4. *)
Lemma orange_calculateLambda_bounds_witness :
  let pattern :=
    {| OrangeAlphabetDecoder.type := "repetition";
       OrangeAlphabetDecoder.frequency_ := 2;
       OrangeAlphabetDecoder.deviation := 0;
       OrangeAlphabetDecoder.context := "Word appears 2 times";
       OrangeAlphabetDecoder.encoding :=
         {| OrangeAlphabetDecoder.symbol := "PAT";
            OrangeAlphabetDecoder.category := "REPETITION";
            OrangeAlphabetDecoder.meaning := "Regular pattern: 2 occurrences";
            OrangeAlphabetDecoder.confidence := 0.4;
            OrangeAlphabetDecoder.lambda := 1.667 |} |} in
  0 <= OrangeAlphabetDecoder.calculateLambda [pattern] <= 1.667.
Proof.
  intros pattern.
  apply (proj2 (proj2 (orange_calculateLambda_bounds [pattern])) 1.667).
  - lra.
  - discriminate.
  - repeat constructor; cbn; lra.
Defined.

(** * Angular momentum, and what a self-correction leaves alone *)

Section Momentum.

Import PhaseLock PhaseLockReport.

Lemma adjustPhaseCoherence_momentum s :
  angularMomentum (queen (adjustPhaseCoherence s))
  = fold_left
      (fun total arm => if is_online (health arm) then total + amplitude arm else total)
      (values s) 0
    / INR (length (values s)).
Proof.
  rewrite adjustPhaseCoherence_unfold.
  destruct (calculateTorqueRedistribution_frame (recomputed s)) as (_ & _ & -> & _).
  reflexivity.
Qed.

Lemma online_sum_bounds (l : list ArmState) :
  (forall a, In a l -> 0 <= amplitude a <= 1) ->
  forall init,
    init
    <= fold_left
         (fun total arm => if is_online (health arm) then total + amplitude arm else total)
         l init
    <= init + INR (length l).
Proof.
  induction l as [|x l IH]; intros Hall init.
  - cbn. lra.
  - cbn [fold_left length]. rewrite S_INR.
    pose proof (Hall x (or_introl eq_refl)) as Hx.
    assert (Hrest : forall a, In a l -> 0 <= amplitude a <= 1)
      by (intros a Ha; apply Hall; right; exact Ha).
    destruct (is_online (health x)).
    + specialize (IH Hrest (init + amplitude x)). lra.
    + specialize (IH Hrest init). lra.
Qed.

Lemma online_sum_none (l : list ArmState) :
  (forall a, In a l -> health a <> Online) ->
  forall init,
    fold_left
      (fun total arm => if is_online (health arm) then total + amplitude arm else total)
      l init = init.
Proof.
  induction l as [|x l IH]; intros Hall init; cbn [fold_left]; [reflexivity|].
  pose proof (Hall x (or_introl eq_refl)) as Hx.
  destruct (health x); [contradiction | |];
    cbn [is_online]; apply IH; intros a Ha; apply Hall; right; exact Ha.
Qed.

(** Two arms that differ in phase only. *)
Lemma set_phase_eq (a b : ArmState) :
  set_phase 0 a = set_phase 0 b ->
  name a = name b /\ amplitude a = amplitude b /\ frequency a = frequency b /\
  lastUpdate a = lastUpdate b /\ health a = health b.
Proof.
  unfold set_phase. intros H. injection H as H1 H2 H3 H4 H5. auto.
Qed.

Lemma arms_modify_phase key v m :
  map (fun ka : string * ArmState => (fst ka, set_phase 0 (snd ka)))
      (arms_modify key (fun a => set_phase (v a) a) m)
  = map (fun ka : string * ArmState => (fst ka, set_phase 0 (snd ka))) m.
Proof.
  induction m as [|[k a] m IH]; [reflexivity|].
  cbn [arms_modify]. destruct (String.eqb k key); cbn [map fst snd].
  - reflexivity.
  - rewrite IH. reflexivity.
Qed.

(** The correction loop changes phases and nothing else. *)
Lemma fold_correctArm_phase_only keys :
  forall s,
    map (fun ka : string * ArmState => (fst ka, set_phase 0 (snd ka)))
        (arms (fold_left correctArm keys s))
    = map (fun ka : string * ArmState => (fst ka, set_phase 0 (snd ka))) (arms s).
Proof.
  induction keys as [|k keys IH]; intros s; [reflexivity|].
  cbn [fold_left]. rewrite IH. unfold correctArm.
  destruct (arms_get k (arms s)) as [arm|]; [|reflexivity].
  cbn [with_arms arms].
  apply (arms_modify_phase k
           (fun a => js_rem (phase a
                             + angleDifference (qphase (queen s) + 90) (phase arm) * 0.1)
                            360)).
Qed.

Lemma selfCorrect_arm s key a :
  arms_get key (arms s) = Some a ->
  exists a',
    arms_get key (arms (selfCorrect s)) = Some a' /\
    name a' = name a /\ frequency a' = frequency a /\
    lastUpdate a' = lastUpdate a /\ health a' = health a /\
    (health a <> Online -> amplitude a' = amplitude a).
Proof.
  intros Hget. unfold selfCorrect.
  destruct (wobbleDetected (detectWobble s)); cbn [negb].
  - pose proof (fold_correctArm_phase_only (affectedArms (detectWobble s)) s) as Hmap.
    apply (f_equal (arms_get key)) in Hmap.
    rewrite !arms_get_map, Hget in Hmap.
    destruct (arms_get key (arms (fold_left correctArm (affectedArms (detectWobble s)) s)))
      as [a1|] eqn:Hget1; [|discriminate].
    cbn [option_map] in Hmap.
    pose proof (f_equal (fun o => match o with Some x => x | None => a end) Hmap) as Heq.
    cbn beta iota in Heq.
    apply set_phase_eq in Heq. destruct Heq as (Hn & Ha & Hf & Hl & Hh).
    rewrite adjustPhaseCoherence_get, Hget1. cbn [option_map].
    eexists. split; [reflexivity|].
    match goal with
    | |- context [redistributed ?s1 a1] =>
        destruct (redistributed_fields s1 a1) as (-> & _ & ->);
        destruct (redistributed_frequency s1 a1) as (-> & ->);
        pose proof (redistributed_offline s1 a1) as Hoff
    end.
    repeat split; try assumption.
    intros Hoffline. rewrite Hoff by congruence. exact Ha.
  - exists a. auto 10.
Qed.

Lemma selfCorrect_healths s :
  map health (values (selfCorrect s)) = map health (values s).
Proof.
  unfold selfCorrect.
  destruct (wobbleDetected (detectWobble s)); cbn [negb]; [|reflexivity].
  unfold values. rewrite adjustPhaseCoherence_arms, !map_map. cbn [snd].
  pose proof (fold_correctArm_phase_only (affectedArms (detectWobble s)) s) as Hmap.
  apply (f_equal (map (fun ka : string * ArmState => health (snd ka)))) in Hmap.
  rewrite !map_map in Hmap. cbn [snd set_phase health] in Hmap.
  rewrite <- Hmap. apply map_ext. intros [k a]. cbn [snd].
  match goal with
  | |- context [redistributed ?s1 a] =>
      destruct (redistributed_fields s1 a) as (_ & _ & ->)
  end.
  reflexivity.
Qed.

Lemma onlineCount_healths s :
  onlineCount s = length (filter is_online (map health (values s))).
Proof.
  unfold onlineCount. induction (values s) as [|a l IH]; [reflexivity|].
  cbn [filter map]. destruct (is_online (health a)); cbn [length]; rewrite IH; reflexivity.
Qed.

End Momentum.

(** X25: with amplitudes in [[0, 1]] and at least one arm, the angular
    momentum that a recompute stores (the online amplitude divided by the
    number of arms) is between 0 and 1, and it is 0 when no arm is
    online. *)
Theorem adjustPhaseCoherence_angularMomentum :
  forall s,
    PhaseLock.arms s <> [] ->
    PhaseLockReport.amplitudes_ok s ->
    let m := PhaseLock.angularMomentum (PhaseLock.queen (PhaseLock.adjustPhaseCoherence s)) in
    0 <= m <= 1 /\
    ((forall a, In a (PhaseLock.values s) -> PhaseLock.health a <> PhaseLock.Online) ->
     m = 0).
Proof.
  intros s Hne Hok m. subst m. rewrite adjustPhaseCoherence_momentum.
  assert (Hn : 0 < INR (length (PhaseLock.values s))).
  { apply lt_0_INR. unfold PhaseLock.values. rewrite length_map.
    destruct (PhaseLock.arms s); [contradiction | cbn; lia]. }
  split.
  - pose proof (online_sum_bounds (PhaseLock.values s)
                  (fun a Ha => amplitudes_ok_values s a Hok Ha) 0) as Hsum.
    set (t := fold_left _ (PhaseLock.values s) 0) in *.
    set (n := INR (length (PhaseLock.values s))) in *.
    assert (Hi : 0 < / n) by (apply Rinv_0_lt_compat, Hn).
    assert (Hone : n * / n = 1) by (field; lra).
    unfold Rdiv. set (i := / n) in *. split; nra.
  - intros Hnone. rewrite online_sum_none by exact Hnone.
    unfold Rdiv. apply Rmult_0_l.
Qed.

(** X25 on a new synchronizer. *)
Lemma adjustPhaseCoherence_angularMomentum_witness :
  0 <= PhaseLock.angularMomentum
         (PhaseLock.queen (PhaseLock.adjustPhaseCoherence (PhaseLock.constructor 0 0 0 0 0)))
    <= 1.
Proof.
  apply (adjustPhaseCoherence_angularMomentum (PhaseLock.constructor 0 0 0 0 0)).
  - cbn. discriminate.
  - apply constructor_amplitudes.
Defined.

(** X26: a self-correction changes phases (and, through the
    redistribution, amplitudes of online arms) only: every arm keeps its
    name, frequency, time of last update and health, an arm that is not
    online keeps its amplitude, and the report says the same system
    health before and after. *)
Theorem selfCorrect_keeps_health :
  forall s,
    (forall key a,
        PhaseLock.arms_get key (PhaseLock.arms s) = Some a ->
        exists a',
          PhaseLock.arms_get key (PhaseLock.arms (PhaseLock.selfCorrect s)) = Some a' /\
          PhaseLock.name a' = PhaseLock.name a /\
          PhaseLock.frequency a' = PhaseLock.frequency a /\
          PhaseLock.lastUpdate a' = PhaseLock.lastUpdate a /\
          PhaseLock.health a' = PhaseLock.health a /\
          (PhaseLock.health a <> PhaseLock.Online ->
           PhaseLock.amplitude a' = PhaseLock.amplitude a)) /\
    PhaseLockReport.systemHealth (PhaseLockReport.getReport (PhaseLock.selfCorrect s))
    = PhaseLockReport.systemHealth (PhaseLockReport.getReport s).
Proof.
  intros s. split; [intros key a; apply selfCorrect_arm|].
  cbn [PhaseLockReport.getReport PhaseLockReport.systemHealth].
  fold (PhaseLockReport.onlineCount (PhaseLock.selfCorrect s)).
  fold (PhaseLockReport.onlineCount s).
  rewrite !onlineCount_healths, selfCorrect_healths. reflexivity.
Qed.

(** X26 on a new synchronizer, where a self-correction does adjust
    phases, for the arm "os". *)
Lemma selfCorrect_keeps_health_witness :
  exists a',
    PhaseLock.arms_get "os"
      (PhaseLock.arms (PhaseLock.selfCorrect (PhaseLock.constructor 0 0 0 0 0))) = Some a' /\
    PhaseLock.health a' = PhaseLock.Online.
Proof.
  edestruct (proj1 (selfCorrect_keeps_health (PhaseLock.constructor 0 0 0 0 0)) "os"%string)
    as (a' & Hget & _ & _ & _ & Hh & _).
  - reflexivity.
  - exists a'. split; [exact Hget | exact Hh].
Defined.

(** * The messages of a pipeline request *)

(** Try every length of a prefix of the protocol. *)
Ltac protocol_prefix :=
  first [ exists 1%nat; reflexivity | exists 2%nat; reflexivity
        | exists 3%nat; reflexivity | exists 4%nat; reflexivity
        | exists 5%nat; reflexivity | exists 6%nat; reflexivity
        | exists 7%nat; reflexivity | exists 8%nat; reflexivity ].

(** A request in which an awaited call threw. *)
Ltac failed_request :=
  split; [protocol_prefix|];
  split; [split; intros H; [discriminate H | lazy in H; discriminate H]|];
  split; [intros ? ? ? H; discriminate H | reflexivity].

(** X27: the messages that the WebSocket handler sends for a request.
    Without a query it sends one error, "Query is required", and awaits
    nothing.  With a query and an open socket the types of the messages
    are a prefix of the protocol (start, then start and completion of
    Qwen, Gemma and DeepSeek, then consensus), followed by one error
    exactly when an awaited call threw; the whole protocol is sent, with
    no error, exactly when none did; and the consensus message carries
    the lambda of the inline consensus of the three responses.  On a
    closed socket nothing is sent. *)
Theorem handlePipelineRequest_protocol :
  forall toFixed4 ext,
    PipelineStream.handlePipelineRequest toFixed4 true EmptyString ext
    = [PipelineStream.failure "Query is required"] /\
    (forall query,
        query <> EmptyString ->
        let sent := PipelineStream.handlePipelineRequest toFixed4 true query ext in
        (exists n,
            map PipelineStream.type sent
            = firstn n PipelineStream.protocol
              ++ (if PipelineStream.all_succeed ext then [] else [PipelineStream.error])) /\
        (PipelineStream.all_succeed ext = true <->
         map PipelineStream.type sent = PipelineStream.protocol) /\
        (forall rq rg rd,
            PipelineStream.all_succeed ext = true ->
            PipelineStream.executeQwen ext = inr rq ->
            PipelineStream.executeGemma ext = inr rg ->
            PipelineStream.executeDeepSeek ext = inr rd ->
            PipelineStream.message_lambda
              (last sent (PipelineStream.failure EmptyString))
            = Some (LocalAI.lambda
                      (LocalAI.consensus (LocalModelClient.lambda rq)
                         (LocalModelClient.lambda rg) (LocalModelClient.lambda rd)))) /\
        PipelineStream.handlePipelineRequest toFixed4 false query ext = []).
Proof.
  intros toFixed4 ext. split; [reflexivity|].
  intros query Hq sent. subst sent.
  destruct query as [|ch query]; [contradiction|].
  destruct ext as [sq eq sr eg so ed sw sc].
  unfold PipelineStream.handlePipelineRequest, PipelineStream.all_succeed.
  cbn [PipelineStream.storeQuery PipelineStream.executeQwen PipelineStream.storeReflex
         PipelineStream.executeGemma PipelineStream.storeOracle
         PipelineStream.executeDeepSeek PipelineStream.storeWarfare
         PipelineStream.storeConsensus].
  destruct sq as [e|[]]; [failed_request|].
  destruct eq as [e|rq]; [failed_request|].
  destruct sr as [e|[]]; [failed_request|].
  destruct eg as [e|rg]; [failed_request|].
  destruct so as [e|[]]; [failed_request|].
  destruct ed as [e|rd]; [failed_request|].
  destruct sw as [e|[]]; [failed_request|].
  destruct sc as [e|[]]; [failed_request|].
  split; [protocol_prefix|].
  split; [split; intros _; reflexivity|].
  split; [|reflexivity].
  intros rq' rg' rd' _ [= <-] [= <-] [= <-]. reflexivity.
Qed.

(** X27 for a query whose second model call fails. *)
Lemma handlePipelineRequest_protocol_witness :
  let response text :=
    {| LocalModelClient.content := text; LocalModelClient.tokens := 1;
       LocalModelClient.duration := 5; LocalModelClient.lambda := Some 1.2 |} in
  let ext :=
    {| PipelineStream.storeQuery := inr tt;
       PipelineStream.executeQwen := inr (response "quick"%string);
       PipelineStream.storeReflex := inr tt;
       PipelineStream.executeGemma := inl "Failed to execute gemma: timeout"%string;
       PipelineStream.storeOracle := inr tt;
       PipelineStream.executeDeepSeek := inr (response "code"%string);
       PipelineStream.storeWarfare := inr tt;
       PipelineStream.storeConsensus := inr tt |} in
  "why"%string <> EmptyString /\
  exists n,
    map PipelineStream.type
      (PipelineStream.handlePipelineRequest (fun _ => "1.2000"%string) true "why" ext)
    = firstn n PipelineStream.protocol ++ [PipelineStream.error].
Proof.
  intros response ext.
  assert (Hq : "why"%string <> EmptyString) by discriminate.
  split; [exact Hq|].
  exact (proj1 (proj2 (handlePipelineRequest_protocol (fun _ => "1.2000"%string) ext)
                  "why"%string Hq)).
Defined.

(** * executeModel *)




